(** * Store-identity reconciliation: the Salesforce matcher

  A shallow embedding of the matching code of
  [supabase/functions/database-query/index.ts] (the helpers
  [parsePythonDict], [fuzzyMatchScore], [normalizeAddress] and the ranking
  loop of [getSalesforceMetadataByAddress]) and of the client-side
  sanitisation in [src/lib/api.ts].

  Conventions of the embedding.
  - A JavaScript string is a [list ascii]; a character is one code unit of
    the Latin-1 block (U+0000 to U+00FF).  Case mapping, white space and
    the regular-expression classes are those of ECMAScript restricted to
    that block.
  - A JavaScript number is an IEEE 754 binary64 value: Rocq's primitive
    [float].  Lengths and indices are [nat].
  - An exception is an explicit outcome of the function that raises it. *)

From Stdlib Require Import Ascii String Bool Arith ZArith QArith Lia List.
From Stdlib Require Import Floats Uint63 Sorted Permutation.
Import ListNotations.
Local Close Scope Q_scope.
Local Open Scope list_scope.

Set Implicit Arguments.
Set Warnings "-inexact-float".

(** ** Strings *)

Module JsString.

Definition str := list ascii.

(** A literal of the source text. *)
Definition lit (s : string) : str := list_ascii_of_string s.

Definition code (c : ascii) : nat := nat_of_ascii c.

Definition between (lo hi : nat) (c : ascii) : bool :=
  (lo <=? code c) && (code c <=? hi).

(** [\d] *)
Definition isDigit (c : ascii) : bool := between 48 57 c.

(** [\w]: the class behind [\b], ASCII letters, digits and underscore. *)
Definition isWordChar (c : ascii) : bool :=
  between 97 122 c || between 65 90 c || isDigit c || (code c =? 95).

(** [\s], and the characters [trim] removes: TAB, LF, VT, FF, CR, SP and
    NBSP are the members of WhiteSpace and LineTerminator below U+0100. *)
Definition isSpace (c : ascii) : bool :=
  between 9 13 c || (code c =? 32) || (code c =? 160).

(** [String.prototype.toLowerCase] on one Latin-1 character: A-Z, and
    U+00C0-U+00DE except the multiplication sign U+00D7. *)
Definition lowerChar (c : ascii) : ascii :=
  if between 65 90 c || (between 192 222 c && negb (code c =? 215))
  then ascii_of_nat (code c + 32)
  else c.

Definition toLowerCase (s : str) : str := map lowerChar s.

Fixpoint trimStart (s : str) : str :=
  match s with
  | c :: t => if isSpace c then trimStart t else s
  | [] => []
  end.

Definition trimEnd (s : str) : str := rev (trimStart (rev s)).

(** [String.prototype.trim] *)
Definition trim (s : str) : str := trimEnd (trimStart s).

Definition eqc (a b : ascii) : bool := Ascii.eqb a b.

Fixpoint eqs (a b : str) : bool :=
  match a, b with
  | [], [] => true
  | x :: a', y :: b' => eqc x y && eqs a' b'
  | _, _ => false
  end.

(** [s.startsWith(p)] *)
Fixpoint startsWith (p s : str) : bool :=
  match p, s with
  | [], _ => true
  | x :: p', y :: s' => eqc x y && startsWith p' s'
  | _ :: _, [] => false
  end.

(** [s.includes(p)] *)
Fixpoint includes (s p : str) : bool :=
  startsWith p s ||
  match s with
  | [] => false
  | _ :: t => includes t p
  end.

(** [s.charAt(i)]: the empty string out of range. *)
Definition charAt (s : str) (i : nat) : str :=
  match nth_error s i with
  | Some c => [c]
  | None => []
  end.

(** [s.split(sep)] for a non-empty separator: [cur] holds, reversed, the
    characters of the part being read and [skip] counts the characters of
    a separator still to pass over. *)
Fixpoint splitGo (sep : str) (cur : str) (skip : nat) (s : str) : list str :=
  match s with
  | [] => [rev cur]
  | c :: t =>
      match skip with
      | S k => splitGo sep cur k t
      | O =>
          if startsWith sep s
          then rev cur :: splitGo sep [] (length sep - 1) t
          else splitGo sep (c :: cur) 0 t
      end
  end.

Definition split (s sep : str) : list str := splitGo sep [] 0 s.

End JsString.

Import JsString.

(** ** Regular expressions

  The patterns of the source are all of the shape "a match of one character
  or more, decided by looking at the character before it and at the text
  from the match on".  A pattern is embedded as the function that gives the
  length of the match starting at a position, if there is one. *)

Module Regex.

(** [prev] is the character before the position, [s] the text from it. *)
Definition pattern := option ascii -> str -> option nat.

(** [s.replace(/p/g, rep)]: the leftmost match is replaced and the search
    resumes behind it.  [skip] counts the characters of the last match that
    are still to be passed over. *)
Fixpoint replaceGo (p : pattern) (rep : str) (prev : option ascii)
    (skip : nat) (s : str) : str :=
  match s with
  | [] => []
  | c :: t =>
      match skip with
      | S k => replaceGo p rep (Some c) k t
      | O =>
          match p prev s with
          | Some (S k) => rep ++ replaceGo p rep (Some c) k t
          | _ => c :: replaceGo p rep (Some c) 0 t
          end
      end
  end.

Definition replaceAll (p : pattern) (rep : str) (s : str) : str :=
  replaceGo p rep None 0 s.

(** [/p/.test(s)] *)
Fixpoint testGo (p : pattern) (prev : option ascii) (s : str) : bool :=
  match p prev s with
  | Some _ => true
  | None =>
      match s with
      | [] => false
      | c :: t => testGo p (Some c) t
      end
  end.

Definition test (p : pattern) (s : str) : bool := testGo p None s.

(** A literal: [/None/], [/'/]. *)
Definition literal (w : str) : pattern :=
  fun _ s => if startsWith w s then Some (length w) else None.

(** A character class: [/[.,#]/]. *)
Definition class (f : ascii -> bool) : pattern :=
  fun _ s =>
    match s with
    | c :: _ => if f c then Some 1 else None
    | [] => None
    end.

Fixpoint runLength (f : ascii -> bool) (s : str) : nat :=
  match s with
  | c :: t => if f c then S (runLength f t) else 0
  | [] => 0
  end.

(** A greedy run of a class: [/\s+/], [/\d+/]. *)
Definition plus (f : ascii -> bool) : pattern :=
  fun _ s =>
    match runLength f s with
    | O => None
    | n => Some n
    end.

Definition wordBefore (prev : option ascii) : bool :=
  match prev with
  | Some c => isWordChar c
  | None => false
  end.

Definition wordAt (s : str) : bool :=
  match s with
  | c :: _ => isWordChar c
  | [] => false
  end.

(** [\b] holds where exactly one side is a word character. *)
Definition boundary (prev : option ascii) (s : str) : bool :=
  xorb (wordBefore prev) (wordAt s).

(** A whole word: [/\bw\b/]. *)
Definition wholeWord (w : str) : pattern :=
  fun prev s =>
    if boundary prev s && startsWith w s &&
       boundary (last (map Some w) prev) (skipn (length w) s)
    then Some (length w)
    else None.

(** An alternation of literals under the [i] flag: [/(st|ave|rd)/i].  The
    words are lower-case ASCII; below U+0100 a character matches an ASCII
    letter without regard to case exactly when its lower case is that
    letter. *)
Definition anyOfIgnoreCase (ws : list str) : pattern :=
  fun _ s =>
    match filter (fun w => startsWith w (toLowerCase s)) ws with
    | w :: _ => Some (length w)
    | [] => None
    end.

End Regex.

Import Regex.

(** ** Numbers *)

Module JsNumber.

(** An integer as a number.  The integers of this code are lengths, indices
    and differences of lengths: below 2^53 in absolute value, where the
    conversion is exact. *)
Definition ofZ (z : Z) : float :=
  if (z <? 0)%Z
  then PrimFloat.opp (PrimFloat.of_uint63 (Uint63.of_Z (- z)))
  else PrimFloat.of_uint63 (Uint63.of_Z z).

Definition ofNat (n : nat) : float := ofZ (Z.of_nat n).

(** [Math.max(x, y)]: NaN if either is NaN, and +0 above -0. *)
Definition max (x y : float) : float :=
  if PrimFloat.is_nan x || PrimFloat.is_nan y then PrimFloat.nan
  else if PrimFloat.ltb x y then y
  else if PrimFloat.ltb y x then x
  else if PrimFloat.is_zero x && PrimFloat.get_sign x then y
  else x.

(** The comparisons of the source, as booleans. *)
Definition gt (x y : float) : bool := PrimFloat.ltb y x.
Definition ge (x y : float) : bool := PrimFloat.leb y x.

End JsNumber.

(** ** Decimal literals and [JSON.parse] *)

Module Decimal.

Definition digitValue (c : ascii) : Z := Z.of_nat (code c - 48).

(** The integer a string of decimal digits denotes. *)
Definition digitsToZ (ds : str) : Z :=
  fold_left (fun acc c => (10 * acc + digitValue c)%Z) ds 0%Z.

Fixpoint takeWhile (f : ascii -> bool) (s : str) : str :=
  match s with
  | c :: t => if f c then c :: takeWhile f t else []
  | [] => []
  end.

Fixpoint dropWhile (f : ascii -> bool) (s : str) : str :=
  match s with
  | c :: t => if f c then dropWhile f t else s
  | [] => []
  end.

(** The binary64 value nearest to [m * 10^e] (ties to even), for [m >= 0],
    with the sign [neg]: an integer is rounded directly, a fraction by one
    correctly rounded division of two integers. *)
Definition toSpecFloat (neg : bool) (m e : Z) : spec_float :=
  match m with
  | Zpos p =>
      if (0 <=? e)%Z
      then binary_normalize prec emax (cond_Zopp neg (Zpos p * 10 ^ e)) 0 false
      else SFdiv prec emax (S754_finite neg p 0)
                 (S754_finite false (Z.to_pos (10 ^ (- e))) 0)
  | _ => S754_zero neg
  end.

Definition toFloat (neg : bool) (m e : Z) : float :=
  SF2Prim (toSpecFloat neg m e).

(** An optional exponent part [e+12], [E-3], [e7] at the head of [s]: the
    exponent and the rest, or nothing when no digit follows. *)
Definition exponentPart (s : str) : option (Z * str) :=
  match s with
  | c :: t =>
      if eqc c "e"%char || eqc c "E"%char then
        let '(neg, u) :=
          match t with
          | d :: u' =>
              if eqc d "-"%char then (true, u')
              else if eqc d "+"%char then (false, u')
              else (false, t)
          | [] => (false, t)
          end in
        match takeWhile isDigit u with
        | [] => None
        | ds => Some (cond_Zopp neg (digitsToZ ds), dropWhile isDigit u)
        end
      else None
  | [] => None
  end.

End Decimal.

Module Json.

#[warnings="-register-all"]
Inductive json : Type :=
| JNull
| JBool (b : bool)
| JNum (x : float)
| JStr (s : str)
| JArr (l : list json)
| JObj (members : list (str * json)).

(** The result of reading a text.  [Beyond] is the embedding's own: the
    text names a character above U+00FF in a [\u] escape, or nests deeper
    than the reader follows; the embedding then says nothing. *)
Inductive parsed (A : Type) : Type :=
| Ok (a : A)
| SyntaxError
| Beyond.
Arguments SyntaxError {A}.
Arguments Beyond {A}.

Definition isJsonSpace (c : ascii) : bool :=
  (code c =? 9) || (code c =? 10) || (code c =? 13) || (code c =? 32).

Definition skipWs (s : str) : str := Decimal.dropWhile isJsonSpace s.

Definition hexValue (c : ascii) : option nat :=
  if isDigit c then Some (code c - 48)
  else if between 97 102 c then Some (code c - 87)
  else if between 65 70 c then Some (code c - 55)
  else None.

Inductive stringState : Type :=
| Plain
| Escape
| Hex (remaining : nat) (value : nat).

(** The characters of a string after its opening quote: the string and the
    text behind the closing quote. *)
Fixpoint stringGo (st : stringState) (acc : str) (s : str) : parsed (str * str) :=
  match s with
  | [] => SyntaxError
  | c :: t =>
      match st with
      | Plain =>
          if eqc c "034"%char then Ok (rev acc, t)
          else if eqc c "\"%char then stringGo Escape acc t
          else if code c <? 32 then SyntaxError
          else stringGo Plain (c :: acc) t
      | Escape =>
          if eqc c "034"%char || eqc c "\"%char || eqc c "/"%char
          then stringGo Plain (c :: acc) t
          else if eqc c "b"%char then stringGo Plain (ascii_of_nat 8 :: acc) t
          else if eqc c "f"%char then stringGo Plain (ascii_of_nat 12 :: acc) t
          else if eqc c "n"%char then stringGo Plain (ascii_of_nat 10 :: acc) t
          else if eqc c "r"%char then stringGo Plain (ascii_of_nat 13 :: acc) t
          else if eqc c "t"%char then stringGo Plain (ascii_of_nat 9 :: acc) t
          else if eqc c "u"%char then stringGo (Hex 4 0) acc t
          else SyntaxError
      | Hex remaining value =>
          match hexValue c with
          | None => SyntaxError
          | Some h =>
              let v := 16 * value + h in
              match remaining with
              | S (S k) => stringGo (Hex (S k) v) acc t
              | _ =>
                  if v <? 256 then stringGo Plain (ascii_of_nat v :: acc) t
                  else Beyond
              end
          end
      end
  end.

(** A number at the head of [s]: an optional minus sign; a single zero or a
    run of digits not starting with zero; optionally a point and one digit
    or more; optionally an exponent part. *)
Definition number (s : str) : parsed (float * str) :=
  let '(neg, s1) :=
    match s with
    | c :: t => if eqc c "-"%char then (true, t) else (false, s)
    | [] => (false, s)
    end in
  let '(int, s2) :=
    match s1 with
    | c :: t =>
        if eqc c "0"%char then ([c], t)
        else (Decimal.takeWhile isDigit s1, Decimal.dropWhile isDigit s1)
    | [] => ([], s1)
    end in
  match int with
  | [] => SyntaxError
  | _ =>
      let frac :=
        match s2 with
        | c :: t =>
            if eqc c "."%char
            then Some (Decimal.takeWhile isDigit t, Decimal.dropWhile isDigit t)
            else None
        | [] => None
        end in
      match frac with
      | Some ([], _) => SyntaxError
      | _ =>
          let '(fr, s3) := match frac with Some p => p | None => ([], s2) end in
          match s3 with
          | c :: _ =>
              if eqc c "e"%char || eqc c "E"%char then
                match Decimal.exponentPart s3 with
                | Some (e, s4) =>
                    Ok (Decimal.toFloat neg (Decimal.digitsToZ (int ++ fr))
                          (e - Z.of_nat (length fr)), s4)
                | None => SyntaxError
                end
              else Ok (Decimal.toFloat neg (Decimal.digitsToZ (int ++ fr))
                         (- Z.of_nat (length fr)), s3)
          | [] => Ok (Decimal.toFloat neg (Decimal.digitsToZ (int ++ fr))
                        (- Z.of_nat (length fr)), s3)
          end
      end
  end.

Definition keyword (w : string) (v : json) (s : str) : parsed (json * str) :=
  if startsWith (lit w) s then Ok (v, skipn (length (lit w)) s) else SyntaxError.

(** A value at the head of [s], white space before it skipped; [fuel]
    bounds the calls, two for each character being enough. *)
Fixpoint value (fuel : nat) (s : str) : parsed (json * str) :=
  match fuel with
  | O => Beyond
  | S fuel' =>
      match skipWs s with
      | [] => SyntaxError
      | c :: t =>
          if eqc c "{"%char then
            match skipWs t with
            | d :: u =>
                if eqc d "}"%char then Ok (JObj [], u)
                else members fuel' [] t
            | [] => SyntaxError
            end
          else if eqc c "["%char then
            match skipWs t with
            | d :: u =>
                if eqc d "]"%char then Ok (JArr [], u)
                else elements fuel' [] t
            | [] => SyntaxError
            end
          else if eqc c "034"%char then
            match stringGo Plain [] t with
            | Ok (x, r) => Ok (JStr x, r)
            | SyntaxError => SyntaxError
            | Beyond => Beyond
            end
          else if eqc c "-"%char || isDigit c then
            match number (c :: t) with
            | Ok (x, r) => Ok (JNum x, r)
            | SyntaxError => SyntaxError
            | Beyond => Beyond
            end
          else if eqc c "t"%char then keyword "true" (JBool true) (c :: t)
          else if eqc c "f"%char then keyword "false" (JBool false) (c :: t)
          else if eqc c "n"%char then keyword "null" JNull (c :: t)
          else SyntaxError
      end
  end

(** The elements of an array from the next one on, up to and with [']']. *)
with elements (fuel : nat) (acc : list json) (s : str) : parsed (json * str) :=
  match fuel with
  | O => Beyond
  | S fuel' =>
      match value fuel' s with
      | Ok (v, r) =>
          match skipWs r with
          | c :: t =>
              if eqc c ","%char then elements fuel' (v :: acc) t
              else if eqc c "]"%char then Ok (JArr (rev (v :: acc)), t)
              else SyntaxError
          | [] => SyntaxError
          end
      | SyntaxError => SyntaxError
      | Beyond => Beyond
      end
  end

(** The members of an object from the next one on, up to and with ['}']. *)
with members (fuel : nat) (acc : list (str * json)) (s : str)
    : parsed (json * str) :=
  match fuel with
  | O => Beyond
  | S fuel' =>
      match skipWs s with
      | q :: t =>
          if eqc q "034"%char then
            match stringGo Plain [] t with
            | Ok (k, r) =>
                match skipWs r with
                | c :: u =>
                    if eqc c ":"%char then
                      match value fuel' u with
                      | Ok (v, r') =>
                          match skipWs r' with
                          | d :: w =>
                              if eqc d ","%char
                              then members fuel' ((k, v) :: acc) w
                              else if eqc d "}"%char
                              then Ok (JObj (rev ((k, v) :: acc)), w)
                              else SyntaxError
                          | [] => SyntaxError
                          end
                      | SyntaxError => SyntaxError
                      | Beyond => Beyond
                      end
                    else SyntaxError
                | [] => SyntaxError
                end
            | SyntaxError => SyntaxError
            | Beyond => Beyond
            end
          else SyntaxError
      | [] => SyntaxError
      end
  end.

(** [JSON.parse(text)]: one value, white space around it, nothing else. *)
Definition parse (text : str) : parsed json :=
  match value (2 * length text + 2) text with
  | Ok (v, r) =>
      match skipWs r with
      | [] => Ok v
      | _ :: _ => SyntaxError
      end
  | SyntaxError => SyntaxError
  | Beyond => Beyond
  end.

(** [v.key] for a parsed value: the last member of that name of an object,
    [undefined] on anything else (no array, string, number or boolean has
    a property of the names asked for here). *)
Definition getMember (v : json) (key : str) : option json :=
  match v with
  | JObj ms =>
      match filter (fun kv => eqs (fst kv) key) (rev ms) with
      | kv :: _ => Some (snd kv)
      | [] => None
      end
  | _ => None
  end.

(** ToBoolean. *)
Definition truthy (v : json) : bool :=
  match v with
  | JNull => false
  | JBool b => b
  | JNum x => negb (PrimFloat.is_zero x || PrimFloat.is_nan x)
  | JStr s => negb (eqs s [])
  | JArr _ | JObj _ => true
  end.

End Json.

Import Json.

(** ** [supabase/functions/database-query/index.ts] *)

Module DatabaseQuery.

(** What a call comes to: a value, the [TypeError] of calling a string method
    on a value that is no string, or a text the embedding does not cover (see
    [Json.Beyond]). *)
Inductive outcome (A : Type) : Type :=
| Return (a : A)
| TypeError
| Uncovered.
Arguments TypeError {A}.
Arguments Uncovered {A}.

(** *** [parsePythonDict]

    [None] is every argument that is falsy or no string, and the [null] the
    function returns. *)
Definition pythonToJson (dictStr : str) : str :=
  replaceAll (literal (lit "False")) (lit "false")
    (replaceAll (literal (lit "True")) (lit "true")
       (replaceAll (literal (lit "None")) (lit "null")
          (replaceAll (literal (lit "'")) ["034"%char] dictStr))).

Definition parsePythonDict (dictStr : option str) : outcome (option json) :=
  match dictStr with
  | None | Some [] => Return None
  | Some text =>
      match parse text with
      | Ok v => Return (Some v)
      | Beyond => Uncovered
      | SyntaxError =>
          match parse (pythonToJson text) with
          | Ok v => Return (Some v)
          | SyntaxError => Return None
          | Beyond => Uncovered
          end
      end
  end.

(** The suffix and direction words of [normalizeAddress], in the order of
    the source's [replace] calls. *)
Definition abbreviations : list (str * str) :=
  [ (lit "avenue", lit "ave"); (lit "street", lit "st");
    (lit "drive", lit "dr"); (lit "boulevard", lit "blvd");
    (lit "road", lit "rd"); (lit "lane", lit "ln");
    (lit "court", lit "ct"); (lit "north", lit "n");
    (lit "south", lit "s"); (lit "east", lit "e");
    (lit "west", lit "w"); (lit "northeast", lit "ne");
    (lit "northwest", lit "nw"); (lit "southeast", lit "se");
    (lit "southwest", lit "sw") ].

Definition isPunct (c : ascii) : bool :=
  eqc c "."%char || eqc c ","%char || eqc c "#"%char.

Definition abbreviate (s : str) : str :=
  fold_left (fun acc wa => replaceAll (wholeWord (fst wa)) (snd wa) acc)
            abbreviations s.

(** [normalizeAddress(addr)]; [addr || ''] is the text itself. *)
Definition normalizeAddress (addr : str) : str :=
  abbreviate
    (replaceAll (plus isSpace) (lit " ")
       (replaceAll (class isPunct) []
          (trim (toLowerCase addr)))).

(** *** [fuzzyMatchScore]

    The array [costs] is a list; the source writes it at an index below its
    length or exactly at its length, which appends. *)

Definition arraySet (a : list nat) (i : nat) (v : nat) : list nat :=
  firstn i a ++ v :: skipn (S i) a.

(** The body of the inner loop, at row [i] and column [j]; the state is the
    array and [lastValue]. *)
Definition innerStep (s1 s2 : str) (i : nat) (st : list nat * nat) (j : nat)
    : list nat * nat :=
  let '(costs, lastValue) := st in
  if i =? 0 then (arraySet costs j j, lastValue)
  else if 0 <? j then
    let newValue := nth (j - 1) costs 0 in
    let newValue :=
      if negb (eqs (charAt s1 (i - 1)) (charAt s2 (j - 1)))
      then Nat.min (Nat.min newValue lastValue) (nth j costs 0) + 1
      else newValue in
    (arraySet costs (j - 1) lastValue, newValue)
  else (costs, lastValue).

(** The body of the outer loop. *)
Definition outerStep (s1 s2 : str) (costs : list nat) (i : nat) : list nat :=
  let '(costs', lastValue) :=
    fold_left (innerStep s1 s2 i) (seq 0 (S (length s2))) (costs, i) in
  if 0 <? i then arraySet costs' (length s2) lastValue else costs'.

(** [costs[s2.length]] after the two loops. *)
Definition editDistance (s1 s2 : str) : nat :=
  nth (length s2)
      (fold_left (outerStep s1 s2) (seq 0 (S (length s1))) []) 0.

Definition fuzzyMatchScore (str1 str2 : str) : float :=
  match str1, str2 with
  | [], _ | _, [] => 0%float
  | _, _ =>
      let s1 := trim (toLowerCase str1) in
      let s2 := trim (toLowerCase str2) in
      if eqs s1 s2 then 1%float
      else
        let longer := if length s2 <? length s1 then s1 else s2 in
        let shorter := if length s2 <? length s1 then s2 else s1 in
        if length longer =? 0 then 1%float
        else if includes longer shorter
        then (JsNumber.ofNat (length shorter) / JsNumber.ofNat (length longer))%float
        else (JsNumber.ofZ (Z.of_nat (length longer)
                            - Z.of_nat (editDistance s1 s2))
              / JsNumber.ofNat (length longer))%float
  end.

(** *** [getSalesforceMetadataByAddress]

    The rows of [Salesforce_rawData] as the query returns them.  A field that
    is [NULL] is [None]; [record.Name || ''] is the name itself. *)
Record CandidateRecord : Type := {
  Name : str;
  Year_Built__c : option str;
  Net_RSF__c : option str;
  ShippingAddress : option str
}.

Record Params : Type := {
  street : str;
  city : str;
  state : str;
  postalCode : str;
  storeName : option str
}.

Record ScoredMatch : Type := {
  matchName : str;
  matchYearBuilt : option str;
  matchNetRsf : option str;
  matchShippingAddress : option str;
  nameScore : float;
  addressScore : float;
  combinedScore : float;
  parsedStoreName : str;
  parsedAddress : str
}.

Definition separator : str := lit " - ".

(** The alternatives of [/(st|ave|rd|blvd|dr|way|lane|court)/i]. *)
Definition streetSuffixes : list str :=
  [lit "st"; lit "ave"; lit "rd"; lit "blvd"; lit "dr"; lit "way";
   lit "lane"; lit "court"].

(** "Check if it looks like an address". *)
Definition looksLikeAddress (potentialAddress : str) : bool :=
  test (plus isDigit) potentialAddress
  || test (anyOfIgnoreCase streetSuffixes) potentialAddress.

(** [sfStoreBrand] *)
Definition storeBrand (sfName : str) : str :=
  if includes sfName separator
  then trim (nth 0 (split sfName separator) [])
  else sfName.

(** The fallback of the street: the second part of the name. *)
Definition streetFromName (sfName : str) : str :=
  if includes sfName separator then
    let nameParts := split sfName separator in
    if 2 <=? length nameParts then
      let potentialAddress := trim (nth 1 nameParts []) in
      if looksLikeAddress potentialAddress then potentialAddress else []
    else []
  else [].

(** The [street] of the parsed address when the address and the street are
    both truthy, whatever kind of value the street is. *)
Definition shippingStreet (shippingAddress : option json) : option json :=
  match shippingAddress with
  | Some v =>
      if truthy v then
        match getMember v (lit "street") with
        | Some st => if truthy st then Some st else None
        | None => None
        end
      else None
  | None => None
  end.

(** [sfStreet] after the two branches. *)
Definition streetOf (shippingAddress : option json) (sfName : str) : json :=
  match shippingStreet shippingAddress with
  | Some st => st
  | None => JStr (streetFromName sfName)
  end.

Definition half : float := 0.5%float.

(** One turn of the loop over the records: [None] is a record passed over
    ([continue], or the relevance test failed). *)
Definition scoreRecord (targetStreet targetStoreName : str)
    (record : CandidateRecord) : outcome (option ScoredMatch) :=
  let sfName := Name record in
  let sfStoreBrand := storeBrand sfName in
  match parsePythonDict (ShippingAddress record) with
  | Return shippingAddress =>
      let sfStreet := streetOf shippingAddress sfName in
      if negb (truthy sfStreet) then Return None
      else
        let nameScoreFull := fuzzyMatchScore targetStoreName (toLowerCase sfName) in
        let nameScoreBrand :=
          fuzzyMatchScore targetStoreName (toLowerCase sfStoreBrand) in
        let nameScore := JsNumber.max nameScoreFull nameScoreBrand in
        match sfStreet with
        | JStr sfStreet =>
            let normalizedSfStreet := normalizeAddress sfStreet in
            let addressScore := fuzzyMatchScore targetStreet normalizedSfStreet in
            let combinedScore :=
              (nameScore * 0.4 + addressScore * 0.6)%float in
            if JsNumber.gt combinedScore 0.3%float || JsNumber.gt addressScore half
            then Return (Some {|
                   matchName := sfName;
                   matchYearBuilt := Year_Built__c record;
                   matchNetRsf := Net_RSF__c record;
                   matchShippingAddress := ShippingAddress record;
                   nameScore := nameScore;
                   addressScore := addressScore;
                   combinedScore := combinedScore;
                   parsedStoreName := sfStoreBrand;
                   parsedAddress := sfStreet |})
            else Return None
        | _ => TypeError
        end
  | TypeError => TypeError
  | Uncovered => Uncovered
  end.

(** The loop: [scoredMatches] in the order of the records. *)
Fixpoint scoreRecords (targetStreet targetStoreName : str)
    (results : list CandidateRecord) : outcome (list ScoredMatch) :=
  match results with
  | [] => Return []
  | record :: rest =>
      match scoreRecord targetStreet targetStoreName record with
      | Return scored =>
          match scoreRecords targetStreet targetStoreName rest with
          | Return scoredMatches =>
              Return match scored with
                     | Some m => m :: scoredMatches
                     | None => scoredMatches
                     end
          | TypeError => TypeError
          | Uncovered => Uncovered
          end
      | TypeError => TypeError
      | Uncovered => Uncovered
      end
  end.

(** [(a, b) => b.combinedScore - a.combinedScore] *)
Definition byCombinedScore (a b : ScoredMatch) : float :=
  (combinedScore b - combinedScore a)%float.

(** [Array.prototype.sort(comparefn)].  The sort is stable, and with a
    consistent [comparefn] its result is the one stable arrangement, which
    insertion from the right computes: an element goes behind the elements
    [y] for which [comparefn(x, y) > 0] and stops at the first other one. *)
Fixpoint insertBy (A : Type) (comparefn : A -> A -> float) (x : A) (l : list A)
    : list A :=
  match l with
  | [] => [x]
  | y :: t =>
      if JsNumber.gt (comparefn x y) 0%float
      then y :: insertBy comparefn x t
      else x :: l
  end.

Definition sort (A : Type) (comparefn : A -> A -> float) (l : list A) : list A :=
  fold_right (insertBy comparefn) [] l.

(** The function, on the rows the query [universalQuery('Sites', sql)]
    returned. *)
Definition getSalesforceMetadataByAddress (params : Params)
    (results : list CandidateRecord) : outcome (list ScoredMatch) :=
  match results with
  | [] => Return []
  | _ =>
      let targetStreet := normalizeAddress (street params) in
      let targetStoreName :=
        trim (toLowerCase match storeName params with
                          | Some n => n
                          | None => []
                          end) in
      match scoreRecords targetStreet targetStoreName results with
      | Return scoredMatches =>
          Return (firstn 10 (sort byCombinedScore scoredMatches))
      | TypeError => TypeError
      | Uncovered => Uncovered
      end
  end.

End DatabaseQuery.

Import DatabaseQuery.

(** ** [src/lib/api.ts] *)

Module Api.

(** [parseInt(text, 10)]: leading white space, a sign, then the longest run
    of digits; [None] is NaN.  The integer is kept exact: the source compares
    it with 1900 and 2030 and keeps it only between them, where the number
    [parseInt] returns is that integer. *)
Definition parseInt10 (text : str) : option Z :=
  let s := trimStart text in
  let '(neg, s) :=
    match s with
    | c :: t =>
        if eqc c "-"%char then (true, t)
        else if eqc c "+"%char then (false, t)
        else (false, s)
    | [] => (false, s)
    end in
  match Decimal.takeWhile isDigit s with
  | [] => None
  | ds => Some (cond_Zopp neg (Decimal.digitsToZ ds))
  end.

(** [parseFloat(text)]: leading white space, a sign, then [Infinity] or the
    longest decimal literal. *)
Definition parseFloat (text : str) : float :=
  let s := trimStart text in
  let '(neg, s) :=
    match s with
    | c :: t =>
        if eqc c "-"%char then (true, t)
        else if eqc c "+"%char then (false, t)
        else (false, s)
    | [] => (false, s)
    end in
  if startsWith (lit "Infinity") s
  then (if neg then PrimFloat.neg_infinity else PrimFloat.infinity)
  else
    let int := Decimal.takeWhile isDigit s in
    let s1 := Decimal.dropWhile isDigit s in
    let '(frac, s2) :=
      match s1 with
      | c :: t =>
          if eqc c "."%char
          then (Decimal.takeWhile isDigit t, Decimal.dropWhile isDigit t)
          else ([], s1)
      | [] => ([], s1)
      end in
    match int ++ frac with
    | [] => PrimFloat.nan
    | ds =>
        let e :=
          match Decimal.exponentPart s2 with
          | Some (e, _) => e
          | None => 0%Z
          end in
        Decimal.toFloat neg (Decimal.digitsToZ ds) (e - Z.of_nat (length frac))
    end.

Record Metadata : Type := {
  yearBuilt : option Z;
  squareFootage : option float;
  matched : bool;
  matchScore : float
}.

(** [parseInt(record.Year_Built__c, 10)] under its guards. *)
Definition sanitizeYearBuilt (raw : option str) : option Z :=
  match raw with
  | None | Some [] => None
  | Some text =>
      match parseInt10 text with
      | Some parsed =>
          if (1900 <=? parsed)%Z && (parsed <=? 2030)%Z then Some parsed else None
      | None => None
      end
  end.

(** [parseFloat(record.Net_RSF__c)] under its guards. *)
Definition sanitizeSquareFootage (raw : option str) : option float :=
  match raw with
  | None | Some [] => None
  | Some text =>
      let parsed := parseFloat text in
      if negb (PrimFloat.is_nan parsed) && JsNumber.gt parsed 0%float
      then Some parsed
      else None
  end.

(** The function behind the call of the edge function, on the matches the
    call returned in [data.data]; [None] is [null]. *)
Definition getSalesforceMetadataByAddress (results : list ScoredMatch)
    : option Metadata :=
  match results with
  | [] => None
  | record :: _ =>
      Some {| yearBuilt := sanitizeYearBuilt (matchYearBuilt record);
              squareFootage := sanitizeSquareFootage (matchNetRsf record);
              matched := true;
              matchScore := combinedScore record |}
  end.

End Api.

(** ** [supabase/functions/database-query/index.ts]: the queries *)

Module Queries.

(** [Array.isArray(v)] *)
Definition isArray (v : json) : bool :=
  match v with
  | JArr _ => true
  | _ => false
  end.

(** [v.key && Array.isArray(v.key)] for a value [v] that is not [null] and
    a key that is no index and not [length]: the array, if it is one. *)
Definition arrayMember (v : json) (key : str) : option json :=
  match getMember v key with
  | Some x => if truthy x && isArray x then Some x else None
  | None => None
  end.

(** [universalQuery], from the body of a response that is [ok] on: the
    rows are under [results], or are the body, or are under [data];
    otherwise the body is returned as it is.  Reading a property of [null]
    raises a [TypeError]. *)
Definition universalQuery (jsonResponse : json) : outcome json :=
  match jsonResponse with
  | JNull => TypeError
  | _ =>
      match arrayMember jsonResponse (lit "results") with
      | Some results => Return results
      | None =>
          if isArray jsonResponse then Return jsonResponse
          else
            match arrayMember jsonResponse (lit "data") with
            | Some data => Return data
            | None => Return jsonResponse
            end
      end
  end.

(** [const rows = rawResult.results || []] of the action
    [getTrailing12MonthRates]. *)
Definition rows (rawResult : json) : outcome json :=
  match rawResult with
  | JNull => TypeError
  | _ =>
      match getMember rawResult (lit "results") with
      | Some results => Return (if truthy results then results else JArr [])
      | None => Return (JArr [])
      end
  end.

Definition newline : str := ["010"%char].

(** [storeName.replace(/'/g, "''")] *)
Definition escapeQuotes (storeName : str) : str :=
  replaceAll (literal (lit "'")) (lit "''") storeName.

(** The text of the query of [getSalesforceByName] before and behind the
    store name. *)
Definition sqlBeforeName : str :=
  newline ++ lit "    SELECT TOP 5 Name, Year_Built__c, Net_RSF__c, ShippingAddress"
  ++ newline ++ lit "    FROM dbo.Salesforce_rawData"
  ++ newline ++ lit "    WHERE Name LIKE '%".

Definition sqlBehindName : str :=
  lit "%'"
  ++ newline ++ lit "      AND (Year_Built__c IS NOT NULL OR Net_RSF__c IS NOT NULL)"
  ++ newline ++ lit "  ".

(** [sql] of [getSalesforceByName] *)
Definition getSalesforceByNameSql (storeName : str) : str :=
  sqlBeforeName ++ escapeQuotes storeName ++ sqlBehindName.

End Queries.

(** ** [supabase/functions/stortrack-api/index.ts]: [fetchHistoricalData] *)

Module StorTrack.

(** What one [fetch] of the loop comes to: a response that is [ok], with
    the value [response.json()] resolves to ([None]: it rejects); a response
    that is not [ok], with its status and the text [response.text()]
    resolves to ([None]: it rejects); or a [fetch] that rejects. *)
Inductive response : Type :=
| Ok (result : option json)
| NotOk (status : nat) (errorText : option str)
| Rejected.

(** What is thrown: [new Error('Failed to authenticate with StorTrack API')],
    [new Error(`StorTrack API error: ${response.status}`)],
    [new Error('Max retries exceeded')], or what a rejected promise of the
    environment carries. *)
Inductive error : Type :=
| NotAuthenticated
| ApiError (status : nat)
| MaxRetriesExceeded
| Environment.

Inductive completion : Type :=
| Returned (data : json)
| Thrown (e : error).

(** [Array.isArray(result) ? result : [result]] *)
Definition asArray (result : json) : json :=
  match result with
  | JArr _ => result
  | _ => JArr [result]
  end.

(** The loop from [attempt] on, with [remaining] turns to go; [answers n]
    is what the [fetch] of turn [n] comes to, and [waits] lists the delays
    of [setTimeout] so far, in milliseconds. *)
Fixpoint attempts (answers : nat -> response) (maxRetries attempt remaining : nat)
    (waits : list N) : completion * list N :=
  match remaining with
  | O => (Thrown MaxRetriesExceeded, waits)
  | S remaining' =>
      let next (delay : N) :=
        attempts answers maxRetries (S attempt) remaining' (waits ++ [delay]) in
      let caught (e : error) :=
        if attempt =? maxRetries - 1 then (Thrown e, waits)
        else next (2000 * N.of_nat (attempt + 1))%N in
      match answers attempt with
      | Ok (Some result) => (Returned (asArray result), waits)
      | Ok None => caught Environment
      | NotOk status errorText =>
          if status =? 429 then next 60000%N
          else if existsb (Nat.eqb status) [500; 503; 404]
                  && (attempt <? maxRetries - 1)
          then next (5000 * N.of_nat (attempt + 1))%N
          else match errorText with
               | Some _ => caught (ApiError status)
               | None => caught Environment
               end
      | Rejected => caught Environment
      end
  end.

(** [fetchHistoricalData(params, maxRetries)], with the token [getAuthToken]
    resolved to. *)
Definition fetchHistoricalData (token : option str) (answers : nat -> response)
    (maxRetries : nat) : completion * list N :=
  match token with
  | None | Some [] => (Thrown NotAuthenticated, [])
  | Some _ => attempts answers maxRetries 0 maxRetries []
  end.

End StorTrack.

(** * The vocabulary of the properties *)

Import JsString Regex JsNumber Decimal Json DatabaseQuery.

(** ** Binary64 values and their rounding *)

Module Binary64.
Local Open Scope Z_scope.

Definition fx (e : Z) : Z := fexp prec emax e.

(** The shape of a rounded value. *)
Inductive rounded (s : bool) (m e : Z) (l : location) : spec_float -> Prop :=
| Rounded (m1 m2 m3 e1 e2 : Z) :
    e1 = Z.max e (fx (Zdigits2 m + e)) ->
    m1 = m / 2 ^ (e1 - e) ->
    m1 <= m2 <= m1 + 1 ->
    (e1 = e -> m2 = round_nearest_even m l) ->
    e2 = Z.max e1 (fx (Zdigits2 m2 + e1)) ->
    m3 = m2 / 2 ^ (e2 - e1) ->
    rounded s m e l
      match m3 with
      | Z0 => S754_zero s
      | Zpos p => if e2 <=? emax - prec then S754_finite s p e2 else S754_infinity s
      | Zneg _ => S754_nan
      end.

Definition SFone64 : spec_float := S754_finite false 4503599627370496 (-52).

(** Numbers that are neither NaN nor negative. *)
Definition nonnegSF (x : spec_float) : bool :=
  match x with
  | S754_zero _ => true
  | S754_finite s _ _ => negb s
  | S754_infinity s => negb s
  | S754_nan => false
  end.

Definition finiteSF (x : spec_float) : bool :=
  match x with
  | S754_zero _ => true
  | S754_finite s _ _ => negb s
  | _ => false
  end.

(** *** Numbers of the source *)

Definition inUnit (x : float) : bool := (0 <=? x)%float && (x <=? 1)%float.

End Binary64.
Import Binary64.

(** ** The edit distance as a recurrence *)

(** The Wagner-Fischer recurrence: [levenshteinPrefix s1 s2 i j] is the
    distance between the first [i] characters of [s1] and the first [j] of [s2]. *)
Fixpoint levenshteinPrefix (s1 s2 : str) (i : nat) : nat -> nat :=
  match i with
  | O => fun j => j
  | S i' =>
      fix row (j : nat) : nat :=
        match j with
        | O => S i'
        | S j' =>
            if eqs (charAt s1 i') (charAt s2 j')
            then levenshteinPrefix s1 s2 i' j'
            else S (Nat.min (Nat.min (levenshteinPrefix s1 s2 i' j') (row j'))
                            (levenshteinPrefix s1 s2 i' (S j')))
        end
  end.

Definition levenshtein (s1 s2 : str) : nat :=
  levenshteinPrefix s1 s2 (length s1) (length s2).

(** The row of costs while the inner loop is [j] columns in: the new row up
    to column [j - 2], the old row from column [j - 1] on. *)
Definition mixed (s1 s2 : str) (i j : nat) : list nat :=
  map (fun k => if S k <? j then levenshteinPrefix s1 s2 (S i) k
                else levenshteinPrefix s1 s2 i k)
      (seq 0 (S (length s2))).

(** ** Words and separators *)

Inductive token : Type :=
| Word (w : str)
| Sep (c : ascii).

(** The maximal runs of word characters of a text, and the characters
    between them. *)
Fixpoint tokens (s : str) : list token :=
  match s with
  | [] => []
  | c :: t =>
      if isWordChar c then
        match tokens t with
        | Word w :: r => Word (c :: w) :: r
        | r => Word [c] :: r
        end
      else Sep c :: tokens t
  end.

Definition spell (t : token) : str :=
  match t with
  | Word w => w
  | Sep c => [c]
  end.

Definition untokens (l : list token) : str := flat_map spell l.

Definition isWord (w : str) : bool :=
  negb (eqs w []) && forallb isWordChar w.

(** Tokens as [tokens] produces them: words are non-empty runs of word
    characters, separators are other characters, no two words are adjacent. *)
Fixpoint wellFormed (l : list token) : bool :=
  match l with
  | [] => true
  | Word w :: r =>
      isWord w && match r with Word _ :: _ => false | _ => true end && wellFormed r
  | Sep c :: r => negb (isWordChar c) && wellFormed r
  end.

(** ** Whole-word replacement, word by word *)

Definition substitute (w a : str) (t : token) : token :=
  match t with
  | Word x => if eqs x w then Word a else Word x
  | Sep c => Sep c
  end.

(** ** Collapsing white space *)

Definition headIsSpace (s : str) : bool :=
  match s with
  | c :: _ => isSpace c
  | [] => false
  end.

(** Every white-space character is a space followed by none. *)
Fixpoint spaced (s : str) : bool :=
  match s with
  | [] => true
  | c :: t =>
      (if isSpace c then eqc c " "%char && negb (headIsSpace t) else true) && spaced t
  end.

(** The same on tokens. *)
Definition headSepSpace (l : list token) : bool :=
  match l with
  | Sep d :: _ => isSpace d
  | _ => false
  end.

Fixpoint spacedTokens (l : list token) : bool :=
  match l with
  | [] => true
  | Sep c :: r =>
      (if isSpace c then eqc c " "%char && negb (headSepSpace r) else true)
      && spacedTokens r
  | Word _ :: r => spacedTokens r
  end.

(** ** The abbreviations, word by word *)

Definition substituteAll (l : list (str * str)) (t : token) : token :=
  fold_left (fun t wa => substitute (fst wa) (snd wa) t) l t.

Definition replaceWords (l : list (str * str)) (s : str) : str :=
  fold_left (fun acc wa => replaceAll (wholeWord (fst wa)) (snd wa) acc) l s.

(** No word of the list. *)
Definition unlisted (l : list (str * str)) (x : str) : bool :=
  forallb (fun wa => negb (eqs x (fst wa))) l.

Definition unlistedToken (l : list (str * str)) (t : token) : bool :=
  match t with
  | Word x => unlisted l x
  | Sep _ => true
  end.

(** The lists this holds for: words are replaced by words, and what replaces
    a word is no word of the list. *)
Definition sound (l : list (str * str)) : bool :=
  forallb (fun wa => isWord (fst wa) && isWord (snd wa) && unlisted l (snd wa)) l.

Local Open Scope nat_scope.

(** ** Sizes and scores *)

(** A string of the engine: at most 2^53 - 1 characters. *)
Definition jsString (s : str) : Prop := (Z.of_nat (length s) < 2 ^ 53)%Z.

(** The two strings of [fuzzyMatchScore] after [toLowerCase().trim()], the
    longer first. *)
Definition longerOf (s1 s2 : str) : str := if length s2 <? length s1 then s1 else s2.

Definition shorterOf (s1 s2 : str) : str := if length s2 <? length s1 then s2 else s1.

(** The score once both arguments are known not to be empty. *)
Definition scoreOf (s1 s2 : str) : float :=
  if eqs s1 s2 then 1%float
  else if length (longerOf s1 s2) =? 0 then 1%float
  else if includes (longerOf s1 s2) (shorterOf s1 s2)
  then (ofNat (length (shorterOf s1 s2)) / ofNat (length (longerOf s1 s2)))%float
  else (ofZ (Z.of_nat (length (longerOf s1 s2)) - Z.of_nat (editDistance s1 s2))
        / ofNat (length (longerOf s1 s2)))%float.

(** The strings that are a parsed value or the members of a parsed object
    are no longer than [b]. *)
Definition memberWithin (b : nat) (kv : str * json) : Prop :=
  match snd kv with
  | JStr x => length x <= b
  | _ => True
  end.

Definition within (b : nat) (v : json) : Prop :=
  match v with
  | JStr x => length x <= b
  | JObj ms => Forall (memberWithin b) ms
  | _ => True
  end.

(** ** Ranking *)

(** The query as the loop sees it. *)
Definition targetStreetOf (params : Params) : str := normalizeAddress (street params).

Definition targetStoreNameOf (params : Params) : str :=
  trim (toLowerCase match storeName params with Some n => n | None => [] end).

(** The record a match was made from. *)
Definition recordOf (m : ScoredMatch) : CandidateRecord :=
  {| Name := matchName m;
     Year_Built__c := matchYearBuilt m;
     Net_RSF__c := matchNetRsf m;
     ShippingAddress := matchShippingAddress m |}.

(** The matches of a record: one or none. *)
Definition keptOf (ts tn : str) (record : CandidateRecord) : list ScoredMatch :=
  match scoreRecord ts tn record with
  | Return (Some m) => [m]
  | _ => []
  end.

Definition descending (a b : ScoredMatch) : Prop :=
  JsNumber.ge (combinedScore a) (combinedScore b) = true.

Definition tie (c : float) (m : ScoredMatch) : bool := (combinedScore m =? c)%float.

Definition sizedParams (params : Params) : Prop :=
  jsString (street params) /\
  jsString match storeName params with Some n => n | None => [] end.

Definition sizedRecord (record : CandidateRecord) : Prop :=
  jsString (Name record) /\
  match ShippingAddress record with Some text => jsString text | None => True end.

Definition ordered (m : ScoredMatch) : Prop :=
  nonnegSF (Prim2SF (combinedScore m)) = true.

(** ** Records and queries of the examples *)

(** The part of a name after the separator, and the two tests the source
    makes on it. *)
Definition partAfterSeparator (sfName : str) : str :=
  trim (nth 1 (split sfName separator) []).

Definition hasDigit (s : str) : bool := existsb isDigit s.

Definition hasStreetSuffix (s : str) : bool :=
  existsb (fun w => includes (toLowerCase s) w) streetSuffixes.

Definition acmeRecord (yearBuilt netRsf : option str) : CandidateRecord :=
  {| Name := lit "Acme Storage - 456 Oak Ave";
     Year_Built__c := yearBuilt; Net_RSF__c := netRsf; ShippingAddress := None |}.

Definition acmeQuery (city state postalCode : str) : Params :=
  {| street := lit "456 Oak Avenue"; city := city; state := state;
     postalCode := postalCode; storeName := Some (lit "Acme") |}.

Definition acmeMatch : ScoredMatch :=
  {| matchName := lit "Acme Storage - 456 Oak Ave";
     matchYearBuilt := None; matchNetRsf := None; matchShippingAddress := None;
     nameScore := 0.33333333333333331%float;
     addressScore := 1%float;
     combinedScore := 0.73333333333333328%float;
     parsedStoreName := lit "Acme Storage";
     parsedAddress := lit "456 Oak Ave" |}.

(** Three records for one query: the first and the third score the same. *)
Definition tiedRecords : list CandidateRecord :=
  [ acmeRecord (Some (lit "1999")) None;
    {| Name := lit "Acme - 456 Oak Avenue";
       Year_Built__c := None; Net_RSF__c := None; ShippingAddress := None |};
    acmeRecord (Some (lit "2005")) None ].

Definition downtownRecord : CandidateRecord :=
  {| Name := lit "Acme Storage - Downtown";
     Year_Built__c := None; Net_RSF__c := None; ShippingAddress := None |}.

(** A record whose second part, one word, has [st] inside it, a query for
    its brand, and the match the ranking makes of the two. *)
Definition westsideRecord : CandidateRecord :=
  {| Name := lit "Acme Storage - Westside";
     Year_Built__c := None; Net_RSF__c := None; ShippingAddress := None |}.

Definition storageQuery : Params :=
  {| street := lit "456 Oak Avenue"; city := []; state := [];
     postalCode := []; storeName := Some (lit "Acme Storage") |}.

Definition westsideMatch : ScoredMatch :=
  {| matchName := lit "Acme Storage - Westside";
     matchYearBuilt := None; matchNetRsf := None; matchShippingAddress := None;
     nameScore := 1%float;
     addressScore := 0.090909090909090912%float;
     combinedScore := 0.45454545454545459%float;
     parsedStoreName := lit "Acme Storage";
     parsedAddress := lit "Westside" |}.

Definition pineText : str := lit "{'street': '789 Pine Rd', 'city': 'Metro'}".

Definition pineRecord (yearBuilt netRsf : option str) : CandidateRecord :=
  {| Name := lit "X"; Year_Built__c := yearBuilt; Net_RSF__c := netRsf;
     ShippingAddress := Some pineText |}.

Definition pineQuery : Params :=
  {| street := lit "789 Pine Road"; city := []; state := [];
     postalCode := []; storeName := None |}.

(** ** The normal form of addresses, word by word *)

(** A token that is the word [w]. *)
Definition isTheWord (w : str) (t : token) : bool :=
  match t with
  | Word x => eqs x w
  | Sep _ => false
  end.

(** The abbreviation of a word: the first entry of the table that has the
    word as its long form, or the word itself. *)
Definition abbreviationOf (x : str) : str :=
  match find (fun wa => eqs x (fst wa)) abbreviations with
  | Some wa => snd wa
  | None => x
  end.

Definition abbreviateToken (t : token) : token :=
  match t with
  | Word x => Word (abbreviationOf x)
  | Sep c => Sep c
  end.

(** A text in normal form: lower case, no punctuation of the stripped class,
    white space only as single spaces and not at either end, and no word that
    is a long form of the table. *)
Definition normalForm (x : str) : Prop :=
  Forall (fun c => lowerChar c = c) x
  /\ Forall (fun c => isPunct c = false) x
  /\ spaced x = true
  /\ trim x = x
  /\ Forall (fun t => unlistedToken abbreviations t = true) (tokens x).

(** ** Records the ranking can read *)

(** The street of the parsed shipping address, when there is one, is a
    text. *)
Definition streetIsText (record : CandidateRecord) : bool :=
  match parsePythonDict (ShippingAddress record) with
  | Return sa =>
      match shippingStreet sa with
      | Some (JStr _) | None => true
      | Some _ => false
      end
  | _ => true
  end.

(** The shipping address is none of the texts the embedding of [JSON.parse]
    leaves out. *)
Definition covered (record : CandidateRecord) : Prop :=
  parsePythonDict (ShippingAddress record) <> Uncovered.

(** No two matches of the list have the same combined score. *)
Definition tieFree (l : list ScoredMatch) : Prop :=
  forall c, length (filter (tie c) l) <= 1.

(** ** String literals of Transact-SQL *)

(** The text of a string literal, read from behind its opening quote: two
    quotes stand for one, a single quote ends the literal.  The value and
    the text behind the closing quote. *)
Fixpoint readSqlString (s : str) : option (str * str) :=
  match s with
  | [] => None
  | c :: t =>
      if eqc c "'"%char then
        match t with
        | d :: t' =>
            if eqc d "'"%char
            then match readSqlString t' with
                 | Some (v, r) => Some (c :: v, r)
                 | None => None
                 end
            else Some ([], t)
        | [] => Some ([], [])
        end
      else match readSqlString t with
           | Some (v, r) => Some (c :: v, r)
           | None => None
           end
  end.

(** ** Answers of the StorTrack service *)

(** An answer the loop of [fetchHistoricalData] returns from. *)
Definition succeeded (r : StorTrack.response) : bool :=
  match r with
  | StorTrack.Ok (Some _) => true
  | _ => false
  end.

(** An answer with the status 429. *)
Definition rateLimited (r : StorTrack.response) : bool :=
  match r with
  | StorTrack.NotOk status _ => status =? 429
  | _ => false
  end.

(** ** Further records and answers of the examples *)

(** A record whose street is a number. *)
Definition numberedRecord : CandidateRecord :=
  {| Name := lit "Acme Storage - 456 Oak Ave";
     Year_Built__c := None; Net_RSF__c := None;
     ShippingAddress := Some (lit "{'street': 456}") |}.

(** Two records that score differently for the Acme query. *)
Definition rankedRecords : list CandidateRecord :=
  [ acmeRecord None None;
    {| Name := lit "Acme - 456 Oak Avenue";
       Year_Built__c := None; Net_RSF__c := None; ShippingAddress := None |} ].

(** Twelve records of one brand, each with a street in its shipping
    address; for [storageQuery] all twelve are kept. *)
Definition streetRecord (street : str) : CandidateRecord :=
  {| Name := lit "Acme Storage"; Year_Built__c := None; Net_RSF__c := None;
     ShippingAddress := Some (lit "{'street': '" ++ street ++ lit "'}") |}.

Definition twelveRecords : list CandidateRecord :=
  map streetRecord
    [ lit "1 Elm St"; lit "456 Oak Ave"; lit "456 Oak"; lit "45 Oak Ave";
      lit "9 Pine Rd"; lit "456 Oak Avenue"; lit "456 Oak Street";
      lit "12 Main St"; lit "456 Oak Ave Suite 2"; lit "77 Sunset Blvd";
      lit "456 Elm Ave"; lit "3 Lake Dr" ].

(** A response in the format [{ results: [...], row_count: N }]. *)
Definition rowsResponse : json :=
  JObj [ (lit "results", JArr [JObj [(lit "Store_ID", JNum 7%float)]]);
         (lit "row_count", JNum 1%float) ].

(** A service that fails twice and then answers; one that is always busy. *)
Definition thirdTime (n : nat) : StorTrack.response :=
  match n with
  | 0 => StorTrack.NotOk 500 (Some [])
  | 1 => StorTrack.Rejected
  | _ => StorTrack.Ok (Some (JObj []))
  end.

Definition alwaysBusy (n : nat) : StorTrack.response := StorTrack.NotOk 429 (Some []).

(** * Rounding of binary64 arithmetic *)

Module FloatFacts.
Local Open Scope Z_scope.

Lemma fx_eq e : fx e = Z.max (e - 53) (-1074).
Proof. reflexivity. Qed.

Lemma digits_size p : digits2_pos p = Pos.size p.
Proof. induction p; simpl; congruence. Qed.

Lemma digits_lower p : 2 ^ (Zpos (digits2_pos p) - 1) <= Zpos p.
Proof.
  rewrite digits_size.
  pose proof (Pos.size_le p) as H.
  assert (Hz : (2 ^ Zpos (Pos.size p) <= 2 * Zpos p)).
  { change 2 with (Zpos 2) at 1. rewrite <- Pos2Z.inj_pow. 
    change (2 * Zpos p) with (Zpos (p~0)). apply Pos2Z.pos_le_pos. exact H. }
  replace (Zpos (Pos.size p)) with (Z.succ (Zpos (Pos.size p) - 1)) in Hz by lia.
  rewrite Z.pow_succ_r in Hz by lia. lia.
Qed.

Lemma digits_upper p : Zpos p < 2 ^ Zpos (digits2_pos p).
Proof.
  rewrite digits_size.
  pose proof (Pos.size_gt p) as H.
  change 2 with (Zpos 2). rewrite <- Pos2Z.inj_pow. apply Pos2Z.pos_lt_pos. exact H.
Qed.

Lemma Zdigits2_pos_bounds m : 0 < m ->
  0 < Zdigits2 m /\ 2 ^ (Zdigits2 m - 1) <= m < 2 ^ Zdigits2 m.
Proof.
  destruct m as [|p|p]; try lia. intros _. simpl.
  split; [lia|]. split; [apply digits_lower | apply digits_upper].
Qed.

(** The number of binary digits of a number between two powers of 2. *)
Lemma Zdigits2_unique m d : 0 < d -> 2 ^ (d - 1) <= m < 2 ^ d -> Zdigits2 m = d.
Proof.
  intros Hd [Hl Hu].
  assert (Hm : 0 < m). { pose proof (Z.pow_pos_nonneg 2 (d-1)). lia. }
  destruct (Zdigits2_pos_bounds Hm) as (Hd' & Hl' & Hu').
  destruct (Z.lt_trichotomy (Zdigits2 m) d) as [H|[H|H]]; auto.
  - assert (2 ^ Zdigits2 m <= 2 ^ (d - 1)) by (apply Z.pow_le_mono_r; lia). lia.
  - assert (2 ^ d <= 2 ^ (Zdigits2 m - 1)) by (apply Z.pow_le_mono_r; lia). lia.
Qed.

Lemma Zdigits2_le_of_lt m d : 0 <= d -> 0 <= m < 2 ^ d -> Zdigits2 m <= d.
Proof.
  intros Hd [Hl Hu].
  destruct (Z.eq_dec m 0) as [->|Hn]; [simpl; lia|].
  assert (Hm : 0 < m) by lia.
  destruct (Zdigits2_pos_bounds Hm) as (Hd' & Hl' & Hu').
  destruct (Z_le_gt_dec (Zdigits2 m) d); auto.
  assert (2 ^ d <= 2 ^ (Zdigits2 m - 1)) by (apply Z.pow_le_mono_r; lia). lia.
Qed.

(** Shifting a mantissa to the right, one binary digit at a time. *)
Lemma shr_1_m mrs : 0 <= shr_m mrs -> shr_m (shr_1 mrs) = Z.div2 (shr_m mrs).
Proof.
  destruct mrs as [m r s]. simpl. destruct m as [|[p|p|]|p]; simpl; intros; try reflexivity; lia.
Qed.

Lemma iter_shr_1_m p : forall mrs, 0 <= shr_m mrs ->
  shr_m (iter_pos shr_1 p mrs) = Z.shiftr (shr_m mrs) (Zpos p).
Proof.
  induction p as [p IH|p IH|]; intros mrs Hm; simpl iter_pos.
  - assert (H1 : 0 <= shr_m (shr_1 mrs)).
    { rewrite shr_1_m by auto. rewrite Z.div2_div. apply Z.div_pos; lia. }
    rewrite IH.
    + rewrite IH by auto. rewrite shr_1_m by auto.
      rewrite Z.div2_spec. rewrite !Z.shiftr_shiftr by lia. f_equal. lia.
    + rewrite IH by auto. apply Z.shiftr_nonneg. auto.
  - rewrite IH.
    + rewrite IH by auto. rewrite !Z.shiftr_shiftr by lia. f_equal. lia.
    + rewrite IH by auto. apply Z.shiftr_nonneg. auto.
  - rewrite shr_1_m by auto. rewrite Z.div2_spec. reflexivity.
Qed.

Lemma shr_record_of_loc_m m l : shr_m (shr_record_of_loc m l) = m.
Proof. destruct l as [|[]]; reflexivity. Qed.

Lemma loc_of_shr_record_of_loc m l : loc_of_shr_record (shr_record_of_loc m l) = l.
Proof. destruct l as [|[]]; reflexivity. Qed.

(** The exponent and mantissa [shr_fexp] comes to. *)
Lemma shr_fexp_spec m e l : 0 <= m ->
  let e1 := Z.max e (fx (Zdigits2 m + e)) in
  snd (shr_fexp prec emax m e l) = e1 /\
  shr_m (fst (shr_fexp prec emax m e l)) = m / 2 ^ (e1 - e) /\
  (e1 = e -> fst (shr_fexp prec emax m e l) = shr_record_of_loc m l).
Proof.
  intros Hm e1. unfold shr_fexp, shr. fold (fx (Zdigits2 m + e)).
  destruct (fx (Zdigits2 m + e) - e) as [|p|p] eqn:E; simpl.
  - assert (e1 = e) by lia. rewrite H. rewrite Z.sub_diag. simpl.
    rewrite Z.div_1_r. rewrite shr_record_of_loc_m. auto.
  - assert (e1 - e = Zpos p) by lia. rewrite H. 
    split; [lia|]. split.
    + rewrite iter_shr_1_m by (rewrite shr_record_of_loc_m; auto).
      rewrite shr_record_of_loc_m. rewrite Z.shiftr_div_pow2 by lia. reflexivity.
    + intros. lia.
  - assert (e1 = e) by lia. rewrite H. rewrite Z.sub_diag. simpl.
    rewrite Z.div_1_r. rewrite shr_record_of_loc_m. auto.
Qed.

Lemma round_nearest_even_bounds m l :
  m <= round_nearest_even m l <= m + 1.
Proof. destruct l as [|[]]; simpl; try lia. destruct (Z.even m); lia. Qed.

Lemma binary_round_aux_rounded s m e l : 0 <= m ->
  rounded s m e l (binary_round_aux prec emax s m e l).
Proof.
  intros Hm. unfold binary_round_aux.
  destruct (shr_fexp_spec e l Hm) as (He1 & Hm1 & Hex).
  destruct (shr_fexp prec emax m e l) as [mrs' e1] eqn:E1. simpl in He1, Hm1, Hex.
  set (m2 := round_nearest_even (shr_m mrs') (loc_of_shr_record mrs')).
  assert (Hm1nn : 0 <= shr_m mrs').
  { rewrite Hm1. apply Z.div_pos; auto. apply Z.pow_pos_nonneg; lia. }
  assert (Hm2 : shr_m mrs' <= m2 <= shr_m mrs' + 1) by apply round_nearest_even_bounds.
  assert (Hm2nn : 0 <= m2) by lia.
  destruct (shr_fexp_spec e1 loc_Exact Hm2nn) as (He2 & Hm3 & _).
  destruct (shr_fexp prec emax m2 e1 loc_Exact) as [mrs'' e2] eqn:E2. simpl in He2, Hm3.
  rewrite Hm3.
  eapply Rounded with (m1 := shr_m mrs') (m2 := m2) (e1 := e1) (e2 := e2); eauto.
  - congruence.
  - intros Heq. unfold m2. rewrite Hex by congruence.
    rewrite shr_record_of_loc_m, loc_of_shr_record_of_loc. reflexivity.
  - congruence.
Qed.

Lemma rounded_nonneg s m e l r : 0 <= m -> rounded s m e l r ->
  r = S754_zero s \/ r = S754_infinity s \/ exists p e', r = S754_finite s p e'.
Proof.
  intros Hm H. destruct H as [m1 m2 m3 e1 e2 He1 Hm1 Hm2 _ He2 Hm3].
  assert (0 <= m1).
  { subst m1. apply Z.div_pos; auto. apply Z.pow_pos_nonneg; lia. }
  assert (0 <= m3).
  { subst m3. apply Z.div_pos; [lia|]. apply Z.pow_pos_nonneg; lia. }
  destruct m3 as [|p|p]; [auto| |lia].
  destruct (e2 <=? emax - prec); eauto.
Qed.

(** A canonical mantissa given exactly is left as it is. *)
Lemma rounded_exact s m e r : 0 < m ->
  fx (Zdigits2 m + e) <= e -> e <= emax - prec ->
  rounded s m e loc_Exact r -> r = S754_finite s (Z.to_pos m) e.
Proof.
  intros Hm Hc Hb H. destruct H as [m1 m2 m3 e1 e2 He1 Hm1 Hm2 Hex He2 Hm3].
  assert (E1 : e1 = e) by lia.
  assert (M1 : m1 = m). { subst m1. rewrite E1, Z.sub_diag. apply Z.div_1_r. }
  assert (M2 : m2 = m). { rewrite Hex by auto. reflexivity. }
  assert (E2 : e2 = e). { rewrite He2, M2, E1. lia. }
  assert (M3 : m3 = m). { subst m3. rewrite E2, E1, Z.sub_diag, M2. apply Z.div_1_r. }
  rewrite M3, E2. destruct m as [|p|p]; try lia.
  apply Z.leb_le in Hb. rewrite Hb. reflexivity.
Qed.

Lemma iter_xO mx d : Zpos (Pos.iter xO mx d) = Zpos mx * 2 ^ Zpos d.
Proof.
  induction d as [|d IH] using Pos.peano_ind.
  - simpl. lia.
  - rewrite Pos.iter_succ. rewrite Pos2Z.inj_xO, IH.
    rewrite Pos2Z.inj_succ. rewrite Z.pow_succ_r by lia. lia.
Qed.

Lemma shl_align_spec mx ex ex' :
  snd (shl_align mx ex ex') = Z.min ex ex' /\
  Zpos (fst (shl_align mx ex ex')) = Zpos mx * 2 ^ (ex - Z.min ex ex').
Proof.
  unfold shl_align. destruct (ex' - ex) as [|p|p] eqn:E; cbn [fst snd].
  - replace (Z.min ex ex') with ex by lia. rewrite Z.sub_diag, Z.pow_0_r, Z.mul_1_r. auto.
  - replace (Z.min ex ex') with ex by lia. rewrite Z.sub_diag, Z.pow_0_r, Z.mul_1_r. auto.
  - replace (Z.min ex ex') with ex' by lia. split; auto.
    rewrite iter_xO. f_equal. f_equal. lia.
Qed.

Lemma binary_round_rounded s mx ex :
  let ez := Z.min ex (fx (Zpos (digits2_pos mx) + ex)) in
  rounded s (Zpos mx * 2 ^ (ex - ez)) ez loc_Exact (binary_round prec emax s mx ex).
Proof.
  intros ez. unfold binary_round.
  destruct (shl_align_spec mx ex (fexp prec emax (Zpos (digits2_pos mx) + ex))) as [H1 H2].
  destruct (shl_align mx ex (fexp prec emax (Zpos (digits2_pos mx) + ex))) as [mz ez'].
  cbn [fst snd] in H1, H2. fold (fx (Zpos (digits2_pos mx) + ex)) in H1, H2. fold ez in H1, H2.
  rewrite <- H2, H1. apply binary_round_aux_rounded. lia.
Qed.

Lemma Zdigits2_mul_pow2 m k : 0 < m -> 0 <= k -> Zdigits2 (m * 2 ^ k) = Zdigits2 m + k.
Proof.
  intros Hm Hk. destruct (Zdigits2_pos_bounds Hm) as (Hd & Hl & Hu).
  apply Zdigits2_unique; [lia|].
  replace (Zdigits2 m + k - 1) with ((Zdigits2 m - 1) + k) by lia.
  rewrite !Z.pow_add_r by lia.
  assert (0 < 2 ^ k) by (apply Z.pow_pos_nonneg; lia).
  split; nia.
Qed.

(** An integer below 2^53 is a number. *)
Lemma of_int_exact n : 0 < n < 2 ^ 53 ->
  exists m e, Prim2SF (of_uint63 (Uint63.of_Z n)) = S754_finite false m e /\
    Zpos m = n * 2 ^ (- e) /\ -52 <= e <= 0 /\ Zpos (digits2_pos m) = 53.
Proof.
  intros [Hn Hlt]. rewrite of_uint63_spec.
  rewrite Uint63.of_Z_spec. rewrite Z.mod_small by (change wB with (2 ^ 63); split; [lia|]; 
    apply Z.lt_trans with (2 ^ 53); [auto|reflexivity]).
  destruct n as [|p|p]; try lia. simpl binary_normalize.
  pose proof (binary_round_rounded false p 0) as R. cbv zeta in R.
  pose proof (@Zdigits2_pos_bounds (Zpos p) Hn) as (Hd & Hl & Hu).
  change (Zdigits2 (Zpos p)) with (Zpos (digits2_pos p)) in *.
  set (d := Zpos (digits2_pos p)) in *.
  assert (Hd53 : d <= 53).
  { destruct (Z_le_gt_dec d 53); auto.
    assert (2 ^ 53 <= 2 ^ (d - 1)) by (apply Z.pow_le_mono_r; lia). lia. }
  rewrite Z.add_0_r in R. rewrite fx_eq in R.
  replace (Z.min 0 (Z.max (d - 53) (-1074))) with (d - 53) in R by lia.
  replace (0 - (d - 53)) with (53 - d) in R by lia.
  assert (Hpos : 0 < Zpos p * 2 ^ (53 - d)).
  { apply Z.mul_pos_pos; [lia|]. apply Z.pow_pos_nonneg; lia. }
  assert (Hdig : Zdigits2 (Zpos p * 2 ^ (53 - d)) = 53).
  { rewrite Zdigits2_mul_pow2 by lia. change (Zdigits2 (Zpos p)) with d. lia. }
  apply rounded_exact in R; auto.
  - rewrite R. eexists _, _. split; [reflexivity|].
    rewrite Z2Pos.id by auto. replace (- (d - 53)) with (53 - d) by lia.
    split; [reflexivity|]. split; [lia|].
    destruct (Zpos p * 2 ^ (53 - d)) as [|q|q] eqn:E; try lia. simpl in Hdig. simpl. exact Hdig.
  - rewrite Hdig, fx_eq. lia.
  - change (emax - prec) with 971. lia.
Qed.

Lemma of_int_zero : Prim2SF (of_uint63 (Uint63.of_Z 0)) = S754_zero false.
Proof. reflexivity. Qed.

(** A value below one is rounded to one at most. *)
Lemma rounded_le_one s m e l r : 0 <= m -> e <= 0 -> m < 2 ^ (- e) ->
  rounded s m e l r ->
  r = S754_zero s \/
  exists p e2, r = S754_finite s p e2 /\ e2 <= 0 /\ Zpos p <= 2 ^ (- e2).
Proof.
  intros Hm He Hlt H. destruct H as [m1 m2 m3 e1 e2 He1 Hm1 Hm2 _ He2 Hm3].
  assert (Hdm : Zdigits2 m <= - e) by (apply Zdigits2_le_of_lt; lia).
  assert (E1 : e <= e1 <= 0) by (rewrite He1, fx_eq; lia).
  assert (P1 : 0 < 2 ^ (e1 - e)) by (apply Z.pow_pos_nonneg; lia).
  assert (M1 : 0 <= m1 < 2 ^ (- e1)).
  { subst m1. split; [apply Z.div_pos; lia|].
    apply Z.div_lt_upper_bound; [lia|].
    rewrite <- Z.pow_add_r by lia. replace (e1 - e + - e1) with (- e) by lia. lia. }
  assert (M2 : 0 <= m2 <= 2 ^ (- e1)) by lia.
  assert (Hdm2 : Zdigits2 m2 <= - e1 + 1).
  { apply Zdigits2_le_of_lt; [lia|]. rewrite Z.pow_add_r by lia. simpl (2 ^ 1). lia. }
  assert (E2 : e1 <= e2 <= 0) by (rewrite He2, fx_eq; lia).
  assert (P2 : 0 < 2 ^ (e2 - e1)) by (apply Z.pow_pos_nonneg; lia).
  assert (M3 : 0 <= m3 <= 2 ^ (- e2)).
  { subst m3. split; [apply Z.div_pos; lia|].
    apply Z.div_le_upper_bound; [lia|].
    rewrite <- Z.pow_add_r by lia. replace (e2 - e1 + - e2) with (- e1) by lia. lia. }
  destruct m3 as [|p|p]; [auto| |lia].
  right. assert (Hb : (e2 <=? emax - prec) = true).
  { apply Z.leb_le. change (emax - prec) with 971. lia. }
  rewrite Hb. exists p, e2. repeat split; lia.
Qed.

Lemma Prim2SF_one : Prim2SF 1 = SFone64.
Proof. reflexivity. Qed.

Lemma canonical_digits p e : valid_binary (S754_finite false p e) = true ->
  fx (Zpos (digits2_pos p) + e) = e /\ e <= 971.
Proof.
  simpl. unfold bounded, canonical_mantissa. intros H.
  apply andb_prop in H. destruct H as [H1 H2].
  apply Z.eqb_eq in H1. apply Z.leb_le in H2. split; auto.
Qed.

Lemma leb_one p e : valid_binary (S754_finite false p e) = true ->
  e <= 0 -> Zpos p <= 2 ^ (- e) ->
  SFleb (S754_finite false p e) SFone64 = true.
Proof.
  intros Hv He Hle. destruct (canonical_digits p e Hv) as [Hc _]. rewrite fx_eq in Hc.
  unfold SFleb, SFone64, SFcompare.
  destruct (Z.compare_spec e (-52)) as [E|E|E]; auto.
  - subst e. rewrite Pos.compare_cont_spec. simpl Pos.switch_Eq.
    change (2 ^ (- -52)) with (Zpos 4503599627370496) in Hle.
    destruct (Pos.compare_spec p 4503599627370496); auto. lia.
  - exfalso.
    assert (Hd : Zpos (digits2_pos p) = 53) by lia.
    pose proof (digits_lower p) as Hl. rewrite Hd in Hl.
    assert (2 ^ (- e) < 2 ^ 52) by (apply Z.pow_lt_mono_r; lia).
    change (53 - 1) with 52 in Hl. lia.
Qed.

Lemma div_core mx ex my ey :
  Zpos (digits2_pos mx) = 53 -> Zpos (digits2_pos my) = 53 ->
  -52 <= ex <= 0 -> -52 <= ey <= 0 ->
  SFdiv prec emax (S754_finite false mx ex) (S754_finite false my ey) =
  binary_round_aux prec emax false (Zpos mx * 2 ^ 53 / Zpos my) (ex - ey - 53)
    (new_location (Zpos my) (Zpos mx * 2 ^ 53 mod Zpos my)).
Proof.
  intros Hx Hy Hex Hey. unfold SFdiv, SFdiv_core_binary.
  change (Zdigits2 (Zpos mx)) with (Zpos (digits2_pos mx)).
  change (Zdigits2 (Zpos my)) with (Zpos (digits2_pos my)).
  rewrite Hx, Hy. fold (fx (53 + ex - (53 + ey))). rewrite fx_eq.
  replace (Z.min (Z.max (53 + ex - (53 + ey) - 53) (-1074)) (ex - ey))
    with (ex - ey - 53) by lia.
  replace (ex - ey - (ex - ey - 53)) with 53 by lia.
  cbv beta iota zeta.
  rewrite Z.shiftl_mul_pow2 by lia.
  unfold Z.div, Z.modulo.
  destruct (Z.div_eucl (Zpos mx * 2 ^ 53) (Zpos my)) as [q r]. reflexivity.
Qed.

Lemma new_location_zero n : new_location n 0 = loc_Exact.
Proof. unfold new_location. destruct (Z.even n); reflexivity. Qed.

(** The quotient of two integers below 2^53, the first at most the second, is
    a number between 0 and 1. *)
Lemma div_unit_spec mx ex my ey :
  Zpos (digits2_pos mx) = 53 -> Zpos (digits2_pos my) = 53 ->
  -52 <= ex <= 0 -> -52 <= ey <= 0 ->
  Zpos mx * 2 ^ (ex + 52) <= Zpos my * 2 ^ (ey + 52) ->
  let r := SFdiv prec emax (S754_finite false mx ex) (S754_finite false my ey) in
  r = S754_zero false \/ r = SFone64 \/
  exists p e2, r = S754_finite false p e2 /\ e2 <= 0 /\ Zpos p <= 2 ^ (- e2).
Proof.
  intros Hx Hy Hex Hey Hle r. unfold r. rewrite div_core by auto.
  destruct (Z.eq_dec (Zpos mx * 2 ^ (ex + 52)) (Zpos my * 2 ^ (ey + 52))) as [Heq|Hne].
  - (* equal values: equal representations *)
    assert (ex = ey).
    { pose proof (digits_lower mx) as Lx. pose proof (digits_upper mx) as Ux.
      pose proof (digits_lower my) as Ly. pose proof (digits_upper my) as Uy.
      rewrite Hx in Lx, Ux. rewrite Hy in Ly, Uy.
      change (2 ^ (53 - 1)) with 4503599627370496 in Lx, Ly.
      change (2 ^ 53) with 9007199254740992 in Ux, Uy.
      destruct (Z.lt_trichotomy ex ey) as [L|[E|G]]; auto; exfalso.
      - replace (ey + 52) with ((ex + 52) + (ey - ex)) in Heq by lia.
        rewrite (Z.pow_add_r 2 (ex + 52) (ey - ex)) in Heq by lia.
        assert (Hb : 2 ^ 1 <= 2 ^ (ey - ex)) by (apply Z.pow_le_mono_r; lia).
        change (2 ^ 1) with 2 in Hb.
        assert (Ha : 0 < 2 ^ (ex + 52)) by (apply Z.pow_pos_nonneg; lia).
        set (a := 2 ^ (ex + 52)) in *. set (b := 2 ^ (ey - ex)) in *.
        assert (Zpos mx < Zpos my * b) by nia.
        assert (Zpos mx * a < Zpos my * b * a) by (apply Z.mul_lt_mono_pos_r; auto).
        lia.
      - replace (ex + 52) with ((ey + 52) + (ex - ey)) in Heq by lia.
        rewrite (Z.pow_add_r 2 (ey + 52) (ex - ey)) in Heq by lia.
        assert (Hb : 2 ^ 1 <= 2 ^ (ex - ey)) by (apply Z.pow_le_mono_r; lia).
        change (2 ^ 1) with 2 in Hb.
        assert (Ha : 0 < 2 ^ (ey + 52)) by (apply Z.pow_pos_nonneg; lia).
        set (a := 2 ^ (ey + 52)) in *. set (b := 2 ^ (ex - ey)) in *.
        assert (Zpos my < Zpos mx * b) by nia.
        assert (Zpos my * a < Zpos mx * b * a) by (apply Z.mul_lt_mono_pos_r; auto).
        lia. }
    subst ey.
    assert (mx = my).
    { assert (0 < 2 ^ (ex + 52)) by (apply Z.pow_pos_nonneg; lia).
      assert (Zpos mx = Zpos my) by nia. congruence. }
    subst my. right. left.
    rewrite Z.mul_comm, Z.mod_mul, Z.div_mul by lia.
    rewrite new_location_zero. replace (ex - ex - 53) with (-53) by lia.
    reflexivity.
  - assert (Hlt : Zpos mx * 2 ^ (ex + 52) < Zpos my * 2 ^ (ey + 52)) by lia.
    pose proof (@binary_round_aux_rounded false (Zpos mx * 2 ^ 53 / Zpos my) (ex - ey - 53)
      (new_location (Zpos my) (Zpos mx * 2 ^ 53 mod Zpos my))) as R.
    assert (Hq : 0 <= Zpos mx * 2 ^ 53 / Zpos my) by (apply Z.div_pos; lia).
    specialize (R Hq).
    apply rounded_le_one in R; auto; [tauto|lia|].
    apply Z.div_lt_upper_bound; [lia|].
    replace (- (ex - ey - 53)) with ((ey + 52) + (1 - ex)) by lia.
    replace 53 with ((ex + 52) + (1 - ex)) at 1 by lia.
    rewrite (Z.pow_add_r 2 (ex + 52) (1 - ex)) by lia.
    rewrite (Z.pow_add_r 2 (ey + 52) (1 - ex)) by lia.
    assert (Hc : 0 < 2 ^ (1 - ex)) by (apply Z.pow_pos_nonneg; lia).
    set (a := 2 ^ (ex + 52)) in *. set (b := 2 ^ (ey + 52)) in *.
    set (c := 2 ^ (1 - ex)) in *.
    assert (Zpos mx * a * c < Zpos my * b * c) by (apply Z.mul_lt_mono_pos_r; auto).
    lia.
Qed.

(** A positive value at an exponent of the format is not rounded to zero. *)
Lemma shift_pos m e : 0 < m -> -1074 <= e ->
  let e1 := Z.max e (fx (Zdigits2 m + e)) in
  0 < m / 2 ^ (e1 - e) /\ -1074 <= e1.
Proof.
  intros Hm He e1. split; [|lia].
  destruct (Zdigits2_pos_bounds Hm) as (Hd & Hl & Hu).
  assert (Hs : e1 - e = 0 \/ (e1 - e = Zdigits2 m - 53 /\ 0 < e1 - e)).
  { unfold e1. rewrite fx_eq. lia. }
  destruct Hs as [Hs|[Hs Hp]]; rewrite Hs.
  - simpl. rewrite Z.div_1_r. auto.
  - assert (1 <= m / 2 ^ (Zdigits2 m - 53)); [|lia].
    apply Z.div_le_lower_bound; [apply Z.pow_pos_nonneg; lia|].
    rewrite Z.mul_1_r. apply Z.le_trans with (2 ^ (Zdigits2 m - 1)); auto.
    apply Z.pow_le_mono_r; lia.
Qed.

Lemma rounded_pos s m e l r : 0 < m -> -1074 <= e -> rounded s m e l r ->
  r = S754_infinity s \/ exists p e', r = S754_finite s p e'.
Proof.
  intros Hm He H. destruct H as [m1 m2 m3 e1 e2 He1 Hm1 Hm2 _ He2 Hm3].
  destruct (shift_pos Hm He) as [P1 E1]. cbv zeta in P1, E1.
  rewrite <- He1 in P1, E1. rewrite <- Hm1 in P1.
  assert (P2 : 0 < m2) by lia.
  destruct (shift_pos P2 E1) as [P3 E2]. cbv zeta in P3, E2.
  rewrite <- He2 in P3, E2. rewrite <- Hm3 in P3.
  destruct m3 as [|p|p]; try lia.
  destruct (e2 <=? emax - prec); eauto.
Qed.

Lemma finite_nonneg x : finiteSF x = true -> nonnegSF x = true.
Proof. destruct x as [s|s| |s m e]; simpl; auto; discriminate. Qed.

Lemma rounded_nonnegSF m e l r : 0 <= m -> rounded false m e l r -> nonnegSF r = true.
Proof.
  intros Hm H. destruct (rounded_nonneg Hm H) as [->|[->|(p & e' & ->)]]; reflexivity.
Qed.

Lemma mul_nonneg x y : finiteSF x = true -> finiteSF y = true ->
  nonnegSF (SFmul prec emax x y) = true.
Proof.
  destruct x as [sx|sx| |[] mx ex], y as [sy|sy| |[] my ey]; simpl;
    intros Hx Hy; try discriminate; try reflexivity.
  eapply rounded_nonnegSF; [|apply binary_round_aux_rounded]; lia.
Qed.

Lemma add_nonneg x y : nonnegSF x = true -> nonnegSF y = true ->
  nonnegSF (SFadd prec emax x y) = true.
Proof.
  destruct x as [sx|[]| |[] mx ex], y as [sy|[]| |[] my ey]; simpl;
    intros Hx Hy; try discriminate; try reflexivity.
  - destruct sx, sy; reflexivity.
  - destruct (shl_align_spec mx ex (Z.min ex ey)) as [_ H1].
    destruct (shl_align_spec my ey (Z.min ex ey)) as [_ H2].
    destruct (Zpos (fst (shl_align mx ex (Z.min ex ey))) +
              Zpos (fst (shl_align my ey (Z.min ex ey)))) as [|p|p] eqn:E; try lia.
    simpl binary_normalize.
    eapply rounded_nonnegSF; [|apply binary_round_rounded].
    apply Z.mul_nonneg_nonneg; [lia|]. apply Z.pow_nonneg; lia.
Qed.

(** Order. *)
Lemma compare_cont_Eq p q : Pos.compare_cont Eq p q = Pos.compare p q.
Proof. reflexivity. Qed.

Lemma SFcompare_antisym x y :
  SFcompare y x = option_map CompOpp (SFcompare x y).
Proof.
  destruct x as [sx|sx| |sx mx ex], y as [sy|sy| |sy my ey]; simpl;
    try reflexivity;
    try (destruct sx; reflexivity); try (destruct sy; reflexivity);
    try (destruct sx, sy; reflexivity).
  rewrite !compare_cont_Eq.
  rewrite (Z.compare_antisym ex ey), (Pos.compare_antisym mx my).
  destruct sx, sy; try reflexivity;
    destruct (ex ?= ey); try reflexivity;
    destruct (mx ?= my)%positive; reflexivity.
Qed.

Lemma SFcompare_refl x : nonnegSF x = true -> SFcompare x x = Some Eq.
Proof.
  destruct x as [sx|sx| |sx mx ex]; simpl; try discriminate; auto.
  - destruct sx; auto.
  - destruct sx; try discriminate. intros _.
    rewrite Z.compare_refl, compare_cont_Eq, Pos.compare_refl. reflexivity.
Qed.

(** Two canonical mantissas compare as the values they stand for. *)
Lemma compare_aligned mx ex my ey :
  valid_binary (S754_finite false mx ex) = true ->
  valid_binary (S754_finite false my ey) = true ->
  SFcompare (S754_finite false mx ex) (S754_finite false my ey) =
  Some (Zpos mx * 2 ^ (ex - Z.min ex ey) ?= Zpos my * 2 ^ (ey - Z.min ex ey)).
Proof.
  intros Vx Vy.
  destruct (canonical_digits mx ex Vx) as [Cx _].
  destruct (canonical_digits my ey Vy) as [Cy _].
  rewrite fx_eq in Cx, Cy.
  pose proof (digits_lower mx) as Lx. pose proof (digits_upper mx) as Ux.
  pose proof (digits_lower my) as Ly. pose proof (digits_upper my) as Uy.
  simpl SFcompare. f_equal.
  destruct (Z.compare_spec ex ey) as [E|L|G].
  - subst ey. rewrite Z.min_id, Z.sub_diag. simpl (2 ^ 0). rewrite !Z.mul_1_r.
    rewrite compare_cont_Eq. reflexivity.
  - symmetry. apply Z.compare_lt_iff.
    replace (Z.min ex ey) with ex by lia. rewrite Z.sub_diag. simpl (2 ^ 0). rewrite Z.mul_1_r.
    assert (Dy : Zpos (digits2_pos my) = 53) by lia.
    assert (Dx : Zpos (digits2_pos mx) <= 53) by lia.
    rewrite Dy in Ly. change (2 ^ (53 - 1)) with 4503599627370496 in Ly.
    assert (Zpos mx < 2 ^ 53).
    { eapply Z.lt_le_trans; [exact Ux|]. apply Z.pow_le_mono_r; lia. }
    change (2 ^ 53) with 9007199254740992 in *.
    assert (Hb : 2 ^ 1 <= 2 ^ (ey - ex)) by (apply Z.pow_le_mono_r; lia).
    change (2 ^ 1) with 2 in Hb. nia.
  - symmetry. apply Z.compare_gt_iff.
    replace (Z.min ex ey) with ey by lia. rewrite Z.sub_diag. simpl (2 ^ 0). rewrite Z.mul_1_r.
    assert (Dx : Zpos (digits2_pos mx) = 53) by lia.
    assert (Dy : Zpos (digits2_pos my) <= 53) by lia.
    rewrite Dx in Lx. change (2 ^ (53 - 1)) with 4503599627370496 in Lx.
    assert (Zpos my < 2 ^ 53).
    { eapply Z.lt_le_trans; [exact Uy|]. apply Z.pow_le_mono_r; lia. }
    change (2 ^ 53) with 9007199254740992 in *.
    assert (Hb : 2 ^ 1 <= 2 ^ (ex - ey)) by (apply Z.pow_le_mono_r; lia).
    change (2 ^ 1) with 2 in Hb. nia.
Qed.

(** The sign of a difference is the order of its operands. *)
Lemma sub_sign x y :
  valid_binary x = true -> valid_binary y = true ->
  nonnegSF x = true -> nonnegSF y = true ->
  SFltb (S754_zero false) (SFsub prec emax y x) = SFltb x y.
Proof.
  intros Vx Vy Nx Ny.
  destruct x as [sx|[]| |[] mx ex], y as [sy|[]| |[] my ey]; simpl in Nx, Ny;
    try discriminate; try reflexivity.
  - destruct sx, sy; reflexivity.
  - unfold SFltb at 2. rewrite compare_aligned by auto.
    unfold SFsub. cbv zeta. simpl cond_Zopp.
    destruct (shl_align_spec mx ex (Z.min ey ex)) as [_ H1].
    destruct (shl_align_spec my ey (Z.min ey ex)) as [_ H2].
    replace (Z.min ex (Z.min ey ex)) with (Z.min ex ey) in H1 by lia.
    replace (Z.min ey (Z.min ey ex)) with (Z.min ex ey) in H2 by lia.
    rewrite H1, H2. rewrite (Z.min_comm ey ex).
    set (MX := Zpos mx * 2 ^ (ex - Z.min ex ey)).
    set (MY := Zpos my * 2 ^ (ey - Z.min ex ey)).
    destruct (canonical_digits mx ex Vx) as [Cx _].
    destruct (canonical_digits my ey Vy) as [Cy _].
    rewrite fx_eq in Cx, Cy.
    destruct (MY - MX) as [|p|p] eqn:D.
    + replace (MX ?= MY) with Eq by (symmetry; apply Z.compare_eq_iff; lia). reflexivity.
    + replace (MX ?= MY) with Lt by (symmetry; apply Z.compare_lt_iff; lia).
      simpl binary_normalize.
      pose proof (binary_round_rounded false p (Z.min ex ey)) as R. cbv zeta in R.
      apply rounded_pos in R.
      * destruct R as [->|(q & e' & ->)]; reflexivity.
      * apply Z.mul_pos_pos; [lia|]. apply Z.pow_pos_nonneg; lia.
      * rewrite fx_eq. lia.
    + replace (MX ?= MY) with Gt by (symmetry; apply Z.compare_gt_iff; lia).
      simpl binary_normalize.
      pose proof (binary_round_rounded true p (Z.min ex ey)) as R. cbv zeta in R.
      apply rounded_nonneg in R.
      * destruct R as [->|[->|(q & e' & ->)]]; reflexivity.
      * apply Z.mul_nonneg_nonneg; [lia|]. apply Z.pow_nonneg; lia.
Qed.

Lemma inUnit_finite x : inUnit x = true -> finiteSF (Prim2SF x) = true.
Proof.
  unfold inUnit. rewrite !FloatAxioms.leb_spec. intros H. apply andb_prop in H. destruct H as [H0 H1].
  change (Prim2SF 0) with (S754_zero false) in H0. rewrite Prim2SF_one in H1.
  destruct (Prim2SF x) as [s|[]| |[] m e]; simpl in *; auto; discriminate.
Qed.

Lemma inUnit_zero : inUnit 0 = true.
Proof. reflexivity. Qed.

Lemma inUnit_one : inUnit 1 = true.
Proof. reflexivity. Qed.

Lemma ofZ_nonneg z : 0 <= z -> JsNumber.ofZ z = of_uint63 (Uint63.of_Z z).
Proof. intros H. unfold JsNumber.ofZ. destruct (Z.ltb_spec z 0); [lia|reflexivity]. Qed.

(** A ratio of two lengths, the first at most the second, is in [0, 1]. *)
Lemma ratio_inUnit a b : 0 <= a <= b -> 0 < b < 2 ^ 53 ->
  inUnit (JsNumber.ofZ a / JsNumber.ofZ b) = true.
Proof.
  intros Ha Hb. rewrite !ofZ_nonneg by lia.
  unfold inUnit. rewrite !FloatAxioms.leb_spec. rewrite Prim2SF_one.
  change (Prim2SF 0) with (S754_zero false).
  pose proof (Prim2SF_valid (of_uint63 (Uint63.of_Z a) / of_uint63 (Uint63.of_Z b))) as V.
  rewrite FloatAxioms.div_spec in *. unfold SF64div in *.
  destruct (@of_int_exact b Hb) as (mb & eb & Eb & Vb & Rb & Db).
  rewrite Eb in *.
  destruct (Z.eq_dec a 0) as [->|Hn].
  - rewrite of_int_zero. reflexivity.
  - destruct (@of_int_exact a) as (ma & ea & Ea & Va & Ra & Da); [lia|].
    rewrite Ea in *.
    assert (Hle : Zpos ma * 2 ^ (ea + 52) <= Zpos mb * 2 ^ (eb + 52)).
    { rewrite Va, Vb. rewrite <- !Z.mul_assoc, <- !Z.pow_add_r by lia.
      replace (- ea + (ea + 52)) with 52 by lia.
      replace (- eb + (eb + 52)) with 52 by lia. nia. }
    destruct (div_unit_spec ma mb Da Db Ra Rb Hle) as [R|[R|(p & e2 & R & He2 & Hp)]];
      rewrite R in *.
    + reflexivity.
    + reflexivity.
    + rewrite (leb_one V He2 Hp). reflexivity.
Qed.

Lemma is_nan_false x : nonnegSF (Prim2SF x) = true -> PrimFloat.is_nan x = false.
Proof.
  intros H. unfold PrimFloat.is_nan. rewrite FloatAxioms.eqb_spec. unfold SFeqb.
  rewrite SFcompare_refl by auto. reflexivity.
Qed.

(** [Math.max] of two numbers of [0, 1] is one of them. *)
Lemma max_inUnit x y : inUnit x = true -> inUnit y = true ->
  inUnit (JsNumber.max x y) = true.
Proof.
  intros Hx Hy. unfold JsNumber.max.
  rewrite (is_nan_false x), (is_nan_false y)
    by (apply finite_nonneg, inUnit_finite; auto).
  simpl. destruct (x <? y)%float; auto. destruct (y <? x)%float; auto.
  destruct (PrimFloat.is_zero x && PrimFloat.get_sign x); auto.
Qed.

(** The combined score of two scores of [0, 1] is neither NaN nor negative. *)
Lemma combined_nonneg n a : inUnit n = true -> inUnit a = true ->
  nonnegSF (Prim2SF (n * 0.4 + a * 0.6)%float) = true.
Proof.
  intros Hn Ha. rewrite FloatAxioms.add_spec, !FloatAxioms.mul_spec.
  apply add_nonneg; apply mul_nonneg; try (apply inUnit_finite; assumption); reflexivity.
Qed.

(** [b - a > 0] exactly when [a < b]. *)
Lemma difference_sign a b :
  nonnegSF (Prim2SF a) = true -> nonnegSF (Prim2SF b) = true ->
  JsNumber.gt (b - a) 0 = (a <? b)%float.
Proof.
  intros Ha Hb. unfold JsNumber.gt. rewrite !FloatAxioms.ltb_spec, FloatAxioms.sub_spec.
  change (Prim2SF 0) with (S754_zero false).
  apply sub_sign; auto using Prim2SF_valid.
Qed.

Lemma ltb_leb a b : (a <? b)%float = true -> (a <=? b)%float = true.
Proof.
  rewrite FloatAxioms.ltb_spec, FloatAxioms.leb_spec. unfold SFltb, SFleb.
  destruct (SFcompare (Prim2SF a) (Prim2SF b)) as [[]|]; auto.
Qed.

Lemma not_ltb_leb a b :
  nonnegSF (Prim2SF a) = true -> nonnegSF (Prim2SF b) = true ->
  (a <? b)%float = false -> (b <=? a)%float = true.
Proof.
  intros Ha Hb. rewrite FloatAxioms.ltb_spec, FloatAxioms.leb_spec. unfold SFltb, SFleb.
  rewrite (SFcompare_antisym (Prim2SF a) (Prim2SF b)).
  destruct (Prim2SF a) as [sx|[]| |[] mx ex], (Prim2SF b) as [sy|[]| |[] my ey];
    simpl in Ha, Hb; try discriminate; simpl; auto.
  destruct (ex ?= ey); auto; destruct (Pos.compare_cont Eq mx my); auto.
Qed.

Lemma gt_not_leb a b : JsNumber.gt a b = true -> (a <=? b)%float = false.
Proof.
  unfold JsNumber.gt. rewrite FloatAxioms.ltb_spec, FloatAxioms.leb_spec. unfold SFltb, SFleb.
  rewrite (SFcompare_antisym (Prim2SF b) (Prim2SF a)).
  destruct (SFcompare (Prim2SF b) (Prim2SF a)) as [[]|]; simpl; auto; discriminate.
Qed.

(** A number equal to [c] is not below a number equal to [c]. *)
Lemma SFcompare_Eq_l x c y : SFcompare x c = Some Eq -> SFcompare x y = SFcompare c y.
Proof.
  destruct x as [sx|sx| |sx mx ex], c as [sc|sc| |sc mc ec]; simpl; try discriminate;
    try (destruct sx; discriminate); try (destruct sc; discriminate).
  - intros _. destruct y; reflexivity.
  - destruct sx, sc; try discriminate; reflexivity.
  - destruct sx, sc; try discriminate.
    + destruct (Z.compare_spec ex ec); try discriminate. subst ec.
      rewrite compare_cont_Eq. destruct (Pos.compare_spec mx mc); try discriminate.
      subst mc. reflexivity.
    + destruct (Z.compare_spec ex ec); try discriminate. subst ec.
      rewrite compare_cont_Eq. destruct (Pos.compare_spec mx mc); try discriminate.
      subst mc. reflexivity.
Qed.

Lemma ltb_eqb_apart a b c :
  (a <? b)%float = true -> (a =? c)%float = true -> (b =? c)%float = false.
Proof.
  rewrite FloatAxioms.ltb_spec, !FloatAxioms.eqb_spec. unfold SFltb, SFeqb. intros Hlt Heq.
  destruct (SFcompare (Prim2SF a) (Prim2SF c)) as [[]|] eqn:E; try discriminate.
  rewrite (SFcompare_Eq_l _ _ (Prim2SF b) E) in Hlt.
  rewrite (SFcompare_antisym (Prim2SF c) (Prim2SF b)).
  destruct (SFcompare (Prim2SF c) (Prim2SF b)) as [[]|]; simpl; auto; discriminate.
Qed.

End FloatFacts.

(** * The edit distance *)

Lemma lev_0 s1 s2 j : levenshteinPrefix s1 s2 0 j = j.
Proof. reflexivity. Qed.

Lemma lev_S_0 s1 s2 i : levenshteinPrefix s1 s2 (S i) 0 = S i.
Proof. reflexivity. Qed.

Lemma lev_S_S s1 s2 i j :
  levenshteinPrefix s1 s2 (S i) (S j) =
  if eqs (charAt s1 i) (charAt s2 j)
  then levenshteinPrefix s1 s2 i j
  else S (Nat.min (Nat.min (levenshteinPrefix s1 s2 i j) (levenshteinPrefix s1 s2 (S i) j))
                  (levenshteinPrefix s1 s2 i (S j))).
Proof. reflexivity. Qed.

Lemma eqc_sym a b : eqc a b = eqc b a.
Proof. apply Ascii.eqb_sym. Qed.

Lemma eqs_sym a : forall b, eqs a b = eqs b a.
Proof.
  induction a as [|x a IH]; intros [|y b]; simpl; auto.
  rewrite eqc_sym, IH. reflexivity.
Qed.

Lemma eqs_eq a : forall b, eqs a b = true <-> a = b.
Proof.
  induction a as [|x a IH]; intros [|y b]; simpl; split; try congruence; auto.
  - intros H. apply andb_prop in H. destruct H as [H1 H2].
    apply Ascii.eqb_eq in H1. apply IH in H2. congruence.
  - intros H. injection H as -> ->. apply andb_true_intro. split.
    + apply Ascii.eqb_refl.
    + apply IH. reflexivity.
Qed.

Lemma lev_sym s1 s2 i : forall j,
  levenshteinPrefix s1 s2 i j = levenshteinPrefix s2 s1 j i.
Proof.
  induction i as [|i IHi]; intros j.
  - destruct j; reflexivity.
  - induction j as [|j IHj].
    + reflexivity.
    + rewrite !lev_S_S. rewrite (eqs_sym (charAt s2 j)).
      rewrite (IHi j), (IHi (S j)), IHj.
      destruct (eqs (charAt s1 i) (charAt s2 j)); auto. f_equal. lia.
Qed.

Lemma lev_bound s1 s2 i : forall j, levenshteinPrefix s1 s2 i j <= Nat.max i j.
Proof.
  induction i as [|i IHi]; intros j.
  - simpl. lia.
  - induction j as [|j IHj].
    + simpl. lia.
    + rewrite lev_S_S. pose proof (IHi j). pose proof (IHi (S j)).
      destruct (eqs (charAt s1 i) (charAt s2 j)); lia.
Qed.

(** The loops of the source compute the recurrence row by row. *)
Section Loops.

Variables s1 s2 : str.

Local Abbreviation n := (length s2).

Local Abbreviation D := (levenshteinPrefix s1 s2).

Lemma arraySet_length a i v : i <= length a -> length (arraySet a i v) = Nat.max (length a) (S i).
Proof.
  intros H. unfold arraySet. rewrite length_app, length_firstn. cbn [length].
  rewrite length_skipn. lia.
Qed.

Lemma arraySet_nth a i v k : i <= length a ->
  nth k (arraySet a i v) 0 = if k =? i then v else nth k a 0.
Proof.
  intros H. unfold arraySet.
  destruct (Nat.eqb_spec k i) as [->|Hne].
  - rewrite app_nth2; rewrite length_firstn; [|lia].
    replace (i - Nat.min i (length a)) with 0 by lia. reflexivity.
  - destruct (Nat.lt_ge_cases k i).
    + rewrite app_nth1 by (rewrite length_firstn; lia).
      rewrite nth_firstn. destruct (Nat.ltb_spec k i); [reflexivity|lia].
    + rewrite app_nth2 by (rewrite length_firstn; lia).
      rewrite length_firstn. replace (Nat.min i (length a)) with i by lia.
      destruct (k - i) as [|d] eqn:E; [lia|]. cbn [nth].
      rewrite nth_skipn. f_equal. lia.
Qed.

Lemma nth_map_seq (f : nat -> nat) len : forall a k d, k < len ->
  nth k (map f (seq a len)) d = f (a + k).
Proof.
  induction len as [|len IH]; intros a k d Hk; [lia|].
  destruct k as [|k]; simpl.
  - f_equal. lia.
  - rewrite IH by lia. f_equal. lia.
Qed.

(** The first row. *)
Lemma first_row k : k <= S n ->
  fold_left (innerStep s1 s2 0) (seq 0 k) ([], 0) = (seq 0 k, 0).
Proof.
  induction k as [|k IH]; intros Hk; [reflexivity|].
  rewrite seq_S, fold_left_app, IH by lia. simpl.
  unfold arraySet. rewrite firstn_all2 by (rewrite length_seq; lia).
  rewrite skipn_all2 by (rewrite length_seq; lia). reflexivity.
Qed.

Lemma mixed_length i j : length (mixed s1 s2 i j) = S n.
Proof. unfold mixed. rewrite length_map, length_seq. reflexivity. Qed.

Lemma mixed_nth i j k : k <= n ->
  nth k (mixed s1 s2 i j) 0 = if S k <? j then D (S i) k else D i k.
Proof.
  intros H. unfold mixed. rewrite nth_map_seq by lia. reflexivity.
Qed.

Lemma D_S_S i j :
  D (S i) (S j) =
  if eqs (charAt s1 i) (charAt s2 j) then D i j
  else S (Nat.min (Nat.min (D i j) (D (S i) j)) (D i (S j))).
Proof. apply lev_S_S. Qed.

Lemma inner_step_row i j : S j <= n ->
  innerStep s1 s2 (S i) (mixed s1 s2 i (S j), D (S i) j) (S j) =
  (mixed s1 s2 i (S (S j)), D (S i) (S j)).
Proof.
  intros Hj. unfold innerStep.
  change (S i =? 0) with false. change (0 <? S j) with true. cbv iota.
  replace (S j - 1) with j by lia. replace (S i - 1) with i by lia.
  rewrite !mixed_nth by lia.
  destruct (Nat.ltb_spec (S j) (S j)); [lia|].
  f_equal.
  - apply nth_ext with (d := 0) (d' := 0).
    + rewrite arraySet_length by (rewrite mixed_length; lia).
      rewrite !mixed_length. lia.
    + intros k Hk. rewrite arraySet_length in Hk by (rewrite mixed_length; lia).
      rewrite mixed_length in Hk.
      rewrite arraySet_nth by (rewrite mixed_length; lia).
      rewrite !mixed_nth by lia.
      destruct (Nat.eqb_spec k j) as [->|Hne].
      * destruct (Nat.ltb_spec (S j) (S (S j))); [reflexivity|lia].
      * destruct (Nat.ltb_spec (S k) (S j)), (Nat.ltb_spec (S k) (S (S j)));
          try reflexivity; lia.
  - rewrite D_S_S.
    destruct (Nat.ltb_spec (S (S j)) (S j)); [lia|].
    destruct (eqs (charAt s1 i) (charAt s2 j)); simpl; auto. lia.
Qed.

Lemma inner_loop_row i k : k <= n ->
  fold_left (innerStep s1 s2 (S i)) (seq 1 k) (mixed s1 s2 i 1, D (S i) 0) =
  (mixed s1 s2 i (S k), D (S i) k).
Proof.
  induction k as [|k IH]; intros Hk; [reflexivity|].
  rewrite seq_S, fold_left_app, IH by lia. simpl fold_left.
  apply inner_step_row. lia.
Qed.

Lemma row_mixed i : map (D i) (seq 0 (S n)) = mixed s1 s2 i 1.
Proof.
  unfold mixed. apply map_ext. intros k. destruct k; reflexivity.
Qed.

Lemma outer_step_row i :
  outerStep s1 s2 (map (D i) (seq 0 (S n))) (S i) = map (D (S i)) (seq 0 (S n)).
Proof.
  assert (L : fold_left (innerStep s1 s2 (S i)) (seq 0 (S n))
                (map (D i) (seq 0 (S n)), S i) = (mixed s1 s2 i (S n), D (S i) n)).
  { change (seq 0 (S n)) with (0 :: seq 1 n) at 1.
    cbn [fold_left]. rewrite row_mixed.
    change (innerStep s1 s2 (S i) (mixed s1 s2 i 1, S i) 0) with (mixed s1 s2 i 1, D (S i) 0).
    apply inner_loop_row. lia. }
  unfold outerStep. rewrite L. change (0 <? S i) with true. cbv iota.
  apply nth_ext with (d := 0) (d' := 0).
  - rewrite arraySet_length by (rewrite mixed_length; lia).
    rewrite mixed_length, length_map, length_seq. lia.
  - intros k Hk. rewrite arraySet_length in Hk by (rewrite mixed_length; lia).
    rewrite mixed_length in Hk.
    rewrite arraySet_nth by (rewrite mixed_length; lia).
    rewrite nth_map_seq by lia. simpl (0 + k).
    destruct (Nat.eqb_spec k n) as [->|Hne]; [reflexivity|].
    rewrite mixed_nth by lia.
    destruct (Nat.ltb_spec (S k) (S n)); [reflexivity|lia].
Qed.

Lemma outer_step_first : outerStep s1 s2 [] 0 = map (D 0) (seq 0 (S n)).
Proof.
  unfold outerStep. rewrite first_row by lia. simpl (0 <? 0).
  cbv iota. symmetry. apply map_id.
Qed.

Lemma outer_loop_rows m :
  fold_left (outerStep s1 s2) (seq 0 (S m)) [] = map (D m) (seq 0 (S n)).
Proof.
  induction m as [|m IH].
  - simpl. apply outer_step_first.
  - rewrite seq_S, fold_left_app, IH. simpl. apply outer_step_row.
Qed.

End Loops.

(** [editDistance] is the Levenshtein distance. *)
Lemma editDistance_levenshtein s1 s2 : editDistance s1 s2 = levenshtein s1 s2.
Proof.
  unfold editDistance, levenshtein. rewrite outer_loop_rows.
  rewrite nth_map_seq by lia. reflexivity.
Qed.

(** * Whole-word replacement and the normal form of addresses *)

Lemma untokens_tokens s : untokens (tokens s) = s.
Proof.
  induction s as [|c t IH]; simpl; auto.
  destruct (isWordChar c).
  - destruct (tokens t) as [|[w|d] r]; simpl in *; congruence.
  - simpl. congruence.
Qed.

Lemma wellFormed_tokens s : wellFormed (tokens s) = true.
Proof.
  induction s as [|c t IH]; simpl; auto.
  destruct (isWordChar c) eqn:E.
  - destruct (tokens t) as [|[w|d] r]; simpl in *; unfold isWord in *; simpl; rewrite ?E; auto.
    apply andb_prop in IH. destruct IH as [H1 H2].
    apply andb_prop in H1. destruct H1 as [H0 H1].
    apply andb_prop in H0. destruct H0 as [_ H0].
    rewrite H0, H1, H2. reflexivity.
  - simpl. rewrite E. auto.
Qed.

Lemma tokens_app_word w s :
  isWord w = true -> wordAt s = false -> tokens (w ++ s) = Word w :: tokens s.
Proof.
  unfold isWord. intros H Hs. apply andb_prop in H. destruct H as [Hn Ha].
  induction w as [|c w IH]; [discriminate|].
  simpl in Ha. apply andb_prop in Ha. destruct Ha as [Hc Ha].
  simpl. rewrite Hc. destruct w as [|d w].
  - simpl. destruct s as [|e s]; simpl in *; auto; try (rewrite Hs; reflexivity).
  - rewrite IH by auto. reflexivity.
Qed.

Lemma wordAt_untokens l :
  wellFormed l = true ->
  wordAt (untokens l) = match l with Word _ :: _ => true | _ => false end.
Proof.
  destruct l as [|[w|c] r]; simpl; auto.
  - unfold isWord. intros H. destruct w as [|d w]; [discriminate|]. simpl in *.
    destruct (isWordChar d); auto; discriminate.
  - intros H. destruct (isWordChar c); auto; discriminate.
Qed.

Lemma tokens_untokens l : wellFormed l = true -> tokens (untokens l) = l.
Proof.
  induction l as [|[w|c] r IH]; simpl; auto; intros H.
  - apply andb_prop in H. destruct H as [H H2].
    apply andb_prop in H. destruct H as [H0 H1].
    rewrite tokens_app_word; auto.
    + rewrite IH by auto. reflexivity.
    + rewrite wordAt_untokens by auto. destruct r as [|[]]; auto; discriminate.
  - apply andb_prop in H. destruct H as [H0 H1].
    apply negb_true_iff in H0. rewrite H0. rewrite IH by auto. reflexivity.
Qed.

Lemma eqs_refl a : eqs a a = true.
Proof. induction a; simpl; auto. unfold eqc. rewrite Ascii.eqb_refl. auto. Qed.

Lemma eqs_true a b : eqs a b = true -> a = b.
Proof.
  revert b. induction a as [|x a IH]; intros [|y b]; simpl; try congruence.
  intros H. apply andb_prop in H. destruct H as [H1 H2].
  apply Ascii.eqb_eq in H1. apply IH in H2. congruence.
Qed.

Lemma startsWith_app w r : startsWith w (w ++ r) = true.
Proof. induction w; simpl; auto. unfold eqc. rewrite Ascii.eqb_refl. auto. Qed.

Lemma last_some_cons (c : ascii) v prev :
  last (map Some (c :: v)) prev = last (map Some v) (Some c).
Proof.
  revert c prev. induction v as [|d v IH]; intros c prev; auto.
  change (last (map Some (c :: d :: v)) prev) with (last (map Some (d :: v)) prev).
  rewrite IH. symmetry. apply (IH d).
Qed.

Lemma wordBefore_last w prev :
  isWord w = true -> wordBefore (last (map Some w) prev) = true.
Proof.
  unfold isWord. intros H. apply andb_prop in H. destruct H as [Hn Ha].
  destruct w as [|c w]; [discriminate|]. clear Hn. revert c prev Ha.
  induction w as [|d w IH]; intros c prev Ha; simpl in Ha.
  - simpl. rewrite andb_true_r in Ha. auto.
  - rewrite last_some_cons. apply andb_prop in Ha. destruct Ha as [_ Ha].
    apply IH. auto.
Qed.

Lemma go_sep w a prev c t : isWord w = true -> isWordChar c = false ->
  replaceGo (wholeWord w) a prev 0 (c :: t) = c :: replaceGo (wholeWord w) a (Some c) 0 t.
Proof.
  intros Hw Hc. simpl. unfold wholeWord.
  assert (H : startsWith w (c :: t) = false).
  { unfold isWord in Hw. destruct w as [|d w']; [discriminate|]. simpl in *.
    destruct (eqc d c) eqn:E; auto. apply Ascii.eqb_eq in E. subst d.
    rewrite Hc in Hw. simpl in Hw. discriminate. }
  rewrite H. rewrite andb_false_r. reflexivity.
Qed.

Lemma go_inside w a u : forall c0 r,
  isWordChar c0 = true -> forallb isWordChar u = true ->
  replaceGo (wholeWord w) a (Some c0) 0 (u ++ r) =
  u ++ replaceGo (wholeWord w) a (last (map Some u) (Some c0)) 0 r.
Proof.
  induction u as [|c u IH]; intros c0 r H0 Hu; [reflexivity|].
  simpl in Hu. apply andb_prop in Hu. destruct Hu as [Hc Hu].
  rewrite last_some_cons. rewrite <- !app_comm_cons. rewrite <- IH by auto.
  cbn [replaceGo]. unfold wholeWord at 1.
  unfold boundary at 1. cbn [wordBefore wordAt]. rewrite H0, Hc. reflexivity.
Qed.

Lemma go_skip (p : pattern) a v : forall prev r,
  replaceGo p a prev (length v) (v ++ r) = replaceGo p a (last (map Some v) prev) 0 r.
Proof.
  induction v as [|c v IH]; intros prev r; [reflexivity|].
  rewrite last_some_cons. simpl. apply IH.
Qed.

Lemma whole_word_match u : forall x r,
  forallb isWordChar x = true -> forallb isWordChar u = true -> wordAt r = false ->
  startsWith x (u ++ r) = true -> wordAt (skipn (length x) (u ++ r)) = false ->
  u = x.
Proof.
  induction u as [|c u IH]; intros x r Hx Hu Hr Hs Hk.
  - destruct x as [|d x]; auto. simpl in *.
    destruct r as [|e r]; [discriminate|]. simpl in *.
    apply andb_prop in Hs. destruct Hs as [Hs _]. apply Ascii.eqb_eq in Hs. subst e.
    apply andb_prop in Hx. destruct Hx as [Hx _]. congruence.
  - simpl in Hu. apply andb_prop in Hu. destruct Hu as [Hc Hu].
    destruct x as [|d x].
    + simpl in Hk. congruence.
    + simpl in *. apply andb_prop in Hs. destruct Hs as [Hs1 Hs2].
      apply Ascii.eqb_eq in Hs1. subst d.
      apply andb_prop in Hx. destruct Hx as [_ Hx].
      f_equal. apply (IH x r Hx Hu Hr Hs2 Hk).
Qed.

Lemma go_word w a u prev r :
  isWord w = true ->
  wordBefore prev = false -> isWord u = true -> wordAt r = false ->
  replaceGo (wholeWord w) a prev 0 (u ++ r) =
  (if eqs u w then a else u) ++ replaceGo (wholeWord w) a (last (map Some u) prev) 0 r.
Proof.
  intros Hw Hp Hu Hr. pose proof Hu as Hu'. unfold isWord in Hu'.
  apply andb_prop in Hu'. destruct Hu' as [Hn Ha].
  destruct u as [|c u]; [discriminate|]. clear Hn.
  pose proof Ha as Ha'. simpl in Ha'. apply andb_prop in Ha'. destruct Ha' as [Hc Hu'].
  rewrite <- app_comm_cons. cbn [replaceGo].
  unfold wholeWord at 1. unfold boundary at 1. cbn [wordAt]. rewrite Hp, Hc.
  cbn [xorb andb].
  destruct (eqs (c :: u) w) eqn:E.
  - apply eqs_true in E. subst w.
    rewrite app_comm_cons, startsWith_app. cbn [andb].
    rewrite skipn_app, skipn_all, Nat.sub_diag. cbn [skipn app].
    unfold boundary. rewrite wordBefore_last by auto. rewrite Hr.
    cbn [xorb length]. rewrite go_skip. rewrite last_some_cons. reflexivity.
  - assert (H : startsWith w (c :: u ++ r)
                && boundary (last (map Some w) prev) (skipn (length w) (c :: u ++ r)) = false).
    { destruct (startsWith w (c :: u ++ r)) eqn:S1; auto. cbn [andb].
      unfold boundary. rewrite wordBefore_last by auto.
      destruct (wordAt (skipn (length w) (c :: u ++ r))) eqn:S2; auto.
      exfalso. unfold isWord in Hw. apply andb_prop in Hw.
      destruct Hw as [_ Hw].
      rewrite (@whole_word_match (c :: u) w r Hw Ha Hr S1 S2) in E.
      rewrite eqs_refl in E. discriminate. }
    rewrite H. rewrite go_inside by auto. rewrite last_some_cons. reflexivity.
Qed.

Lemma go_tokens w a l : isWord w = true -> forall prev,
  wellFormed l = true ->
  wordBefore prev = false \/ match l with Word _ :: _ => False | _ => True end ->
  replaceGo (wholeWord w) a prev 0 (untokens l) = untokens (map (substitute w a) l).
Proof.
  intros Hw.
  induction l as [|[u|c] r IH]; intros prev Hwf Hp; [reflexivity| |].
  - destruct Hp as [Hp|[]]. simpl in Hwf.
    apply andb_prop in Hwf. destruct Hwf as [H H2].
    apply andb_prop in H. destruct H as [H0 H1].
    change (untokens (Word u :: r)) with (u ++ untokens r).
    rewrite go_word; auto.
    + rewrite IH; auto.
      * simpl. destruct (eqs u w); reflexivity.
      * right. destruct r as [|[]]; auto. discriminate.
    + rewrite wordAt_untokens by auto. destruct r as [|[]]; auto; discriminate.
  - simpl in Hwf. apply andb_prop in Hwf. destruct Hwf as [H0 H1].
    apply negb_true_iff in H0.
    change (untokens (Sep c :: r)) with (c :: untokens r).
    rewrite go_sep by auto. rewrite IH; auto.
Qed.

(** [s.replace(/\bw\b/g, a)] replaces the words of [s] that are [w]. *)
Lemma replace_whole_word w a s : isWord w = true ->
  replaceAll (wholeWord w) a s = untokens (map (substitute w a) (tokens s)).
Proof.
  intros Hw. unfold replaceAll. rewrite <- (untokens_tokens s) at 1.
  apply go_tokens; [auto|apply wellFormed_tokens|left; reflexivity].
Qed.

Lemma wellFormed_substitute w a l : isWord a = true ->
  wellFormed l = true -> wellFormed (map (substitute w a) l) = true.
Proof.
  intros Hword.
  induction l as [|[u|c] r IH]; simpl; auto; intros H.
  - apply andb_prop in H. destruct H as [H H2].
    apply andb_prop in H. destruct H as [H0 H1].
    assert (K : match map (substitute w a) r with Word _ :: _ => false | _ => true end = true).
    { destruct r as [|[x|d] r']; simpl; auto; try discriminate;
        try (destruct (eqs x w); discriminate). }
    destruct (eqs u w); simpl; rewrite ?Hword, ?H0, K, IH; auto.
  - apply andb_prop in H. destruct H as [H0 H1]. rewrite H0, IH; auto.
Qed.

Lemma tokens_replace w a s : isWord w = true -> isWord a = true ->
  tokens (replaceAll (wholeWord w) a s) = map (substitute w a) (tokens s).
Proof.
  intros Hw Ha. rewrite replace_whole_word by auto. apply tokens_untokens.
  apply wellFormed_substitute; auto. apply wellFormed_tokens.
Qed.

(** ** Character classes apart *)

Lemma space_not_word c : isSpace c = true -> isWordChar c = false.
Proof. destruct c as [[] [] [] [] [] [] [] []]; vm_compute; congruence. Qed.

Lemma word_not_space c : isWordChar c = true -> isSpace c = false.
Proof. destruct c as [[] [] [] [] [] [] [] []]; vm_compute; congruence. Qed.

Lemma lowerChar_idem c : lowerChar (lowerChar c) = lowerChar c.
Proof. destruct c as [[] [] [] [] [] [] [] []]; vm_compute; reflexivity. Qed.

(** ** What [replace] keeps *)

Lemma replaceGo_Forall (P : ascii -> Prop) (p : pattern) rep s :
  Forall P rep -> Forall P s -> forall prev skip, Forall P (replaceGo p rep prev skip s).
Proof.
  intros Hrep Hs. induction Hs as [|c t Hc Ht IH]; intros prev skip; simpl; auto.
  destruct skip as [|k]; auto.
  destruct (p prev (c :: t)) as [[|k]|]; auto.
  apply Forall_app. auto.
Qed.

Lemma replaceAll_Forall (P : ascii -> Prop) (p : pattern) rep s :
  Forall P rep -> Forall P s -> Forall P (replaceAll p rep s).
Proof. intros. apply replaceGo_Forall; auto. Qed.

(** ** [trim] *)

Lemma trimStart_spec s :
  exists ws, s = ws ++ trimStart s /\ Forall (fun c => isSpace c = true) ws.
Proof.
  induction s as [|c t (ws & E & F)]; simpl.
  - exists []. auto.
  - destruct (isSpace c) eqn:Hc.
    + exists (c :: ws). split; [simpl; congruence|auto].
    + exists []. auto.
Qed.

Lemma trimEnd_spec s :
  exists ws, s = trimEnd s ++ ws /\ Forall (fun c => isSpace c = true) ws.
Proof.
  unfold trimEnd. destruct (trimStart_spec (rev s)) as (ws & E & F).
  exists (rev ws). split.
  - rewrite <- rev_app_distr, <- E, rev_involutive. reflexivity.
  - apply Forall_rev. auto.
Qed.

Lemma trim_spec s :
  exists pre post, s = pre ++ trim s ++ post /\
    Forall (fun c => isSpace c = true) pre /\ Forall (fun c => isSpace c = true) post.
Proof.
  destruct (trimStart_spec s) as (pre & E1 & F1).
  destruct (trimEnd_spec (trimStart s)) as (post & E2 & F2).
  exists pre, post. unfold trim. rewrite <- E2. auto.
Qed.

Lemma trim_Forall (P : ascii -> Prop) s : Forall P s -> Forall P (trim s).
Proof.
  intros H. destruct (trim_spec s) as (pre & post & E & _ & _).
  rewrite E in H. apply Forall_app in H. destruct H as [_ H].
  apply Forall_app in H. tauto.
Qed.

Lemma trimStart_head s :
  match trimStart s with c :: _ => isSpace c = false | [] => True end.
Proof.
  induction s as [|c t IH]; simpl; auto. destruct (isSpace c) eqn:E; auto.
Qed.

Lemma trimStart_fixed s :
  match s with c :: _ => isSpace c = false | [] => True end -> trimStart s = s.
Proof. destruct s as [|c t]; simpl; auto. intros ->. reflexivity. Qed.

Lemma trimStart_idem s : trimStart (trimStart s) = trimStart s.
Proof. apply trimStart_fixed, trimStart_head. Qed.

(** ** Tokens of a trimmed text *)

Lemma tokens_seps ws : Forall (fun c => isSpace c = true) ws -> tokens ws = map Sep ws.
Proof.
  induction 1 as [|c t Hc Ht IH]; simpl; auto.
  rewrite (space_not_word _ Hc), IH. reflexivity.
Qed.

Lemma tokens_app_seps ws s :
  Forall (fun c => isSpace c = true) ws -> tokens (ws ++ s) = map Sep ws ++ tokens s.
Proof.
  induction 1 as [|c t Hc Ht IH]; simpl; auto.
  rewrite (space_not_word _ Hc), IH. reflexivity.
Qed.

Lemma tokens_seps_app s ws :
  Forall (fun c => isSpace c = true) ws -> tokens (s ++ ws) = tokens s ++ map Sep ws.
Proof.
  intros H. induction s as [|c t IH]; simpl.
  - apply tokens_seps. auto.
  - rewrite IH. destruct (isWordChar c); auto.
    destruct (tokens t) as [|[w|d] r]; simpl; auto.
    destruct ws; simpl; auto.
Qed.

Lemma tokens_trim s :
  exists pre post, tokens s = map Sep pre ++ tokens (trim s) ++ map Sep post.
Proof.
  destruct (trim_spec s) as (pre & post & E & F1 & F2).
  exists pre, post. rewrite E at 1.
  rewrite tokens_app_seps, tokens_seps_app by auto. reflexivity.
Qed.

(** ** Stripping punctuation *)

Lemma strip_filter s : forall prev,
  replaceGo (class isPunct) [] prev 0 s = filter (fun c => negb (isPunct c)) s.
Proof.
  induction s as [|c t IH]; intros prev; simpl; auto.
  destruct (isPunct c); simpl; rewrite IH; reflexivity.
Qed.

Lemma strip_fixed s :
  Forall (fun c => isPunct c = false) s -> replaceAll (class isPunct) [] s = s.
Proof.
  intros H. unfold replaceAll. rewrite strip_filter.
  induction H as [|c t Hc Ht IH]; simpl; auto. rewrite Hc. simpl. congruence.
Qed.

Lemma strip_clean s : Forall (fun c => isPunct c = false) (replaceAll (class isPunct) [] s).
Proof.
  unfold replaceAll. rewrite strip_filter.
  induction s as [|c t IH]; simpl; auto.
  destruct (isPunct c) eqn:E; simpl; auto.
Qed.

Local Abbreviation collapse := (replaceGo (plus isSpace) (lit " ")).

Lemma collapse_fixed s : spaced s = true -> forall prev, collapse prev 0 s = s.
Proof.
  induction s as [|c t IH]; intros H prev; auto.
  simpl in H. apply andb_prop in H. destruct H as [Hc Ht].
  cbn [replaceGo]. unfold plus at 1. cbn [runLength].
  destruct (isSpace c) eqn:E.
  - apply andb_prop in Hc. destruct Hc as [H1 H2].
    apply Ascii.eqb_eq in H1. subst c.
    assert (R : runLength isSpace t = 0).
    { destruct t as [|d t]; simpl in *; auto. apply negb_true_iff in H2. rewrite H2. auto. }
    rewrite R. simpl. rewrite IH by auto. reflexivity.
  - rewrite IH by auto. reflexivity.
Qed.

Lemma collapse_spaced s : forall prev,
  spaced (collapse prev 0 s) = true /\
  spaced (collapse prev (runLength isSpace s) s) = true /\
  headIsSpace (collapse prev (runLength isSpace s) s) = false.
Proof.
  induction s as [|c t IH]; intros prev; [simpl; auto|].
  destruct (IH (Some c)) as (I1 & I2 & I3).
  cbn [runLength]. destruct (isSpace c) eqn:E.
  - assert (K0 : collapse prev 0 (c :: t) =
                 " "%char :: collapse (Some c) (runLength isSpace t) t).
    { cbn [replaceGo]. unfold plus at 1. cbn [runLength]. rewrite E. reflexivity. }
    assert (K1 : collapse prev (S (runLength isSpace t)) (c :: t) =
                 collapse (Some c) (runLength isSpace t) t) by reflexivity.
    rewrite K0, K1. split; [|split]; auto.
    cbn [spaced]. rewrite I2, I3. reflexivity.
  - assert (K : collapse prev 0 (c :: t) = c :: collapse (Some c) 0 t).
    { cbn [replaceGo]. unfold plus at 1. cbn [runLength]. rewrite E. reflexivity. }
    rewrite K. cbn [spaced headIsSpace]. rewrite E, I1. auto.
Qed.

Lemma spaced_tail c t : spaced (c :: t) = true -> spaced t = true.
Proof. simpl. intros H. apply andb_prop in H. tauto. Qed.

Lemma spaced_app_l s : forall t, spaced (s ++ t) = true -> spaced s = true.
Proof.
  induction s as [|c s IH]; intros t H; auto.
  simpl in *. apply andb_prop in H. destruct H as [H1 H2].
  rewrite (IH _ H2), andb_true_r.
  destruct (isSpace c); auto.
  apply andb_prop in H1. destruct H1 as [H0 H1]. rewrite H0. simpl.
  destruct s; simpl in *; auto.
Qed.

Lemma spaced_app_r s : forall t, spaced (s ++ t) = true -> spaced t = true.
Proof.
  induction s as [|c s IH]; intros t H; auto.
  simpl in H. apply andb_prop in H. destruct H as [_ H]. auto.
Qed.

Lemma spaced_trim s : spaced s = true -> spaced (trim s) = true.
Proof.
  intros H. destruct (trim_spec s) as (pre & post & E & _ & _).
  rewrite E in H. apply spaced_app_r in H. apply spaced_app_l in H. exact H.
Qed.

Lemma spaced_app_word w s : forallb isWordChar w = true -> spaced (w ++ s) = spaced s.
Proof.
  induction w as [|c w IH]; intros H; auto.
  simpl in H. apply andb_prop in H. destruct H as [Hc Hw].
  simpl. rewrite (word_not_space _ Hc). simpl. auto.
Qed.

Lemma headIsSpace_untokens l :
  wellFormed l = true -> headIsSpace (untokens l) = headSepSpace l.
Proof.
  destruct l as [|[w|c] r]; simpl; auto.
  unfold isWord. intros H. destruct w as [|d w]; [discriminate|]. simpl in *.
  destruct (isWordChar d) eqn:E; [|discriminate].
  apply word_not_space. auto.
Qed.

Lemma spaced_untokens l : wellFormed l = true -> spaced (untokens l) = spacedTokens l.
Proof.
  induction l as [|[w|c] r IH]; intros H; auto.
  - simpl in H. apply andb_prop in H. destruct H as [H H2].
    apply andb_prop in H. destruct H as [H0 H1].
    unfold isWord in H0. apply andb_prop in H0. destruct H0 as [_ H0].
    change (untokens (Word w :: r)) with (w ++ untokens r).
    rewrite spaced_app_word by auto. simpl. auto.
  - simpl in H. apply andb_prop in H. destruct H as [H0 H1].
    change (untokens (Sep c :: r)) with (c :: untokens r).
    simpl. rewrite IH, headIsSpace_untokens by auto. reflexivity.
Qed.

Lemma spacedTokens_substitute w a l :
  spacedTokens (map (substitute w a) l) = spacedTokens l.
Proof.
  induction l as [|[x|c] r IH]; simpl; auto.
  - destruct (eqs x w); simpl; auto.
  - rewrite IH. f_equal. destruct (isSpace c); auto. f_equal. f_equal.
    destruct r as [|[y|d] r']; simpl; auto. destruct (eqs y w); auto.
Qed.

Lemma spaced_replace w a s : isWord w = true -> isWord a = true ->
  spaced (replaceAll (wholeWord w) a s) = spaced s.
Proof.
  intros Hw Ha. rewrite replace_whole_word by auto.
  rewrite spaced_untokens by (apply wellFormed_substitute; auto; apply wellFormed_tokens).
  rewrite spacedTokens_substitute.
  rewrite <- spaced_untokens by apply wellFormed_tokens.
  rewrite untokens_tokens. reflexivity.
Qed.

Lemma abbreviations_sound : sound abbreviations = true.
Proof. vm_compute. reflexivity. Qed.

Lemma tokens_replaceWords l : forall s,
  forallb (fun wa => isWord (fst wa) && isWord (snd wa)) l = true ->
  tokens (replaceWords l s) = map (substituteAll l) (tokens s).
Proof.
  induction l as [|[w a] l IH]; intros s H; simpl.
  - symmetry. apply map_id.
  - simpl in H. apply andb_prop in H. destruct H as [H1 H2].
    apply andb_prop in H1. destruct H1 as [Hw Ha].
    unfold replaceWords in *. rewrite IH by auto.
    rewrite tokens_replace by auto. rewrite map_map. reflexivity.
Qed.

Lemma substitute_unlisted_id w a t l :
  In (w, a) l -> unlistedToken l t = true -> substitute w a t = t.
Proof.
  intros Hin H. destruct t as [x|c]; auto. simpl in *.
  unfold unlisted in H. rewrite forallb_forall in H.
  specialize (H _ Hin). simpl in H. apply negb_true_iff in H. rewrite H. reflexivity.
Qed.

Lemma substituteAll_unlisted_id l L t :
  incl l L -> unlistedToken L t = true -> substituteAll l t = t.
Proof.
  revert t. induction l as [|[w a] l IH]; intros t Hi H; auto.
  simpl. rewrite (@substitute_unlisted_id w a t L); auto.
  - apply IH; auto. intros x Hx. apply Hi. right. auto.
  - apply Hi. left. auto.
Qed.

Lemma substituteAll_sep l c : substituteAll l (Sep c) = Sep c.
Proof. induction l; simpl; auto. Qed.

Lemma substituteAll_unlisted L : sound L = true ->
  forall l pre x, L = pre ++ l -> unlisted pre x = true ->
  unlistedToken L (substituteAll l (Word x)) = true.
Proof.
  intros HL. induction l as [|[w a] l IH]; intros pre x E H.
  - rewrite app_nil_r in E. subst pre. exact H.
  - simpl. destruct (eqs x w) eqn:Ex.
    + assert (Hin : In (w, a) L) by (rewrite E; apply in_or_app; right; left; auto).
      unfold sound in HL. rewrite forallb_forall in HL. specialize (HL _ Hin).
      simpl in HL. apply andb_prop in HL. destruct HL as [_ Hu].
      rewrite (@substituteAll_unlisted_id l L (Word a)); auto.
      intros y Hy. rewrite E. apply in_or_app. right. right. auto.
    + apply (IH (pre ++ [(w, a)])).
      * rewrite <- app_assoc. exact E.
      * unfold unlisted in *. rewrite forallb_app, H. simpl. rewrite Ex. reflexivity.
Qed.

Lemma sound_words L : sound L = true ->
  forallb (fun wa => isWord (fst wa) && isWord (snd wa)) L = true.
Proof.
  unfold sound. rewrite !forallb_forall. intros H x Hx.
  specialize (H x Hx). apply andb_prop in H. tauto.
Qed.

(** After the replacements no word of the text is a word of the list. *)
Lemma replaceWords_unlisted L s : sound L = true ->
  Forall (fun t => unlistedToken L t = true) (tokens (replaceWords L s)).
Proof.
  intros HL. rewrite tokens_replaceWords by (apply sound_words; auto).
  apply Forall_forall. intros t Ht. apply in_map_iff in Ht.
  destruct Ht as ([x|c] & <- & _).
  - apply (@substituteAll_unlisted L HL L [] x); auto.
  - rewrite substituteAll_sep. reflexivity.
Qed.

(** A text with no word of the list is left as it is. *)
Lemma replaceWords_fixed L s : sound L = true ->
  Forall (fun t => unlistedToken L t = true) (tokens s) -> replaceWords L s = s.
Proof.
  intros HL H.
  assert (G : forall l, incl l L -> replaceWords l s = s).
  { induction l as [|[w a] l IH]; intros Hi; auto.
    unfold replaceWords in *. simpl.
    assert (Hin : In (w, a) L) by (apply Hi; left; auto).
    assert (Hw : isWord w = true).
    { apply sound_words in HL. rewrite forallb_forall in HL. specialize (HL _ Hin).
      apply andb_prop in HL. tauto. }
    rewrite replace_whole_word by auto.
    rewrite (map_ext_in _ (fun t => t)).
    - rewrite map_id, untokens_tokens. apply IH. intros x Hx. apply Hi. right. auto.
    - intros t Ht. rewrite Forall_forall in H.
      apply (@substitute_unlisted_id w a t L); auto. }
  apply G. apply incl_refl.
Qed.

Lemma replaceWords_Forall (P : ascii -> Prop) l : forall s,
  Forall (fun wa => Forall P (snd wa)) l -> Forall P s -> Forall P (replaceWords l s).
Proof.
  induction l as [|[w a] l IH]; intros s Hl Hs; auto.
  inversion Hl; subst. unfold replaceWords in *. simpl. apply IH; auto.
  apply replaceAll_Forall; auto.
Qed.

Lemma replaceWords_spaced l : forall s,
  forallb (fun wa => isWord (fst wa) && isWord (snd wa)) l = true ->
  spaced (replaceWords l s) = spaced s.
Proof.
  induction l as [|[w a] l IH]; intros s H; auto.
  simpl in H. apply andb_prop in H. destruct H as [H1 H2].
  apply andb_prop in H1. destruct H1 as [Hw Ha].
  unfold replaceWords in *. simpl. rewrite IH by auto. apply spaced_replace; auto.
Qed.

(** ** [normalizeAddress] twice *)

Lemma Forall_decide (P : ascii -> bool) s : forallb P s = true -> Forall (fun c => P c = true) s.
Proof. rewrite forallb_forall. intros H. apply Forall_forall. auto. Qed.

Lemma abbreviations_lower :
  Forall (fun wa => Forall (fun c => lowerChar c = c) (snd wa)) abbreviations.
Proof. repeat constructor. Qed.

Lemma abbreviations_clean :
  Forall (fun wa => Forall (fun c => isPunct c = false) (snd wa)) abbreviations.
Proof. repeat constructor. Qed.

Lemma toLowerCase_fixed s : Forall (fun c => lowerChar c = c) s -> toLowerCase s = s.
Proof.
  unfold toLowerCase. induction 1 as [|c t Hc Ht IH]; simpl; auto.
  rewrite Hc, IH. reflexivity.
Qed.

Lemma toLowerCase_lower s : Forall (fun c => lowerChar c = c) (toLowerCase s).
Proof.
  induction s as [|c t IH]; simpl; constructor; auto. apply lowerChar_idem.
Qed.

Lemma trim_idem s : trim (trim s) = trim s.
Proof.
  unfold trim at 1.
  assert (H : trimStart (trim s) = trim s).
  { apply trimStart_fixed. unfold trim.
    pose proof (trimStart_head s) as Hh.
    destruct (trimEnd_spec (trimStart s)) as (ws & E & F).
    destruct (trimEnd (trimStart s)) as [|c t] eqn:Et; auto.
    rewrite E in Hh. simpl in Hh. exact Hh. }
  rewrite H. unfold trim, trimEnd.
  rewrite rev_involutive, trimStart_idem. reflexivity.
Qed.

Theorem normalizeAddress_twice x :
  normalizeAddress (normalizeAddress x) = trim (normalizeAddress x).
Proof.
  set (y := normalizeAddress x).
  assert (Hlow : Forall (fun c => lowerChar c = c) y).
  { apply replaceWords_Forall; [apply abbreviations_lower|].
    apply replaceAll_Forall; [repeat constructor|].
    apply replaceAll_Forall; [constructor|].
    apply trim_Forall, toLowerCase_lower. }
  assert (Hclean : Forall (fun c => isPunct c = false) y).
  { apply replaceWords_Forall; [apply abbreviations_clean|].
    apply replaceAll_Forall; [repeat constructor|]. apply strip_clean. }
  assert (Hsp : spaced y = true).
  { unfold y, normalizeAddress, abbreviate. fold (replaceWords abbreviations).
    rewrite replaceWords_spaced by (apply sound_words, abbreviations_sound).
    apply collapse_spaced. }
  assert (Hun : Forall (fun t => unlistedToken abbreviations t = true) (tokens y)).
  { apply replaceWords_unlisted, abbreviations_sound. }
  unfold normalizeAddress at 1. fold y.
  rewrite (toLowerCase_fixed Hlow).
  rewrite strip_fixed by (apply trim_Forall; auto).
  unfold replaceAll at 1. rewrite collapse_fixed by (apply spaced_trim; auto).
  apply replaceWords_fixed; [apply abbreviations_sound|].
  destruct (tokens_trim y) as (pre & post & E). rewrite E in Hun.
  apply Forall_app in Hun. destruct Hun as [_ Hun].
  apply Forall_app in Hun. tauto.
Qed.

Import FloatFacts.

(** * The fuzzy score *)

Lemma trim_length s : length (trim s) <= length s.
Proof.
  destruct (trim_spec s) as (pre & post & E & _). rewrite E at 2.
  rewrite !length_app. lia.
Qed.

Lemma toLowerCase_length s : length (toLowerCase s) = length s.
Proof. apply length_map. Qed.

Lemma startsWith_length p : forall s, startsWith p s = true -> length p <= length s.
Proof.
  induction p as [|x p IH]; intros [|y s]; simpl; try lia; try discriminate.
  intros H. apply andb_prop in H. destruct H as [_ H]. apply IH in H. lia.
Qed.

Lemma includes_length s : forall p, includes s p = true -> length p <= length s.
Proof.
  induction s as [|c s IH]; intros p H; simpl in H.
  - rewrite orb_false_r in H. apply startsWith_length in H. auto.
  - apply orb_prop in H. destruct H as [H|H].
    + apply startsWith_length in H. auto.
    + apply IH in H. simpl. lia.
Qed.

Lemma startsWith_same_length p : forall s, length p = length s -> startsWith p s = eqs p s.
Proof.
  induction p as [|x p IH]; intros [|y s]; simpl; try lia; auto.
  intros H. rewrite IH by lia. reflexivity.
Qed.

Lemma includes_same_length s p : length p = length s -> includes s p = eqs p s.
Proof.
  intros H. destruct s as [|c s]; simpl.
  - destruct p; [reflexivity|discriminate].
  - rewrite (startsWith_same_length p (c :: s)) by auto.
    destruct (includes s p) eqn:E; [|apply orb_false_r].
    apply includes_length in E. simpl in H. lia.
Qed.

Lemma editDistance_sym s1 s2 : editDistance s1 s2 = editDistance s2 s1.
Proof. rewrite !editDistance_levenshtein. unfold levenshtein. apply lev_sym. Qed.

Lemma editDistance_bound s1 s2 : editDistance s1 s2 <= Nat.max (length s1) (length s2).
Proof. rewrite editDistance_levenshtein. apply lev_bound. Qed.

Lemma longerOf_length s1 s2 : length (longerOf s1 s2) = Nat.max (length s1) (length s2).
Proof. unfold longerOf. destruct (Nat.ltb_spec (length s2) (length s1)); lia. Qed.

Lemma shorterOf_length s1 s2 : length (shorterOf s1 s2) = Nat.min (length s1) (length s2).
Proof. unfold shorterOf. destruct (Nat.ltb_spec (length s2) (length s1)); lia. Qed.

Lemma fuzzyMatchScore_unfold a b :
  fuzzyMatchScore a b =
  match a, b with
  | [], _ | _, [] => 0%float
  | _, _ => scoreOf (trim (toLowerCase a)) (trim (toLowerCase b))
  end.
Proof. destruct a, b; reflexivity. Qed.

Lemma scoreOf_sym s1 s2 : scoreOf s1 s2 = scoreOf s2 s1.
Proof.
  unfold scoreOf. rewrite (eqs_sym s2 s1).
  destruct (eqs s1 s2) eqn:E; auto.
  rewrite !longerOf_length, (Nat.max_comm (length s2)).
  destruct (Nat.max (length s1) (length s2) =? 0) eqn:Z0; auto.
  rewrite (editDistance_sym s2 s1).
  unfold longerOf, shorterOf.
  destruct (Nat.ltb_spec (length s2) (length s1)), (Nat.ltb_spec (length s1) (length s2));
    try lia; auto.
  assert (L : length s1 = length s2) by lia.
  rewrite (includes_same_length s2 s1) by lia.
  rewrite (includes_same_length s1 s2) by lia.
  rewrite (eqs_sym s2 s1), E. rewrite L. reflexivity.
Qed.

Theorem fuzzyMatchScore_sym a b : fuzzyMatchScore a b = fuzzyMatchScore b a.
Proof.
  rewrite !fuzzyMatchScore_unfold. destruct a, b; auto. apply scoreOf_sym.
Qed.

Lemma scoreOf_inUnit s1 s2 : jsString s1 -> jsString s2 -> inUnit (scoreOf s1 s2) = true.
Proof.
  unfold jsString. intros H1 H2. unfold scoreOf.
  destruct (eqs s1 s2); [reflexivity|].
  destruct (Nat.eqb_spec (length (longerOf s1 s2)) 0) as [|Hn]; [reflexivity|].
  pose proof (longerOf_length s1 s2) as HL. pose proof (shorterOf_length s1 s2) as HS.
  pose proof (editDistance_bound s1 s2) as HD.
  unfold ofNat.
  destruct (includes (longerOf s1 s2) (shorterOf s1 s2)); apply ratio_inUnit; lia.
Qed.

Lemma fuzzyMatchScore_inUnit a b : jsString a -> jsString b ->
  inUnit (fuzzyMatchScore a b) = true.
Proof.
  intros Ha Hb. rewrite fuzzyMatchScore_unfold. destruct a, b; try reflexivity.
  apply scoreOf_inUnit; unfold jsString in *.
  - pose proof (trim_length (toLowerCase (a :: a0))). rewrite toLowerCase_length in H. lia.
  - pose proof (trim_length (toLowerCase (a1 :: b))). rewrite toLowerCase_length in H. lia.
Qed.

(** * Lengths of intermediate strings *)

(** ** Lengths *)

Lemma replaceGo_length (p : pattern) rep :
  (forall prev s k, p prev s = Some (S k) -> length rep <= S k <= length s) ->
  forall s prev skip, skip <= length s ->
  length (replaceGo p rep prev skip s) + skip <= length s.
Proof.
  intros Hp. induction s as [|c t IH]; intros prev skip Hs; simpl in *; [lia|].
  destruct skip as [|k].
  - destruct (p prev (c :: t)) as [[|k]|] eqn:E.
    + simpl. specialize (IH (Some c) 0). lia.
    + apply Hp in E. simpl in E. rewrite length_app.
      specialize (IH (Some c) k). lia.
    + simpl. specialize (IH (Some c) 0). lia.
  - specialize (IH (Some c) k). lia.
Qed.

Lemma replaceAll_length (p : pattern) rep s :
  (forall prev s k, p prev s = Some (S k) -> length rep <= S k <= length s) ->
  length (replaceAll p rep s) <= length s.
Proof.
  intros Hp. pose proof (@replaceGo_length p rep Hp s None 0). unfold replaceAll. lia.
Qed.

Lemma runLength_length f s : runLength f s <= length s.
Proof. induction s as [|c t IH]; simpl; auto. destruct (f c); lia. Qed.

Lemma class_within f prev s k : class f prev s = Some (S k) -> length (@nil ascii) <= S k <= length s.
Proof.
  unfold class. destruct s as [|c t]; [discriminate|]. destruct (f c); [|discriminate].
  intros H. injection H as <-. simpl. lia.
Qed.

Lemma plus_within f prev s k : plus f prev s = Some (S k) -> length (lit " ") <= S k <= length s.
Proof.
  unfold plus. pose proof (runLength_length f s).
  destruct (runLength f s) as [|n] eqn:E; [discriminate|].
  intros H0. injection H0 as <-. simpl. lia.
Qed.

Lemma wholeWord_within (w a : str) prev s k : length a <= length w ->
  wholeWord w prev s = Some (S k) -> length a <= S k <= length s.
Proof.
  unfold wholeWord. intros Ha.
  destruct (boundary prev s); [|discriminate]. simpl.
  destruct (startsWith w s) eqn:E; [|discriminate]. simpl.
  destruct (boundary _ _); [|discriminate].
  intros H. injection H as H. apply startsWith_length in E. lia.
Qed.

Lemma literal_within (w a : str) prev s k : length a <= length w ->
  literal w prev s = Some (S k) -> length a <= S k <= length s.
Proof.
  unfold literal. intros Ha.
  destruct (startsWith w s) eqn:E; [|discriminate].
  intros H. injection H as H. apply startsWith_length in E. lia.
Qed.

Lemma replaceWords_length l : forall s,
  forallb (fun wa => length (snd wa) <=? length (fst wa)) l = true ->
  length (replaceWords l s) <= length s.
Proof.
  induction l as [|[w a] l IH]; intros s H; simpl; auto.
  simpl in H. apply andb_prop in H. destruct H as [H1 H2]. apply Nat.leb_le in H1.
  unfold replaceWords in *. simpl. eapply Nat.le_trans; [apply IH; auto|].
  apply replaceAll_length. intros prev s' k. apply wholeWord_within. auto.
Qed.

Lemma normalizeAddress_length s : length (normalizeAddress s) <= length s.
Proof.
  unfold normalizeAddress, abbreviate. fold (replaceWords abbreviations).
  eapply Nat.le_trans; [apply replaceWords_length; reflexivity|].
  eapply Nat.le_trans; [apply replaceAll_length; apply plus_within|].
  eapply Nat.le_trans; [apply replaceAll_length; apply class_within|].
  eapply Nat.le_trans; [apply trim_length|]. rewrite toLowerCase_length. auto.
Qed.

Lemma pythonToJson_length s : length (pythonToJson s) <= length s.
Proof.
  unfold pythonToJson.
  eapply Nat.le_trans; [apply replaceAll_length; intros prev s' k; apply literal_within; simpl; lia|].
  eapply Nat.le_trans; [apply replaceAll_length; intros prev s' k; apply literal_within; simpl; lia|].
  eapply Nat.le_trans; [apply replaceAll_length; intros prev s' k; apply literal_within; simpl; lia|].
  apply replaceAll_length; intros prev s' k; apply literal_within; simpl; lia.
Qed.

Lemma splitGo_length sep s : forall cur skip part,
  In part (splitGo sep cur skip s) -> length part <= length cur + length s.
Proof.
  induction s as [|c t IH]; intros cur skip part H; simpl in H.
  - destruct H as [<-|[]]. rewrite length_rev. lia.
  - destruct skip as [|k].
    + destruct (startsWith sep (c :: t)).
      * destruct H as [<-|H]; [rewrite length_rev; lia|].
        apply IH in H. simpl in *. lia.
      * apply IH in H. simpl in *. lia.
    + apply IH in H. simpl. lia.
Qed.

Lemma split_nth_length s sep i : length (nth i (split s sep) []) <= length s.
Proof.
  destruct (nth_in_or_default i (split s sep) []) as [H|H].
  - apply splitGo_length in H. simpl in H. lia.
  - rewrite H. simpl. lia.
Qed.

Lemma storeBrand_length n : length (storeBrand n) <= length n.
Proof.
  unfold storeBrand. destruct (includes n separator); auto.
  eapply Nat.le_trans; [apply trim_length|]. apply split_nth_length.
Qed.

Lemma streetFromName_length n : length (streetFromName n) <= length n.
Proof.
  unfold streetFromName. destruct (includes n separator); cbn [length]; try lia.
  destruct (2 <=? length (split n separator)); cbn [length]; try lia.
  destruct (looksLikeAddress _); cbn [length]; try lia.
  eapply Nat.le_trans; [apply trim_length|]. apply split_nth_length.
Qed.

(** *** Strings of a parsed text *)

Lemma dropWhile_length f s : length (dropWhile f s) <= length s.
Proof. induction s as [|c t IH]; simpl; auto. destruct (f c); simpl; lia. Qed.

Lemma skipWs_length s : length (skipWs s) <= length s.
Proof. apply dropWhile_length. Qed.

Lemma stringGo_length s : forall st acc x r,
  stringGo st acc s = Ok (x, r) ->
  length x <= length acc + length s /\ length r <= length s.
Proof.
  induction s as [|c t IH]; intros st acc x r H; simpl in H; [discriminate|].
  destruct st as [| |k v].
  - destruct (eqc c "034"%char).
    + injection H as <- <-. rewrite length_rev. simpl. lia.
    + destruct (eqc c "\"%char); [apply IH in H; simpl in *; lia|].
      destruct (code c <? 32); [discriminate|].
      apply IH in H. simpl in *. lia.
  - repeat match type of H with
           | (if ?b then _ else _) = _ => destruct b
           end; try discriminate; apply IH in H; simpl in *; lia.
  - destruct (hexValue c); [|discriminate].
    destruct k as [|[|k]]; try (destruct (_ <? 256); [|discriminate]);
      apply IH in H; simpl in *; lia.
Qed.

Lemma exponentPart_length s e r : exponentPart s = Some (e, r) -> length r <= length s.
Proof.
  unfold exponentPart. destruct s as [|c t]; [discriminate|].
  destruct (eqc c "e"%char || eqc c "E"%char); [|discriminate].
  destruct t as [|d u].
  - simpl. discriminate.
  - destruct (eqc d "-"%char).
    + destruct (takeWhile isDigit u); [discriminate|].
      intros H. injection H as _ <-. pose proof (dropWhile_length isDigit u). simpl. lia.
    + destruct (eqc d "+"%char).
      * destruct (takeWhile isDigit u); [discriminate|].
        intros H. injection H as _ <-. pose proof (dropWhile_length isDigit u). simpl. lia.
      * destruct (takeWhile isDigit (d :: u)); [discriminate|].
        intros H. injection H as _ <-. pose proof (dropWhile_length isDigit (d :: u)). simpl in *. lia.
Qed.

Lemma number_length s x r : number s = Ok (x, r) -> length r <= length s.
Proof.
  unfold number.
  set (p1 := match s with
             | c :: t => if eqc c "-"%char then (true, t) else (false, s)
             | [] => (false, s)
             end).
  assert (H1 : length (snd p1) <= length s).
  { unfold p1. destruct s as [|c t]; simpl; auto. destruct (eqc c "-"%char); simpl; lia. }
  destruct p1 as [neg s1]. simpl in H1.
  set (p2 := match s1 with
             | c :: t => if eqc c "0"%char then ([c], t)
                         else (takeWhile isDigit s1, dropWhile isDigit s1)
             | [] => ([], s1)
             end).
  assert (H2 : length (snd p2) <= length s1).
  { unfold p2. destruct s1 as [|c t]; simpl; auto.
    destruct (eqc c "0"%char); simpl; [lia|].
    pose proof (dropWhile_length isDigit t). destruct (isDigit c); simpl; lia. }
  destruct p2 as [int s2]. simpl in H2.
  destruct int as [|i0 int]; [discriminate|].
  set (frac := match s2 with
               | c :: t => if eqc c "."%char
                           then Some (takeWhile isDigit t, dropWhile isDigit t)
                           else None
               | [] => None
               end).
  assert (H3 : match frac with Some (_, s3) => length s3 <= length s2 | None => True end).
  { unfold frac. destruct s2 as [|c t]; auto. destruct (eqc c "."%char); auto.
    pose proof (dropWhile_length isDigit t). simpl. lia. }
  destruct frac as [[[|f0 fr] s3]|]; [discriminate| |].
  - destruct s3 as [|c t].
    + intros H. injection H as _ <-. simpl in *. lia.
    + destruct (eqc c "e"%char || eqc c "E"%char).
      * destruct (exponentPart (c :: t)) as [[e s4]|] eqn:E; [|discriminate].
        apply exponentPart_length in E. intros H. injection H as _ <-. lia.
      * intros H. injection H as _ <-. lia.
  - destruct s2 as [|c t].
    + intros H. injection H as _ <-. simpl in *. lia.
    + destruct (eqc c "e"%char || eqc c "E"%char).
      * destruct (exponentPart (c :: t)) as [[e s4]|] eqn:E; [|discriminate].
        apply exponentPart_length in E. intros H. injection H as _ <-. lia.
      * intros H. injection H as _ <-. lia.
Qed.

Lemma keyword_length w v s v' r : keyword w v s = Ok (v', r) -> length r <= length s.
Proof.
  unfold keyword. destruct (startsWith (lit w) s); [|discriminate].
  intros H. injection H as _ <-. rewrite length_skipn. lia.
Qed.

Lemma value_within fuel :
  (forall s v r, value fuel s = Ok (v, r) ->
     length r <= length s /\ within (length s) v) /\
  (forall acc s v r, elements fuel acc s = Ok (v, r) ->
     length r <= length s /\ within 0 v) /\
  (forall acc s v r b, members fuel acc s = Ok (v, r) ->
     length s <= b -> Forall (memberWithin b) acc ->
     length r <= length s /\ within b v).
Proof.
  induction fuel as [|fuel (IHv & IHe & IHm)]; [repeat split; discriminate|].
  split; [|split].
  - intros s v r H. simpl in H. pose proof (skipWs_length s) as Hs.
    destruct (skipWs s) as [|c t]; [discriminate|]. simpl in Hs.
    destruct (eqc c "{"%char).
    { pose proof (skipWs_length t) as Ht.
      destruct (skipWs t) as [|d u]; [discriminate|]. simpl in Ht.
      destruct (eqc d "}"%char).
      - injection H as <- <-. simpl. split; [lia|constructor].
      - apply (IHm _ _ _ _ (length s)) in H; [|lia|constructor].
        destruct H. split; [lia|auto]. }
    destruct (eqc c "["%char).
    { pose proof (skipWs_length t) as Ht.
      destruct (skipWs t) as [|d u]; [discriminate|]. simpl in Ht.
      destruct (eqc d "]"%char).
      - injection H as <- <-. simpl. split; [lia|auto].
      - apply IHe in H. destruct H as [H Hw]. split; [lia|].
        destruct v; simpl in *; auto; try lia.
        eapply Forall_impl; [|exact Hw]. intros [k [ ]]; unfold memberWithin; simpl; auto; lia. }
    destruct (eqc c "034"%char).
    { destruct (stringGo Plain [] t) as [[x r']| |] eqn:E; try discriminate.
      injection H as <- <-. apply stringGo_length in E. simpl in *. lia. }
    destruct (eqc c "-"%char || isDigit c).
    { destruct (number (c :: t)) as [[x r']| |] eqn:E; try discriminate.
      injection H as <- <-. apply number_length in E. simpl in *. split; [lia|auto]. }
    destruct (eqc c "t"%char).
    { pose proof H as H'. apply keyword_length in H. simpl in H. split; [lia|].
      unfold keyword in H'. destruct (startsWith _ _); [|discriminate].
      injection H' as <- _. simpl. auto. }
    destruct (eqc c "f"%char).
    { pose proof H as H'. apply keyword_length in H. simpl in H. split; [lia|].
      unfold keyword in H'. destruct (startsWith _ _); [|discriminate].
      injection H' as <- _. simpl. auto. }
    destruct (eqc c "n"%char); [|discriminate].
    pose proof H as H'. apply keyword_length in H. simpl in H. split; [lia|].
    unfold keyword in H'. destruct (startsWith _ _); [|discriminate].
    injection H' as <- _. simpl. auto.
  - intros acc s v r H. simpl in H.
    destruct (value fuel s) as [[v0 r0]| |] eqn:E; try discriminate.
    apply IHv in E. destruct E as [E _].
    pose proof (skipWs_length r0) as Hs.
    destruct (skipWs r0) as [|c t]; [discriminate|]. simpl in Hs.
    destruct (eqc c ","%char).
    { apply IHe in H. destruct H. split; [lia|auto]. }
    destruct (eqc c "]"%char); [|discriminate].
    injection H as <- <-. simpl. split; [lia|auto].
  - intros acc s v r b H Hb Hacc. simpl in H.
    pose proof (skipWs_length s) as Hs.
    destruct (skipWs s) as [|q t]; [discriminate|]. simpl in Hs.
    destruct (eqc q "034"%char); [|discriminate].
    destruct (stringGo Plain [] t) as [[k r0]| |] eqn:E; try discriminate.
    apply stringGo_length in E. destruct E as [_ E].
    pose proof (skipWs_length r0) as Hr0.
    destruct (skipWs r0) as [|c u]; [discriminate|]. simpl in Hr0.
    destruct (eqc c ":"%char); [|discriminate].
    destruct (value fuel u) as [[v0 r1]| |] eqn:Ev; try discriminate.
    apply IHv in Ev. destruct Ev as [Ev Wv].
    pose proof (skipWs_length r1) as Hr1.
    destruct (skipWs r1) as [|d w]; [discriminate|]. simpl in Hr1.
    assert (Hkv : memberWithin b (k, v0)).
    { unfold memberWithin. simpl. destruct v0; simpl in *; auto. lia. }
    destruct (eqc d ","%char).
    { apply (IHm _ _ _ _ b) in H; [|lia|constructor; auto].
      destruct H. split; [lia|auto]. }
    destruct (eqc d "}"%char); [|discriminate].
    injection H as <- <-. split; [lia|].
    unfold within. apply Forall_app. split; [apply Forall_rev; auto|constructor; auto].
Qed.

Lemma parse_within text v : parse text = Ok v -> within (length text) v.
Proof.
  unfold parse. destruct (value _ text) as [[v0 r]| |] eqn:E; try discriminate.
  destruct (skipWs r); [|discriminate]. intros H. injection H as <-.
  apply value_within in E. tauto.
Qed.

Lemma getMember_within b v key x :
  within b v -> getMember v key = Some (JStr x) -> length x <= b.
Proof.
  destruct v as [| | | | |ms]; simpl; try discriminate. intros H.
  destruct (filter _ (rev ms)) as [|kv l] eqn:E; [discriminate|].
  intros K. injection K as K.
  assert (Hin : In kv (rev ms)).
  { eapply proj1. apply (filter_In (fun kv => eqs (fst kv) key)). rewrite E. left. auto. }
  apply in_rev in Hin. rewrite Forall_forall in H. specialize (H _ Hin).
  unfold memberWithin in H. rewrite K in H. exact H.
Qed.

(** * The ranking *)

Lemma scoreRecord_inv ts tn record m :
  scoreRecord ts tn record = Return (Some m) ->
  recordOf m = record /\
  parsedStoreName m = storeBrand (Name record) /\
  (exists sa, parsePythonDict (ShippingAddress record) = Return sa /\
              streetOf sa (Name record) = JStr (parsedAddress m)) /\
  parsedAddress m <> [] /\
  nameScore m = JsNumber.max (fuzzyMatchScore tn (toLowerCase (Name record)))
                             (fuzzyMatchScore tn (toLowerCase (storeBrand (Name record)))) /\
  addressScore m = fuzzyMatchScore ts (normalizeAddress (parsedAddress m)) /\
  combinedScore m = (nameScore m * 0.4 + addressScore m * 0.6)%float /\
  JsNumber.gt (combinedScore m) 0.3%float || JsNumber.gt (addressScore m) half = true.
Proof.
  unfold scoreRecord.
  destruct (parsePythonDict (ShippingAddress record)) as [sa| |] eqn:Ep; try discriminate.
  destruct (truthy (streetOf sa (Name record))) eqn:Et; simpl; [|discriminate].
  destruct (streetOf sa (Name record)) as [| | |x| |] eqn:Es; try discriminate.
  destruct (_ || _) eqn:Ef; [|discriminate].
  intros H. injection H as <-. simpl.
  repeat split; auto.
  - destruct record; reflexivity.
  - exists sa. auto.
  - simpl in Et. destruct x; [discriminate|congruence].
Qed.

Lemma scoreRecords_flat ts tn results : forall l,
  scoreRecords ts tn results = Return l -> l = flat_map (keptOf ts tn) results.
Proof.
  induction results as [|r rest IH]; intros l H; simpl in H.
  - injection H as <-. reflexivity.
  - change (flat_map (keptOf ts tn) (r :: rest))
      with (keptOf ts tn r ++ flat_map (keptOf ts tn) rest).
    unfold keptOf at 1.
    destruct (scoreRecord ts tn r) as [o| |]; try discriminate.
    destruct (scoreRecords ts tn rest) as [l'| |]; try discriminate.
    injection H as <-. rewrite <- (IH l' eq_refl). destruct o; reflexivity.
Qed.

Lemma kept_In ts tn results m :
  In m (flat_map (keptOf ts tn) results) ->
  exists record, In record results /\ scoreRecord ts tn record = Return (Some m).
Proof.
  intros H. apply in_flat_map in H. destruct H as (r & Hr & Hm).
  exists r. split; auto. unfold keptOf in Hm.
  destruct (scoreRecord ts tn r) as [[m'|]| |]; simpl in Hm; try tauto.
  destruct Hm as [<-|[]]. reflexivity.
Qed.

Lemma getSalesforceMetadataByAddress_inv params results out :
  getSalesforceMetadataByAddress params results = Return out ->
  out = firstn 10 (sort byCombinedScore
          (flat_map (keptOf (targetStreetOf params) (targetStoreNameOf params)) results)).
Proof.
  unfold getSalesforceMetadataByAddress.
  destruct results as [|r rest]; [intros H; injection H as <-; reflexivity|].
  fold (targetStreetOf params). fold (targetStoreNameOf params).
  destruct (scoreRecords _ _ (r :: rest)) as [l| |] eqn:E; try discriminate.
  intros H. injection H as <-. apply scoreRecords_flat in E. subst l. reflexivity.
Qed.

(** *** The sort *)

Lemma insertBy_perm (A : Type) (cmp : A -> A -> float) x l :
  Permutation (insertBy cmp x l) (x :: l).
Proof.
  induction l as [|y t IH]; simpl; auto.
  destruct (JsNumber.gt (cmp x y) 0); auto.
  eapply perm_trans; [apply perm_skip, IH|apply perm_swap].
Qed.

Lemma sort_perm (A : Type) (cmp : A -> A -> float) l : Permutation (sort cmp l) l.
Proof.
  induction l as [|x t IH]; simpl; auto.
  eapply perm_trans; [apply insertBy_perm|]. apply perm_skip, IH.
Qed.

Lemma byCombinedScore_gt x y : ordered x -> ordered y ->
  JsNumber.gt (byCombinedScore x y) 0 = (combinedScore x <? combinedScore y)%float.
Proof. intros Hx Hy. apply difference_sign; auto. Qed.

Lemma insertBy_descending x l :
  ordered x -> Forall ordered l -> Sorted descending l ->
  Sorted descending (insertBy byCombinedScore x l).
Proof.
  intros Hx Hl Hs. induction l as [|y t IH]; simpl.
  - constructor; auto.
  - inversion Hl as [|? ? Hy Ht]; subst. inversion Hs as [|? ? Hst Hhd]; subst.
    rewrite byCombinedScore_gt by auto.
    destruct (combinedScore x <? combinedScore y)%float eqn:E.
    + constructor; auto.
      destruct t as [|z t']; simpl.
      * constructor. unfold descending, JsNumber.ge. apply ltb_leb. auto.
      * inversion Ht as [|? ? Hz Ht']; subst.
        rewrite byCombinedScore_gt by auto.
        destruct (combinedScore x <? combinedScore z)%float.
        -- inversion Hhd; subst. constructor. auto.
        -- constructor. unfold descending, JsNumber.ge. apply ltb_leb. auto.
    + constructor; auto. constructor.
      unfold descending, JsNumber.ge. apply not_ltb_leb; auto.
Qed.

Lemma sort_ordered l : Forall ordered l -> Forall ordered (sort byCombinedScore l).
Proof.
  intros H. apply Forall_forall. intros m Hm. rewrite Forall_forall in H. apply H.
  eapply Permutation_in; [apply sort_perm|exact Hm].
Qed.

Lemma sort_descending l : Forall ordered l -> Sorted descending (sort byCombinedScore l).
Proof.
  induction 1 as [|x t Hx Ht IH]; simpl; [constructor|].
  apply insertBy_descending; auto. apply sort_ordered. auto.
Qed.

Lemma insertBy_tie c x l : ordered x -> Forall ordered l ->
  filter (tie c) (insertBy byCombinedScore x l) = filter (tie c) (x :: l).
Proof.
  intros Hx Hl. induction Hl as [|y t Hy Ht IH]; auto.
  cbn [insertBy]. rewrite byCombinedScore_gt by auto.
  destruct (combinedScore x <? combinedScore y)%float eqn:E; auto.
  cbn [filter] in *. rewrite IH.
  destruct (tie c x) eqn:Tx; auto.
  unfold tie in *. rewrite (ltb_eqb_apart E Tx). reflexivity.
Qed.

Lemma sort_tie c l : Forall ordered l ->
  filter (tie c) (sort byCombinedScore l) = filter (tie c) l.
Proof.
  induction 1 as [|x t Hx Ht IH]; auto.
  simpl sort. rewrite insertBy_tie by (auto; apply sort_ordered; auto).
  simpl. rewrite IH. reflexivity.
Qed.

Lemma Sorted_firstn (A : Type) (R : A -> A -> Prop) n : forall l,
  Sorted R l -> Sorted R (firstn n l).
Proof.
  induction n as [|n IH]; intros l H; simpl; [constructor|].
  destruct l as [|x t]; [constructor|].
  inversion H as [|? ? Ht Hh]; subst. constructor; auto.
  destruct n; simpl; [constructor|]. destruct t; [constructor|].
  inversion Hh; subst. constructor. auto.
Qed.

(** *** Scores of sized inputs *)

Lemma jsString_le (s t : str) : length s <= length t -> jsString t -> jsString s.
Proof. unfold jsString. lia. Qed.

Lemma streetOf_sized record sa x :
  sizedRecord record ->
  parsePythonDict (ShippingAddress record) = Return sa ->
  streetOf sa (Name record) = JStr x -> jsString x.
Proof.
  intros [Hn Hs] Hp Hx. unfold streetOf in Hx.
  destruct (shippingStreet sa) as [st|] eqn:Est.
  - subst st. unfold shippingStreet in Est.
    destruct sa as [v|]; [|discriminate].
    destruct (truthy v); [|discriminate].
    destruct (getMember v (lit "street")) as [st|] eqn:Eg; [|discriminate].
    destruct (truthy st); [|discriminate]. injection Est as ->.
    unfold parsePythonDict in Hp.
    destruct (ShippingAddress record) as [[|c text]|]; try discriminate.
    destruct (parse (c :: text)) as [v0| |] eqn:E1; try discriminate.
    + injection Hp as ->. apply parse_within in E1.
      eapply jsString_le; [|exact Hs]. eapply getMember_within; eauto.
    + destruct (parse (pythonToJson (c :: text))) as [v0| |] eqn:E2; try discriminate.
      injection Hp as ->. apply parse_within in E2.
      eapply jsString_le; [|exact Hs].
      eapply Nat.le_trans; [eapply getMember_within; eauto|]. apply pythonToJson_length.
  - injection Hx as <-. eapply jsString_le; [apply streetFromName_length|auto].
Qed.

Lemma targetStreetOf_sized params : sizedParams params -> jsString (targetStreetOf params).
Proof. intros [H _]. eapply jsString_le; [apply normalizeAddress_length|auto]. Qed.

Lemma targetStoreNameOf_sized params :
  sizedParams params -> jsString (targetStoreNameOf params).
Proof.
  intros [_ H]. eapply jsString_le; [|exact H]. unfold targetStoreNameOf.
  eapply Nat.le_trans; [apply trim_length|]. rewrite toLowerCase_length. auto.
Qed.

Lemma scoreRecord_inUnit ts tn record m :
  jsString ts -> jsString tn -> sizedRecord record ->
  scoreRecord ts tn record = Return (Some m) ->
  inUnit (nameScore m) = true /\ inUnit (addressScore m) = true.
Proof.
  intros Hts Htn Hr H. apply scoreRecord_inv in H.
  destruct H as (_ & _ & (sa & Hp & Hs) & _ & Hn & Ha & _).
  rewrite Hn, Ha. split.
  - apply max_inUnit; apply fuzzyMatchScore_inUnit; auto.
    + eapply jsString_le; [|apply Hr]. rewrite toLowerCase_length. auto.
    + eapply jsString_le; [|apply Hr]. rewrite toLowerCase_length. apply storeBrand_length.
  - apply fuzzyMatchScore_inUnit; auto.
    eapply jsString_le; [apply normalizeAddress_length|].
    eapply streetOf_sized; eauto.
Qed.

Lemma kept_ordered params results :
  sizedParams params -> Forall sizedRecord results ->
  Forall ordered (flat_map (keptOf (targetStreetOf params) (targetStoreNameOf params)) results).
Proof.
  intros Hp Hr. apply Forall_forall. intros m Hm.
  apply kept_In in Hm. destruct Hm as (r & Hin & Hs).
  rewrite Forall_forall in Hr.
  pose proof Hs as Hs'. apply scoreRecord_inv in Hs'.
  destruct Hs' as (_ & _ & _ & _ & _ & _ & Hc & _).
  apply scoreRecord_inUnit in Hs; auto using targetStreetOf_sized, targetStoreNameOf_sized.
  unfold ordered. rewrite Hc. apply combined_nonneg; tauto.
Qed.

(** * The extraction of a street *)

Lemma test_digit s : test (plus isDigit) s = hasDigit s.
Proof.
  unfold test, hasDigit. generalize (@None ascii).
  induction s as [|c t IH]; intros prev; [reflexivity|].
  cbn [testGo existsb]. unfold plus at 1. cbn [runLength].
  destruct (isDigit c); [reflexivity|]. apply IH.
Qed.

Lemma existsb_same (A : Type) (f g : A -> bool) l :
  (forall x, f x = g x) -> existsb f l = existsb g l.
Proof. intros H. induction l as [|x l IH]; simpl; auto. rewrite H, IH. reflexivity. Qed.

Lemma existsb_orb (A : Type) (f g : A -> bool) l :
  existsb (fun x => f x || g x) l = existsb f l || existsb g l.
Proof.
  induction l as [|x l IH]; simpl; auto. rewrite IH.
  destruct (f x), (g x), (existsb f l); simpl; auto.
Qed.

Lemma anyOf_existsb ws prev s :
  match anyOfIgnoreCase ws prev s with Some _ => true | None => false end =
  existsb (fun w => startsWith w (toLowerCase s)) ws.
Proof.
  unfold anyOfIgnoreCase. induction ws as [|w ws IH]; simpl; auto.
  destruct (startsWith w (toLowerCase s)); auto.
Qed.

Lemma testGo_unfold (p : pattern) prev s :
  testGo p prev s =
  match p prev s with Some _ => true | None => false end
  || match s with [] => false | c :: t => testGo p (Some c) t end.
Proof. destruct s; simpl; destruct (p prev _); reflexivity. Qed.

Lemma test_suffix ws s :
  test (anyOfIgnoreCase ws) s = existsb (fun w => includes (toLowerCase s) w) ws.
Proof.
  unfold test. generalize (@None ascii).
  induction s as [|c t IH]; intros prev; rewrite testGo_unfold, anyOf_existsb.
  - rewrite orb_false_r. apply existsb_same. intros w. simpl.
    rewrite orb_false_r. reflexivity.
  - rewrite IH. rewrite <- existsb_orb. apply existsb_same. intros w. reflexivity.
Qed.

Lemma looksLikeAddress_spec p : looksLikeAddress p = hasDigit p || hasStreetSuffix p.
Proof. unfold looksLikeAddress. rewrite test_digit, test_suffix. reflexivity. Qed.

Lemma streetFromName_none n :
  includes n separator = false \/
  (hasDigit (partAfterSeparator n) = false /\ hasStreetSuffix (partAfterSeparator n) = false) ->
  streetFromName n = [].
Proof.
  unfold streetFromName. intros [H|[H1 H2]].
  - rewrite H. reflexivity.
  - destruct (includes n separator); auto.
    destruct (2 <=? length (split n separator)); auto.
    fold (partAfterSeparator n). rewrite looksLikeAddress_spec, H1, H2. reflexivity.
Qed.

Lemma scoreRecord_unaddressed ts tn record sa :
  parsePythonDict (ShippingAddress record) = Return sa ->
  shippingStreet sa = None ->
  streetFromName (Name record) = [] ->
  scoreRecord ts tn record = Return None.
Proof.
  intros Hp Hs Hn. unfold scoreRecord. rewrite Hp. unfold streetOf. rewrite Hs, Hn.
  reflexivity.
Qed.

Lemma In_firstn (A : Type) n (x : A) : forall l, In x (firstn n l) -> In x l.
Proof.
  induction n as [|n IH]; intros [|y l] H; simpl in *; try tauto.
  destruct H; auto.
Qed.

Lemma ranked_In params results out m :
  getSalesforceMetadataByAddress params results = Return out -> In m out ->
  exists record, In record results /\
    scoreRecord (targetStreetOf params) (targetStoreNameOf params) record = Return (Some m).
Proof.
  intros H Hm. apply getSalesforceMetadataByAddress_inv in H. subst out.
  apply In_firstn in Hm. apply kept_In.
  eapply Permutation_in; [apply sort_perm|exact Hm].
Qed.

(** Multiplication of binary64 values commutes. *)
Lemma SFmul_comm x y : SFmul prec emax x y = SFmul prec emax y x.
Proof.
  destruct x as [sx|sx| |sx mx ex], y as [sy|sy| |sy my ey]; simpl; auto;
    try (rewrite (xorb_comm sx sy); reflexivity).
  rewrite (xorb_comm sx sy), (Pos.mul_comm mx my), (Z.add_comm ex ey). reflexivity.
Qed.

Lemma mul_comm (x y : float) : (x * y = y * x)%float.
Proof.
  apply Prim2SF_inj. rewrite !FloatAxioms.mul_spec. apply SFmul_comm.
Qed.

Lemma toLowerCase_idem s : toLowerCase (toLowerCase s) = toLowerCase s.
Proof. apply toLowerCase_fixed, toLowerCase_lower. Qed.

Lemma fuzzyMatchScore_lower_r a b :
  fuzzyMatchScore a (toLowerCase b) = fuzzyMatchScore a b.
Proof.
  rewrite !fuzzyMatchScore_unfold. rewrite toLowerCase_idem.
  destruct a, b; reflexivity.
Qed.

Lemma positive_not_nan x : (0 <? x)%float = true -> PrimFloat.is_nan x = false.
Proof.
  intros H. apply is_nan_false. rewrite FloatAxioms.ltb_spec in H.
  change (Prim2SF 0) with (S754_zero false) in H.
  destruct (Prim2SF x) as [s|[]| |[] m e]; simpl in *; auto; discriminate.
Qed.

(** * The properties of the matcher *)

Local Open Scope float_scope.

(** C1: the query for the store Acme at 456 Oak Avenue, ranked against the
    single record named Acme Storage - 456 Oak Ave that has no shipping
    address (whatever its other fields, and whatever the city, state and
    postal code of the query), returns exactly one match.  Its brand is
    Acme Storage and its street 456 Oak Ave; the street of the query and the
    street of the match both normalise to 456 oak ave, so the address score
    is 1, and the combined score is at least 0.6. *)
Theorem acme_query_scores city state postalCode yearBuilt netRsf :
  exists m,
    getSalesforceMetadataByAddress (acmeQuery city state postalCode)
      [acmeRecord yearBuilt netRsf] = Return [m]
    /\ parsedStoreName m = lit "Acme Storage"
    /\ parsedAddress m = lit "456 Oak Ave"
    /\ normalizeAddress (street (acmeQuery city state postalCode)) = lit "456 oak ave"
    /\ normalizeAddress (parsedAddress m) = lit "456 oak ave"
    /\ addressScore m = 1
    /\ JsNumber.ge (combinedScore m) 0.6 = true.
Proof.
  eexists. split; [vm_compute; reflexivity|].
  repeat split; vm_compute; reflexivity.
Qed.

(** C9: the shipping address of the record named X is no JSON text, and
    [parsePythonDict] reads it, after its single quotes are replaced, as an
    object with the members street and city.  The brand of the record is X,
    the street taken from the record is 789 Pine Rd, and the ranking of the
    record returns a match with that brand and that street. *)
Theorem pine_record_extracted yearBuilt netRsf :
  parse pineText = SyntaxError
  /\ parsePythonDict (Some pineText) =
       Return (Some (JObj [(lit "street", JStr (lit "789 Pine Rd"));
                           (lit "city", JStr (lit "Metro"))]))
  /\ storeBrand (Name (pineRecord yearBuilt netRsf)) = lit "X"
  /\ (exists sa,
        parsePythonDict (ShippingAddress (pineRecord yearBuilt netRsf)) = Return sa
        /\ streetOf sa (Name (pineRecord yearBuilt netRsf)) = JStr (lit "789 Pine Rd"))
  /\ exists m,
       getSalesforceMetadataByAddress pineQuery [pineRecord yearBuilt netRsf] = Return [m]
       /\ parsedStoreName m = lit "X"
       /\ parsedAddress m = lit "789 Pine Rd".
Proof.
  split; [vm_compute; reflexivity|].
  split; [vm_compute; reflexivity|].
  split; [vm_compute; reflexivity|].
  split.
  - eexists. split; vm_compute; reflexivity.
  - eexists. split; [vm_compute; reflexivity|]. split; vm_compute; reflexivity.
Qed.

(** C5: from a non-empty result the client builds metadata that is marked
    as matched and carries the combined score of the first match.  The year
    built is a number [y] exactly when the raw field is a non-empty text
    that [parseInt] reads as [y] with [1900 <= y <= 2030]; the square
    footage is a number [x] exactly when the raw field is a non-empty text
    that [parseFloat] reads as [x] with [0 < x]; otherwise the field is
    absent.  So the raw year 1850 is absent and the raw year 2005 is kept
    as 2005. *)
Theorem metadata_sanitised record rest :
  exists md,
    Api.getSalesforceMetadataByAddress (record :: rest) = Some md
    /\ Api.matched md = true
    /\ Api.matchScore md = combinedScore record
    /\ (forall y, Api.yearBuilt md = Some y <->
          exists text, matchYearBuilt record = Some text
                       /\ Api.parseInt10 text = Some y
                       /\ (1900 <= y <= 2030)%Z)
    /\ (forall x, Api.squareFootage md = Some x <->
          exists text, matchNetRsf record = Some text
                       /\ Api.parseFloat text = x
                       /\ (0 <? x) = true)
    /\ Api.sanitizeYearBuilt (Some (lit "1850")) = None
    /\ Api.sanitizeYearBuilt (Some (lit "2005")) = Some 2005%Z.
Proof.
  eexists. split; [reflexivity|]. simpl.
  split; [reflexivity|]. split; [reflexivity|].
  split; [|split; [|split; reflexivity]].
  - intros y. unfold Api.sanitizeYearBuilt. split.
    + destruct (matchYearBuilt record) as [[|c text]|]; try discriminate.
      destruct (Api.parseInt10 (c :: text)) as [parsed|] eqn:E; try discriminate.
      destruct (Z.leb_spec 1900 parsed), (Z.leb_spec parsed 2030); simpl; try discriminate.
      intros K. injection K as <-. exists (c :: text). repeat split; auto.
    + intros (text & -> & Hp & H1 & H2).
      destruct text as [|c text]; [discriminate|]. rewrite Hp.
      destruct (Z.leb_spec 1900 y), (Z.leb_spec y 2030); simpl; auto; lia.
  - intros x. unfold Api.sanitizeSquareFootage. split.
    + destruct (matchNetRsf record) as [[|c text]|]; try discriminate.
      destruct (PrimFloat.is_nan _); simpl; try discriminate.
      unfold JsNumber.gt.
      destruct (0 <? Api.parseFloat (c :: text)) eqn:E; try discriminate.
      intros K. injection K as <-. exists (c :: text). auto.
    + intros (text & -> & <- & Hpos).
      destruct text as [|c text]; [discriminate|].
      rewrite (positive_not_nan Hpos). unfold JsNumber.gt. rewrite Hpos. reflexivity.
Qed.

(** C3: every match the ranking returns was made from a record of the
    input, and its combined score is above 0.3 or its address score is above
    0.5: no returned match has a combined score of at most 0.3 together with
    an address score of at most 0.5. *)
Theorem ranked_relevant params results out m :
  getSalesforceMetadataByAddress params results = Return out -> In m out ->
  In (recordOf m) results
  /\ JsNumber.gt (combinedScore m) 0.3 || JsNumber.gt (addressScore m) 0.5 = true
  /\ (combinedScore m <=? 0.3) && (addressScore m <=? 0.5) = false.
Proof.
  intros H Hm. destruct (@ranked_In _ _ _ _ H Hm) as (record & Hin & Hs).
  apply scoreRecord_inv in Hs. destruct Hs as (Hr & _ & _ & _ & _ & _ & _ & Hf).
  rewrite Hr. split; auto. split; [exact Hf|].
  apply orb_prop in Hf. destruct Hf as [Hf|Hf]; apply gt_not_leb in Hf.
  - rewrite Hf. reflexivity.
  - unfold half in Hf. rewrite Hf. apply andb_false_r.
Qed.

(** An instance: the Acme query and its one record. *)
Lemma ranked_relevant_witness :
  getSalesforceMetadataByAddress (acmeQuery [] [] []) [acmeRecord None None]
    = Return [acmeMatch]
  /\ In acmeMatch [acmeMatch]
  /\ In (recordOf acmeMatch) [acmeRecord None None]
  /\ JsNumber.gt (combinedScore acmeMatch) 0.3
     || JsNumber.gt (addressScore acmeMatch) 0.5 = true
  /\ (combinedScore acmeMatch <=? 0.3) && (addressScore acmeMatch <=? 0.5) = false.
Proof.
  assert (H : getSalesforceMetadataByAddress (acmeQuery [] [] []) [acmeRecord None None]
              = Return [acmeMatch]) by (vm_compute; reflexivity).
  split; [exact H|]. split; [left; reflexivity|].
  exact (@ranked_relevant _ _ _ _ H (or_introl eq_refl)).
Defined.

(** C4, as stated, fails: the record named Acme Storage - Westside has no
    shipping address, and the part of its name after the separator is the
    one word Westside, which has no digit and is none of the street
    suffixes; no suffix occurs in it as a whole word.  The test of the
    source looks for a suffix anywhere in the text and finds st inside
    Westside: the street of the record is Westside, and for a query with the
    store name Acme Storage the record is scored and returned, with the name
    score 1 and an address score below 0.5. *)
Lemma westside_record_scored :
  parsePythonDict (ShippingAddress westsideRecord) = Return None
  /\ shippingStreet None = None
  /\ includes (Name westsideRecord) separator = true
  /\ partAfterSeparator (Name westsideRecord) = lit "Westside"
  /\ hasDigit (lit "Westside") = false
  /\ tokens (lit "Westside") = [Word (lit "Westside")]
  /\ existsb (eqs (toLowerCase (lit "Westside"))) streetSuffixes = false
  /\ existsb (fun w => test (wholeWord w) (toLowerCase (lit "Westside"))) streetSuffixes
     = false
  /\ includes (toLowerCase (lit "Westside")) (lit "st") = true
  /\ streetOf None (Name westsideRecord) = JStr (lit "Westside")
  /\ getSalesforceMetadataByAddress storageQuery [westsideRecord] = Return [westsideMatch]
  /\ recordOf westsideMatch = westsideRecord
  /\ (addressScore westsideMatch <=? half)%float = true.
Proof. repeat split; vm_compute; reflexivity. Qed.

(** C4, amended: a record for which no street is found is left out of the
    ranking, where the test of the part after the separator is for a suffix
    anywhere in it.  When the parsed shipping address of a record has no
    non-empty street, and the name of the record has no separator or the
    part after the separator has neither a digit nor, anywhere in it and
    without regard to case, one of st, ave, rd, blvd, dr, way, lane, court,
    then the street of the record is empty, the record is not scored, and no
    returned match was made from it.  In particular the record named Acme
    Storage - Downtown that has no shipping address has no street, and
    ranking it alone returns no match. *)
Theorem unaddressed_record_excluded params results record sa :
  In record results ->
  parsePythonDict (ShippingAddress record) = Return sa ->
  shippingStreet sa = None ->
  includes (Name record) separator = false \/
  (hasDigit (partAfterSeparator (Name record)) = false /\
   hasStreetSuffix (partAfterSeparator (Name record)) = false) ->
  streetOf sa (Name record) = JStr []
  /\ scoreRecord (targetStreetOf params) (targetStoreNameOf params) record = Return None
  /\ (forall out, getSalesforceMetadataByAddress params results = Return out ->
        forall m, In m out -> recordOf m <> record)
  /\ streetOf None (Name downtownRecord) = JStr []
  /\ forall query, getSalesforceMetadataByAddress query [downtownRecord] = Return [].
Proof.
  intros Hin Hp Hs Hn. apply streetFromName_none in Hn.
  assert (Hnone : forall ts tn, scoreRecord ts tn record = Return None)
    by (intros; eapply scoreRecord_unaddressed; eauto).
  split; [unfold streetOf; rewrite Hs, Hn; reflexivity|].
  split; [apply Hnone|].
  split; [|split; [vm_compute; reflexivity|intros query; reflexivity]].
  intros out Hout m Hm Heq.
  destruct (@ranked_In _ _ _ _ Hout Hm) as (r & _ & Hr).
  pose proof Hr as Hr'. apply scoreRecord_inv in Hr'. destruct Hr' as (Hrec & _).
  rewrite Heq in Hrec. subst r. rewrite Hnone in Hr. discriminate.
Qed.

(** An instance: the Downtown record, ranked alone for the Pine query. *)
Lemma unaddressed_record_excluded_witness :
  In downtownRecord [downtownRecord]
  /\ parsePythonDict (ShippingAddress downtownRecord) = Return None
  /\ shippingStreet None = None
  /\ (includes (Name downtownRecord) separator = false \/
      (hasDigit (partAfterSeparator (Name downtownRecord)) = false /\
       hasStreetSuffix (partAfterSeparator (Name downtownRecord)) = false))
  /\ streetOf None (Name downtownRecord) = JStr []
  /\ scoreRecord (targetStreetOf pineQuery) (targetStoreNameOf pineQuery) downtownRecord
     = Return None
  /\ (forall out, getSalesforceMetadataByAddress pineQuery [downtownRecord] = Return out ->
        forall m, In m out -> recordOf m <> downtownRecord)
  /\ streetOf None (Name downtownRecord) = JStr []
  /\ forall query, getSalesforceMetadataByAddress query [downtownRecord] = Return [].
Proof.
  assert (H1 : In downtownRecord [downtownRecord]) by (left; reflexivity).
  assert (H2 : parsePythonDict (ShippingAddress downtownRecord) = Return None)
    by reflexivity.
  assert (H3 : shippingStreet None = None) by reflexivity.
  assert (H4 : includes (Name downtownRecord) separator = false \/
      (hasDigit (partAfterSeparator (Name downtownRecord)) = false /\
       hasStreetSuffix (partAfterSeparator (Name downtownRecord)) = false))
    by (right; split; vm_compute; reflexivity).
  split; [exact H1|]. split; [exact H2|]. split; [exact H3|]. split; [exact H4|].
  exact (@unaddressed_record_excluded pineQuery _ _ _ H1 H2 H3 H4).
Defined.

(** C6, as stated, fails: a period at the start of the text is removed after
    the text was trimmed, which leaves the space that followed it at the
    start of the normal form; normalising once more trims that space. *)
Lemma normalizeAddress_not_idempotent :
  normalizeAddress (lit ". a") = lit " a"
  /\ normalizeAddress (normalizeAddress (lit ". a")) = lit "a"
  /\ eqs (normalizeAddress (normalizeAddress (lit ". a"))) (normalizeAddress (lit ". a"))
     = false.
Proof. repeat split; vm_compute; reflexivity. Qed.

(** C6, amended: normalising a normal form trims it and changes nothing
    else, so normalising a third time changes nothing at all. *)
Theorem normalizeAddress_idempotent_up_to_trim x :
  normalizeAddress (normalizeAddress x) = trim (normalizeAddress x)
  /\ normalizeAddress (normalizeAddress (normalizeAddress x))
     = normalizeAddress (normalizeAddress x).
Proof.
  split; [apply normalizeAddress_twice|].
  rewrite (normalizeAddress_twice (normalizeAddress x)).
  rewrite (normalizeAddress_twice x). apply trim_idem.
Qed.

(** C7: the fuzzy score is symmetric; the two scores are the same binary64
    value. *)
Theorem fuzzyMatchScore_symmetric a b : fuzzyMatchScore a b = fuzzyMatchScore b a.
Proof. apply fuzzyMatchScore_sym. Qed.

(** C8: for strings [a] and [b] (of lengths a JavaScript string can have),
    with [s1] and [s2] their lower-cased and trimmed forms, [longer] the
    longer and [shorter] the shorter of the two: the fuzzy score is 0 when
    [a] or [b] is empty; otherwise it is 1 when [s1] and [s2] are equal;
    otherwise it is the length of [shorter] divided by the length of
    [longer] when [longer] contains [shorter]; otherwise it is the length of
    [longer] less the Levenshtein distance of [s1] and [s2], divided by
    the length of [longer], which as a rational number is 1 less the
    distance divided by that length.  The length of [longer] is the greater
    of the two lengths.  In every case the score lies between 0 and 1. *)
Theorem fuzzyMatchScore_cases a b :
  jsString a -> jsString b ->
  let s1 := trim (toLowerCase a) in
  let s2 := trim (toLowerCase b) in
  let longer := longerOf s1 s2 in
  let shorter := shorterOf s1 s2 in
  (a = [] \/ b = [] -> fuzzyMatchScore a b = 0)
  /\ (a <> [] -> b <> [] -> s1 = s2 -> fuzzyMatchScore a b = 1)
  /\ (a <> [] -> b <> [] -> s1 <> s2 -> includes longer shorter = true ->
        fuzzyMatchScore a b = JsNumber.ofNat (length shorter) / JsNumber.ofNat (length longer)
        /\ (length shorter <= length longer)%nat)
  /\ (a <> [] -> b <> [] -> s1 <> s2 -> includes longer shorter = false ->
        fuzzyMatchScore a b =
          JsNumber.ofZ (Z.of_nat (length longer) - Z.of_nat (levenshtein s1 s2))
          / JsNumber.ofNat (length longer)
        /\ (0 < length longer)%nat
        /\ (levenshtein s1 s2 <= length longer)%nat
        /\ (inject_Z (Z.of_nat (length longer) - Z.of_nat (levenshtein s1 s2))
              / inject_Z (Z.of_nat (length longer))
            == 1 - inject_Z (Z.of_nat (levenshtein s1 s2))
                   / inject_Z (Z.of_nat (length longer)))%Q)
  /\ length longer = Nat.max (length s1) (length s2)
  /\ inUnit (fuzzyMatchScore a b) = true.
Proof.
  intros Ha Hb s1 s2 longer shorter.
  assert (Hne : s1 <> s2 -> eqs s1 s2 = false).
  { intros H. destruct (eqs s1 s2) eqn:E; auto. apply eqs_true in E. contradiction. }
  assert (Hlen : length longer = Nat.max (length s1) (length s2)) by apply longerOf_length.
  assert (Hpos : s1 <> s2 -> (0 < length longer)%nat).
  { intros H. rewrite Hlen. destruct s1, s2; simpl; try lia. contradiction. }
  split; [|split; [|split; [|split; [|split]]]].
  - rewrite fuzzyMatchScore_unfold. intros [->| ->]; [reflexivity|]. destruct a; reflexivity.
  - intros Na Nb E. rewrite fuzzyMatchScore_unfold.
    destruct a; [contradiction|]. destruct b; [contradiction|].
    unfold scoreOf. fold s1 s2. rewrite E, eqs_refl. reflexivity.
  - intros Na Nb E Hi. rewrite fuzzyMatchScore_unfold.
    destruct a; [contradiction|]. destruct b; [contradiction|].
    unfold scoreOf. fold s1 s2 longer shorter. rewrite (Hne E), Hi.
    destruct (Nat.eqb_spec (length longer) 0) as [Z0|_]; [specialize (Hpos E); lia|].
    split; [reflexivity|]. apply includes_length. exact Hi.
  - intros Na Nb E Hi. rewrite fuzzyMatchScore_unfold.
    destruct a; [contradiction|]. destruct b; [contradiction|].
    unfold scoreOf. fold s1 s2 longer shorter. rewrite (Hne E), Hi.
    destruct (Nat.eqb_spec (length longer) 0) as [Z0|_]; [specialize (Hpos E); lia|].
    rewrite editDistance_levenshtein.
    split; [reflexivity|]. split; [auto|]. split.
    + rewrite Hlen. apply lev_bound.
    + specialize (Hpos E). unfold Z.sub. rewrite inject_Z_plus, inject_Z_opp.
      assert (Hq : ~ (inject_Z (Z.of_nat (length longer)) == 0)%Q).
      { unfold inject_Z, Qeq. simpl. lia. }
      field. exact Hq.
  - exact Hlen.
  - apply fuzzyMatchScore_inUnit; auto.
Qed.

(** An instance of the last case: kitten and sitting are 3 edits apart. *)
Lemma fuzzyMatchScore_cases_witness :
  jsString (lit "Kitten") /\ jsString (lit "sitting ")
  /\ fuzzyMatchScore (lit "Kitten") (lit "sitting ")
     = JsNumber.ofZ
         (Z.of_nat (length (longerOf (trim (toLowerCase (lit "Kitten")))
                                     (trim (toLowerCase (lit "sitting ")))))
          - Z.of_nat (levenshtein (trim (toLowerCase (lit "Kitten")))
                                  (trim (toLowerCase (lit "sitting ")))))
       / JsNumber.ofNat
           (length (longerOf (trim (toLowerCase (lit "Kitten")))
                             (trim (toLowerCase (lit "sitting ")))))
  /\ levenshtein (lit "kitten") (lit "sitting") = 3%nat
  /\ inUnit (fuzzyMatchScore (lit "Kitten") (lit "sitting ")) = true.
Proof.
  assert (Ha : jsString (lit "Kitten")) by (vm_compute; reflexivity).
  assert (Hb : jsString (lit "sitting ")) by (vm_compute; reflexivity).
  split; [exact Ha|]. split; [exact Hb|].
  destruct (fuzzyMatchScore_cases Ha Hb) as (_ & _ & _ & H4 & _ & H6).
  split; [|split; [vm_compute; reflexivity|exact H6]].
  apply H4.
  - discriminate.
  - discriminate.
  - vm_compute. discriminate.
  - vm_compute. reflexivity.
Defined.

(** C10: every match the ranking returns has as combined score 0.4 times
    its name score plus 0.6 times its address score; its name score is the
    greater of the fuzzy scores of the name of the query against the full
    name of the record and against its brand; its address score is the fuzzy
    score of the two normalised streets; and both scores lie between 0 and
    1. *)
Theorem ranked_match_invariant params results out m :
  sizedParams params -> Forall sizedRecord results ->
  getSalesforceMetadataByAddress params results = Return out -> In m out ->
  combinedScore m = 0.4 * nameScore m + 0.6 * addressScore m
  /\ nameScore m = JsNumber.max (fuzzyMatchScore (targetStoreNameOf params) (matchName m))
                     (fuzzyMatchScore (targetStoreNameOf params) (parsedStoreName m))
  /\ parsedStoreName m = storeBrand (matchName m)
  /\ addressScore m = fuzzyMatchScore (normalizeAddress (street params))
                        (normalizeAddress (parsedAddress m))
  /\ inUnit (nameScore m) = true
  /\ inUnit (addressScore m) = true.
Proof.
  intros Hp Hr H Hm. destruct (@ranked_In _ _ _ _ H Hm) as (record & Hin & Hs).
  rewrite Forall_forall in Hr. specialize (Hr _ Hin).
  pose proof (scoreRecord_inUnit (targetStreetOf_sized Hp) (targetStoreNameOf_sized Hp) Hr Hs)
    as [U1 U2].
  apply scoreRecord_inv in Hs.
  destruct Hs as (Hrec & Hb & _ & _ & Hn & Ha & Hc & _).
  assert (Hname : matchName m = Name record) by (rewrite <- Hrec; reflexivity).
  rewrite Hname, Hb.
  repeat split; auto.
  - rewrite Hc. rewrite (mul_comm 0.4), (mul_comm 0.6). reflexivity.
  - rewrite Hn, !fuzzyMatchScore_lower_r. reflexivity.
Qed.

(** An instance: the match of the Acme query. *)
Lemma ranked_match_invariant_witness :
  sizedParams (acmeQuery [] [] [])
  /\ Forall sizedRecord [acmeRecord None None]
  /\ getSalesforceMetadataByAddress (acmeQuery [] [] []) [acmeRecord None None]
     = Return [acmeMatch]
  /\ In acmeMatch [acmeMatch]
  /\ combinedScore acmeMatch = 0.4 * nameScore acmeMatch + 0.6 * addressScore acmeMatch
  /\ inUnit (nameScore acmeMatch) = true
  /\ inUnit (addressScore acmeMatch) = true.
Proof.
  assert (Hp : sizedParams (acmeQuery [] [] []))
    by (split; vm_compute; reflexivity).
  assert (Hr : Forall sizedRecord [acmeRecord None None])
    by (repeat constructor; vm_compute; reflexivity).
  assert (H : getSalesforceMetadataByAddress (acmeQuery [] [] []) [acmeRecord None None]
              = Return [acmeMatch]) by (vm_compute; reflexivity).
  split; [exact Hp|]. split; [exact Hr|]. split; [exact H|]. split; [left; reflexivity|].
  destruct (@ranked_match_invariant _ _ _ _ Hp Hr H (or_introl eq_refl))
    as (H1 & _ & _ & _ & H5 & H6).
  split; [exact H1|]. split; [exact H5|exact H6].
Defined.

(** C2: for every query and every list of records (of sizes a JavaScript
    string can have) the ranking returns at most 10 matches, in descending
    order of combined score.  They are the first 10 of a list that holds
    the kept matches, each as often as it was kept, in descending order of
    combined score, and in which the matches of any one combined score
    stand in the order of the input. *)
Theorem ranked_sorted_stable params results out :
  sizedParams params -> Forall sizedRecord results ->
  getSalesforceMetadataByAddress params results = Return out ->
  let kept :=
    flat_map (keptOf (targetStreetOf params) (targetStoreNameOf params)) results in
  (length out <= 10)%nat
  /\ Sorted descending out
  /\ exists sorted,
       out = firstn 10 sorted
       /\ Permutation sorted kept
       /\ Sorted descending sorted
       /\ forall c, filter (tie c) sorted = filter (tie c) kept.
Proof.
  intros Hp Hr H kept. apply getSalesforceMetadataByAddress_inv in H. fold kept in H.
  pose proof (kept_ordered Hp Hr) as Ho. fold kept in Ho.
  subst out. split; [apply firstn_le_length|].
  split; [apply Sorted_firstn, sort_descending; auto|].
  exists (sort byCombinedScore kept).
  split; [reflexivity|]. split; [apply sort_perm|].
  split; [apply sort_descending; auto|].
  intros c. apply sort_tie. auto.
Qed.

(** An instance: of three records the second scores highest, and the first
    and the third, which score the same, keep their order. *)
Lemma ranked_sorted_stable_witness :
  sizedParams (acmeQuery [] [] [])
  /\ Forall sizedRecord tiedRecords
  /\ exists out,
       getSalesforceMetadataByAddress (acmeQuery [] [] []) tiedRecords = Return out
       /\ map matchYearBuilt out = [None; Some (lit "1999"); Some (lit "2005")]
       /\ map combinedScore out
          = [1; 0.73333333333333328; 0.73333333333333328]
       /\ let kept :=
            flat_map (keptOf (targetStreetOf (acmeQuery [] [] []))
                             (targetStoreNameOf (acmeQuery [] [] []))) tiedRecords in
          (length out <= 10)%nat
          /\ Sorted descending out
          /\ exists sorted,
               out = firstn 10 sorted
               /\ Permutation sorted kept
               /\ Sorted descending sorted
               /\ forall c, filter (tie c) sorted = filter (tie c) kept.
Proof.
  assert (Hp : sizedParams (acmeQuery [] [] []))
    by (split; vm_compute; reflexivity).
  assert (Hr : Forall sizedRecord tiedRecords)
    by (repeat constructor; vm_compute; reflexivity).
  assert (H : exists out,
             getSalesforceMetadataByAddress (acmeQuery [] [] []) tiedRecords = Return out
             /\ map matchYearBuilt out = [None; Some (lit "1999"); Some (lit "2005")]
             /\ map combinedScore out
                = [1; 0.73333333333333328; 0.73333333333333328])
    by (eexists; split; [vm_compute; reflexivity|split; vm_compute; reflexivity]).
  split; [exact Hp|]. split; [exact Hr|].
  destruct H as (out & H & Hy & Hc). exists out.
  split; [exact H|]. split; [exact Hy|]. split; [exact Hc|].
  exact (@ranked_sorted_stable _ _ _ Hp Hr H).
Defined.

Local Close Scope float_scope.

(** * Further properties of [normalizeAddress] *)

Lemma test_sep w prev c t : isWord w = true -> isWordChar c = false ->
  testGo (wholeWord w) prev (c :: t) = testGo (wholeWord w) (Some c) t.
Proof.
  intros Hw Hc. cbn [testGo]. unfold wholeWord at 1.
  assert (H : startsWith w (c :: t) = false).
  { unfold isWord in Hw. destruct w as [|d w']; [discriminate|]. simpl in *.
    destruct (eqc d c) eqn:E; auto. apply Ascii.eqb_eq in E. subst d.
    rewrite Hc in Hw. simpl in Hw. discriminate. }
  rewrite H, andb_false_r. reflexivity.
Qed.

Lemma test_end w prev : isWord w = true -> testGo (wholeWord w) prev [] = false.
Proof.
  intros Hw. cbn [testGo]. unfold wholeWord.
  destruct w as [|d w']; [discriminate|]. cbn [startsWith].
  rewrite andb_false_r. reflexivity.
Qed.

Lemma test_inside w u : forall c0 r,
  isWordChar c0 = true -> forallb isWordChar u = true ->
  testGo (wholeWord w) (Some c0) (u ++ r) =
  testGo (wholeWord w) (last (map Some u) (Some c0)) r.
Proof.
  induction u as [|c u IH]; intros c0 r H0 Hu; [reflexivity|].
  simpl in Hu. apply andb_prop in Hu. destruct Hu as [Hc Hu].
  rewrite last_some_cons. rewrite <- app_comm_cons. rewrite <- IH by auto.
  cbn [testGo]. unfold wholeWord at 1.
  unfold boundary at 1. cbn [wordBefore wordAt]. rewrite H0, Hc. reflexivity.
Qed.

Lemma test_word w u prev r :
  isWord w = true ->
  wordBefore prev = false -> isWord u = true -> wordAt r = false ->
  testGo (wholeWord w) prev (u ++ r) =
  eqs u w || testGo (wholeWord w) (last (map Some u) prev) r.
Proof.
  intros Hw Hp Hu Hr. pose proof Hu as Hu'. unfold isWord in Hu'.
  apply andb_prop in Hu'. destruct Hu' as [Hn Ha].
  destruct u as [|c u]; [discriminate|]. clear Hn.
  pose proof Ha as Ha'. simpl in Ha'. apply andb_prop in Ha'. destruct Ha' as [Hc Hu'].
  rewrite <- app_comm_cons. cbn [testGo].
  unfold wholeWord at 1. unfold boundary at 1. cbn [wordAt]. rewrite Hp, Hc.
  cbn [xorb andb].
  destruct (eqs (c :: u) w) eqn:E.
  - apply eqs_true in E. subst w.
    rewrite app_comm_cons, startsWith_app. cbn [andb].
    rewrite skipn_app, skipn_all, Nat.sub_diag. cbn [skipn app].
    unfold boundary. rewrite wordBefore_last by auto. rewrite Hr. reflexivity.
  - assert (H : startsWith w (c :: u ++ r)
                && boundary (last (map Some w) prev) (skipn (length w) (c :: u ++ r)) = false).
    { destruct (startsWith w (c :: u ++ r)) eqn:S1; auto. cbn [andb].
      unfold boundary. rewrite wordBefore_last by auto.
      destruct (wordAt (skipn (length w) (c :: u ++ r))) eqn:S2; auto.
      exfalso. unfold isWord in Hw. apply andb_prop in Hw.
      destruct Hw as [_ Hw].
      rewrite (@whole_word_match (c :: u) w r Hw Ha Hr S1 S2) in E.
      rewrite eqs_refl in E. discriminate. }
    rewrite H. cbn [orb]. rewrite test_inside by auto. rewrite last_some_cons. reflexivity.
Qed.

Lemma test_tokens w l : isWord w = true -> forall prev,
  wellFormed l = true ->
  wordBefore prev = false \/ match l with Word _ :: _ => False | _ => True end ->
  testGo (wholeWord w) prev (untokens l) = existsb (isTheWord w) l.
Proof.
  intros Hw.
  induction l as [|[u|c] r IH]; intros prev Hwf Hp.
  - apply test_end; auto.
  - destruct Hp as [Hp|[]]. simpl in Hwf.
    apply andb_prop in Hwf. destruct Hwf as [H H2].
    apply andb_prop in H. destruct H as [H0 H1].
    change (untokens (Word u :: r)) with (u ++ untokens r).
    rewrite test_word; auto.
    + rewrite IH; auto. right. destruct r as [|[]]; auto. discriminate.
    + rewrite wordAt_untokens by auto. destruct r as [|[]]; auto; discriminate.
  - simpl in Hwf. apply andb_prop in Hwf. destruct Hwf as [H0 H1].
    apply negb_true_iff in H0.
    change (untokens (Sep c :: r)) with (c :: untokens r).
    rewrite test_sep by auto. rewrite IH; auto.
Qed.

(** [/\bw\b/.test(s)] holds when a word of [s] is [w]. *)
Lemma test_whole_word w s : isWord w = true ->
  test (wholeWord w) s = existsb (isTheWord w) (tokens s).
Proof.
  intros Hw. unfold test. rewrite <- (untokens_tokens s) at 1.
  apply test_tokens; [auto|apply wellFormed_tokens|left; reflexivity].
Qed.

Lemma abbreviate_replaceWords s : abbreviate s = replaceWords abbreviations s.
Proof. reflexivity. Qed.

Lemma normalizeAddress_lower x : Forall (fun c => lowerChar c = c) (normalizeAddress x).
Proof.
  apply replaceWords_Forall; [apply abbreviations_lower|].
  apply replaceAll_Forall; [repeat constructor|].
  apply replaceAll_Forall; [constructor|].
  apply trim_Forall, toLowerCase_lower.
Qed.

Lemma normalizeAddress_clean x : Forall (fun c => isPunct c = false) (normalizeAddress x).
Proof.
  apply replaceWords_Forall; [apply abbreviations_clean|].
  apply replaceAll_Forall; [repeat constructor|]. apply strip_clean.
Qed.

Lemma normalizeAddress_spaced x : spaced (normalizeAddress x) = true.
Proof.
  unfold normalizeAddress. rewrite abbreviate_replaceWords.
  rewrite replaceWords_spaced by (apply sound_words, abbreviations_sound).
  apply collapse_spaced.
Qed.

Lemma normalizeAddress_unlisted x :
  Forall (fun t => unlistedToken abbreviations t = true) (tokens (normalizeAddress x)).
Proof. apply replaceWords_unlisted, abbreviations_sound. Qed.

Lemma spaced_single s : spaced s = true ->
  Forall (fun c => isSpace c = true -> c = " "%char) s.
Proof.
  induction s as [|c t IH]; intros H; constructor.
  - intros Hc. simpl in H. rewrite Hc in H.
    apply andb_prop in H. destruct H as [H _]. apply andb_prop in H. destruct H as [H _].
    apply Ascii.eqb_eq in H. exact H.
  - apply IH. eapply spaced_tail; eauto.
Qed.

Lemma spaced_no_run s : spaced s = true -> includes s (lit "  ") = false.
Proof.
  change (lit "  ") with [" "%char; " "%char].
  induction s as [|c t IH]; intros H; [reflexivity|].
  pose proof (spaced_tail _ _ H) as Ht. specialize (IH Ht).
  cbn [includes]. rewrite IH, orb_false_r.
  cbn [startsWith]. simpl in H.
  destruct (eqc " " c) eqn:E; [|reflexivity].
  apply Ascii.eqb_eq in E. subst c.
  change (isSpace " "%char) with true in H. cbn iota in H.
  apply andb_prop in H. destruct H as [H _]. apply andb_prop in H. destruct H as [_ H].
  apply negb_true_iff in H. destruct t as [|d t']; [reflexivity|].
  cbn [headIsSpace] in H. cbn [startsWith].
  destruct (eqc " " d) eqn:E; [|reflexivity].
  apply Ascii.eqb_eq in E. subst d. discriminate.
Qed.

(** X1: a normalised address has no upper-case letter and none of the
    characters of the class [.,#]; every white-space character in it is a
    space, and no two spaces are adjacent. *)
Theorem normalizeAddress_characters x :
  Forall (fun c => lowerChar c = c
                   /\ isPunct c = false
                   /\ (isSpace c = true -> c = " "%char)) (normalizeAddress x)
  /\ includes (normalizeAddress x) (lit "  ") = false.
Proof.
  split.
  - pose proof (normalizeAddress_lower x) as H1.
    pose proof (normalizeAddress_clean x) as H2.
    pose proof (spaced_single _ (normalizeAddress_spaced x)) as H3.
    rewrite Forall_forall in *. intros c Hc. auto.
  - apply spaced_no_run, normalizeAddress_spaced.
Qed.

Lemma unlisted_existsb L w a l :
  In (w, a) L -> Forall (fun t => unlistedToken L t = true) l ->
  existsb (isTheWord w) l = false.
Proof.
  intros Hin H. induction H as [|t l Ht _ IH]; [reflexivity|].
  cbn [existsb]. rewrite IH, orb_false_r.
  destruct t as [x|c]; [|reflexivity]. cbn [isTheWord unlistedToken] in *.
  unfold unlisted in Ht. rewrite forallb_forall in Ht.
  specialize (Ht _ Hin). apply negb_true_iff in Ht. exact Ht.
Qed.

(** X2: none of the patterns of [normalizeAddress], a long form of the table
    as a whole word, matches a normalised address. *)
Theorem normalizeAddress_abbreviated x :
  Forall (fun wa => test (wholeWord (fst wa)) (normalizeAddress x) = false) abbreviations.
Proof.
  rewrite Forall_forall. intros [w a] Hin. cbn [fst].
  assert (Hw : isWord w = true).
  { pose proof (sound_words _ abbreviations_sound) as H. rewrite forallb_forall in H.
    specialize (H _ Hin). apply andb_prop in H. tauto. }
  rewrite test_whole_word by exact Hw.
  eapply unlisted_existsb; [exact Hin|apply normalizeAddress_unlisted].
Qed.

Lemma substituteAll_find L : sound L = true -> forall l x, incl l L ->
  substituteAll l (Word x) =
  Word match find (fun wa => eqs x (fst wa)) l with
       | Some wa => snd wa
       | None => x
       end.
Proof.
  intros HL. induction l as [|[w a] l IH]; intros x Hl; [reflexivity|].
  assert (Hl' : incl l L) by (intros y Hy; apply Hl; right; exact Hy).
  unfold substituteAll. cbn [fold_left find fst snd substitute].
  fold (substituteAll l). destruct (eqs x w) eqn:E.
  - apply substituteAll_unlisted_id with (L := L); auto.
    cbn [unlistedToken]. unfold sound in HL. rewrite forallb_forall in HL.
    assert (Hin : In (w, a) L) by (apply Hl; left; reflexivity).
    specialize (HL _ Hin). apply andb_prop in HL. tauto.
  - apply IH. exact Hl'.
Qed.

(** X3: the replacements of [normalizeAddress], made one after the other,
    come to one look-up per word: each word of the text (a maximal run of
    letters, digits and underscores) that is a long form of the table is
    replaced by its abbreviation, and the other words and the characters
    between the words stay as they are. *)
Theorem abbreviate_word_by_word s :
  abbreviate s = untokens (map abbreviateToken (tokens s))
  /\ tokens (abbreviate s) = map abbreviateToken (tokens s).
Proof.
  assert (H : tokens (abbreviate s) = map abbreviateToken (tokens s)).
  { rewrite abbreviate_replaceWords.
    rewrite tokens_replaceWords by (apply sound_words, abbreviations_sound).
    apply map_ext. intros [x|c].
    - unfold abbreviateToken, abbreviationOf.
      apply substituteAll_find with (L := abbreviations);
        [apply abbreviations_sound|apply incl_refl].
    - apply substituteAll_sep. }
  split; [|exact H]. rewrite <- H. symmetry. apply untokens_tokens.
Qed.

(** X4: [normalizeAddress] returns a text unchanged exactly when the text
    is in normal form: lower case, free of the characters [.,#], with white
    space only as single spaces and none at either end, and with no word
    that is a long form of the table. *)
Theorem normalizeAddress_fixed_points x : normalizeAddress x = x <-> normalForm x.
Proof.
  unfold normalForm. split.
  - intros E.
    pose proof (normalizeAddress_lower x) as H1.
    pose proof (normalizeAddress_clean x) as H2.
    pose proof (normalizeAddress_spaced x) as H3.
    pose proof (normalizeAddress_unlisted x) as H4.
    pose proof (normalizeAddress_twice x) as H5.
    rewrite E in *. repeat split; auto. rewrite E in H5. symmetry. exact H5.
  - intros (H1 & H2 & H3 & H4 & H5).
    unfold normalizeAddress. rewrite (toLowerCase_fixed H1), H4.
    rewrite strip_fixed by auto.
    unfold replaceAll at 1. rewrite collapse_fixed by auto.
    apply replaceWords_fixed; [apply abbreviations_sound|auto].
Qed.

(** * Further properties of the edit distance *)

Lemma charAt_eq s1 s2 i : i < length s1 -> i < length s2 ->
  eqs (charAt s1 i) (charAt s2 i) = true -> nth_error s1 i = nth_error s2 i.
Proof.
  intros H1 H2. unfold charAt.
  destruct (nth_error s1 i) as [c|] eqn:E1; [|apply nth_error_None in E1; lia].
  destruct (nth_error s2 i) as [d|] eqn:E2; [|apply nth_error_None in E2; lia].
  intros H. apply eqs_true in H. congruence.
Qed.

Lemma firstn_snoc (s : str) c : forall i,
  nth_error s i = Some c -> firstn (S i) s = firstn i s ++ [c].
Proof.
  induction s as [|d s IH]; intros [|i] H; try discriminate.
  - injection H as ->. reflexivity.
  - cbn [nth_error] in H. change (firstn (S (S i)) (d :: s)) with (d :: firstn (S i) s).
    rewrite (IH i H). reflexivity.
Qed.

Lemma lev_zero s1 s2 i : forall j, i <= length s1 -> j <= length s2 ->
  levenshteinPrefix s1 s2 i j = 0 -> i = j /\ firstn i s1 = firstn j s2.
Proof.
  induction i as [|i IHi]; intros j Hi Hj H.
  - rewrite lev_0 in H. subst j. auto.
  - destruct j as [|j]; [rewrite lev_S_0 in H; discriminate|].
    rewrite lev_S_S in H.
    destruct (eqs (charAt s1 i) (charAt s2 j)) eqn:E; [|discriminate].
    destruct (IHi j) as [-> Hf]; [lia|lia|exact H|]. split; [reflexivity|].
    apply charAt_eq in E; [|lia|lia].
    destruct (nth_error s1 j) as [c|] eqn:E1; [|apply nth_error_None in E1; lia].
    symmetry in E.
    rewrite (firstn_snoc _ _ E1), (firstn_snoc _ _ E).
    rewrite Hf. reflexivity.
Qed.

Lemma lev_diag s i : levenshteinPrefix s s i i = 0.
Proof.
  induction i as [|i IH]; [reflexivity|].
  rewrite lev_S_S, eqs_refl. exact IH.
Qed.

Lemma lev_lower s1 s2 i : forall j,
  i - j <= levenshteinPrefix s1 s2 i j /\ j - i <= levenshteinPrefix s1 s2 i j.
Proof.
  induction i as [|i IHi]; intros j.
  - rewrite lev_0. lia.
  - induction j as [|j IHj].
    + rewrite lev_S_0. lia.
    + rewrite lev_S_S. pose proof (IHi j). pose proof (IHi (S j)).
      destruct (eqs (charAt s1 i) (charAt s2 j)); lia.
Qed.

(** X5: the distance that the two loops of [fuzzyMatchScore] compute is 0
    exactly for equal strings; it is at least the difference of the two
    lengths and at most the greater length; and it is the same in both
    directions. *)
Theorem editDistance_separates s1 s2 :
  (editDistance s1 s2 = 0 <-> s1 = s2)
  /\ Nat.max (length s1) (length s2) - Nat.min (length s1) (length s2)
     <= editDistance s1 s2
  /\ editDistance s1 s2 <= Nat.max (length s1) (length s2)
  /\ editDistance s1 s2 = editDistance s2 s1.
Proof.
  rewrite !editDistance_levenshtein. unfold levenshtein.
  split; [|split; [|split]].
  - split.
    + intros H. apply lev_zero in H; auto. destruct H as [_ Hf].
      rewrite !firstn_all in Hf. exact Hf.
    + intros ->. apply lev_diag.
  - pose proof (lev_lower s1 s2 (length s1) (length s2)). lia.
  - apply lev_bound.
  - apply lev_sym.
Qed.

(** * Quotients of lengths *)

Module FloatRatio.
Local Open Scope Z_scope.

(** A value below [1 - 2^-53] is not rounded to one. *)
Lemma rounded_below_one s m e l r :
  0 <= m -> e <= -53 -> m + 2 ^ (- e - 53) < 2 ^ (- e) ->
  rounded s m e l r -> r <> S754_finite s 4503599627370496 (-52).
Proof.
  intros Hm He Hlt H Heq.
  destruct H as [m1 m2 m3 e1 e2 He1 Hm1 Hm2 _ He2 Hm3].
  assert (P0 : 0 < 2 ^ (- e - 53)) by (apply Z.pow_pos_nonneg; lia).
  assert (Hdm : Zdigits2 m <= - e) by (apply Zdigits2_le_of_lt; lia).
  assert (E1 : e <= e1 <= -53) by (rewrite He1, fx_eq; lia).
  destruct m3 as [|p|p]; try discriminate.
  destruct (e2 <=? emax - prec); try discriminate.
  injection Heq as Hp He2'.
  assert (E2 : e1 <= -52) by lia.
  rewrite He2' in Hm3. clear He2.
  assert (Pk : 0 < 2 ^ (-52 - e1)) by (apply Z.pow_pos_nonneg; lia).
  assert (M2 : 2 ^ (- e1) <= m2).
  { pose proof (Z.mul_div_le m2 (2 ^ (-52 - e1)) Pk) as D.
    rewrite <- Hm3, Hp in D.
    change 4503599627370496 with (2 ^ 52) in D.
    rewrite <- Z.pow_add_r in D by lia.
    replace (-52 - e1 + 52) with (- e1) in D by lia. exact D. }
  assert (Pj : 0 < 2 ^ (e1 - e)) by (apply Z.pow_pos_nonneg; lia).
  assert (M1 : 2 ^ (e1 - e) * m1 <= m)
    by (rewrite Hm1; apply Z.mul_div_le; exact Pj).
  assert (Hs : 2 ^ (- e) = 2 ^ (e1 - e) * 2 ^ (- e1)).
  { rewrite <- Z.pow_add_r by lia. f_equal. lia. }
  assert (Hle : 2 ^ (e1 - e) <= 2 ^ (- e - 53)) by (apply Z.pow_le_mono_r; lia).
  set (A := 2 ^ (e1 - e)) in *. set (B := 2 ^ (- e1)) in *.
  assert (A * (B - 1) <= A * m1) by (apply Z.mul_le_mono_nonneg_l; lia).
  lia.
Qed.

Lemma exponents_ordered a b ma ea mb eb :
  0 < a < b ->
  Zpos ma = a * 2 ^ (- ea) -> Zpos mb = b * 2 ^ (- eb) ->
  -52 <= ea <= 0 -> -52 <= eb <= 0 ->
  Zpos (digits2_pos ma) = 53 -> Zpos (digits2_pos mb) = 53 ->
  ea <= eb.
Proof.
  intros Hab Va Vb Ra Rb Da Db.
  pose proof (digits_lower ma) as La. pose proof (digits_upper mb) as Ub.
  rewrite Da in La. rewrite Db in Ub.
  change (2 ^ (53 - 1)) with 4503599627370496 in La.
  change (2 ^ 53) with 9007199254740992 in Ub.
  destruct (Z_le_gt_dec ea eb) as [|G]; auto. exfalso.
  assert (Hs : 2 ^ (- eb) = 2 ^ (- ea) * 2 ^ (ea - eb)).
  { rewrite <- Z.pow_add_r by lia. f_equal. lia. }
  assert (Hk : 2 ^ 1 <= 2 ^ (ea - eb)) by (apply Z.pow_le_mono_r; lia).
  change (2 ^ 1) with 2 in Hk.
  assert (Pa : 0 < 2 ^ (- ea)) by (apply Z.pow_pos_nonneg; lia).
  rewrite Hs in Vb. set (A := 2 ^ (- ea)) in *. set (K := 2 ^ (ea - eb)) in *.
  assert (a * A < b * A) by (apply Z.mul_lt_mono_pos_r; lia).
  assert (b * A * 2 <= b * A * K) by (apply Z.mul_le_mono_nonneg_l; nia).
  nia.
Qed.

(** The quotient of two lengths, the first below the second, is not 1. *)
Lemma ratio_lt_one a b : 0 <= a < b -> b < 2 ^ 53 ->
  (JsNumber.ofZ a / JsNumber.ofZ b)%float <> 1%float.
Proof.
  intros Ha Hb Heq. apply (f_equal Prim2SF) in Heq.
  rewrite !ofZ_nonneg in Heq by lia.
  rewrite FloatAxioms.div_spec, Prim2SF_one in Heq. unfold SF64div in Heq.
  destruct (@of_int_exact b) as (mb & eb & Eb & Vb & Rb & Db); [lia|].
  rewrite Eb in Heq.
  destruct (Z.eq_dec a 0) as [->|Hn].
  - rewrite of_int_zero in Heq. discriminate.
  - destruct (@of_int_exact a) as (ma & ea & Ea & Va & Ra & Da); [lia|].
    rewrite Ea in Heq. rewrite div_core in Heq by auto.
    assert (Hee : ea <= eb) by (apply (@exponents_ordered a b ma ea mb eb); auto; lia).
    set (q := Zpos ma * 2 ^ 53 / Zpos mb) in *.
    assert (Hq : 0 <= q) by (apply Z.div_pos; lia).
    pose proof (@binary_round_aux_rounded false q (ea - eb - 53)
      (new_location (Zpos mb) (Zpos ma * 2 ^ 53 mod Zpos mb)) Hq) as R.
    revert Heq. apply rounded_below_one with (m := q) (e := ea - eb - 53)
      (l := new_location (Zpos mb) (Zpos ma * 2 ^ 53 mod Zpos mb)); auto; [lia|].
    replace (- (ea - eb - 53) - 53) with (eb - ea) by lia.
    replace (- (ea - eb - 53)) with (53 + (eb - ea)) by lia.
    rewrite Z.pow_add_r by lia.
    assert (Q : q * Zpos mb <= Zpos ma * 2 ^ 53)
      by (unfold q; rewrite Z.mul_comm; apply Z.mul_div_le; lia).
    assert (Hs : 2 ^ (- ea) = 2 ^ (- eb) * 2 ^ (eb - ea)).
    { rewrite <- Z.pow_add_r by lia. f_equal. lia. }
    rewrite Va, Vb, Hs in Q.
    assert (Pc : 0 < 2 ^ (- eb)) by (apply Z.pow_pos_nonneg; lia).
    assert (Pe : 0 < 2 ^ (eb - ea)) by (apply Z.pow_pos_nonneg; lia).
    change (2 ^ 53) with 9007199254740992 in *.
    set (C := 2 ^ (- eb)) in *. set (P := 2 ^ (eb - ea)) in *.
    assert (Q' : q * b <= a * P * 9007199254740992).
    { apply Z.mul_le_mono_pos_r with (p := C); [exact Pc|]. lia. }
    assert (Q2 : a * P * 9007199254740992 <= (b - 1) * P * 9007199254740992).
    { apply Z.mul_le_mono_nonneg_r; [lia|]. apply Z.mul_le_mono_nonneg_r; lia. }
    destruct (Z_lt_le_dec (q + P) (9007199254740992 * P)) as [|G]; auto. exfalso.
    assert ((9007199254740992 * P - P) * b <= q * b)
      by (apply Z.mul_le_mono_nonneg_r; lia).
    assert (P * 9007199254740992 <= P * b) by lia.
    assert (9007199254740992 <= b) by (apply Z.mul_le_mono_pos_l with (p := P); lia).
    lia.
Qed.

(** The quotient of two lengths, neither of them 0, is not 0. *)
Lemma ratio_pos a b : 0 < a <= b -> b < 2 ^ 53 ->
  (JsNumber.ofZ a / JsNumber.ofZ b)%float <> 0%float.
Proof.
  intros Ha Hb Heq. apply (f_equal Prim2SF) in Heq.
  rewrite !ofZ_nonneg in Heq by lia.
  rewrite FloatAxioms.div_spec in Heq. unfold SF64div in Heq.
  change (Prim2SF 0) with (S754_zero false) in Heq.
  destruct (@of_int_exact b) as (mb & eb & Eb & Vb & Rb & Db); [lia|].
  destruct (@of_int_exact a) as (ma & ea & Ea & Va & Ra & Da); [lia|].
  rewrite Ea, Eb in Heq. rewrite div_core in Heq by auto.
  pose proof (digits_lower ma) as La. pose proof (digits_upper mb) as Ub.
  rewrite Da in La. rewrite Db in Ub.
  change (2 ^ (53 - 1)) with 4503599627370496 in La.
  change (2 ^ 53) with 9007199254740992 in *.
  set (q := Zpos ma * 9007199254740992 / Zpos mb) in *.
  assert (Hq : 0 < q) by (apply Z.div_str_pos; lia).
  assert (Hq' : 0 <= q) by lia.
  pose proof (@binary_round_aux_rounded false q (ea - eb - 53)
    (new_location (Zpos mb) (Zpos ma * 9007199254740992 mod Zpos mb)) Hq') as R.
  apply rounded_pos in R; [|exact Hq|lia].
  rewrite Heq in R. destruct R as [R|(p & e' & R)]; discriminate.
Qed.

End FloatRatio.

Lemma editDistance_levenshtein_zero s1 s2 : editDistance s1 s2 = 0 -> s1 = s2.
Proof.
  rewrite editDistance_levenshtein. unfold levenshtein. intros H.
  apply lev_zero in H; auto. destruct H as [_ Hf].
  rewrite !firstn_all in Hf. exact Hf.
Qed.

(** 0 divided by a length that is not 0. *)
Lemma zero_ratio n : 0 < n -> (Z.of_nat n < 2 ^ 53)%Z ->
  (JsNumber.ofZ 0 / JsNumber.ofNat n)%float = 0%float.
Proof.
  intros Hn Hb. apply Prim2SF_inj. unfold JsNumber.ofNat.
  rewrite !ofZ_nonneg by lia. rewrite FloatAxioms.div_spec. unfold SF64div.
  destruct (@of_int_exact (Z.of_nat n)) as (m & e & E & _); [lia|].
  rewrite E, of_int_zero. reflexivity.
Qed.

(** * The extreme scores *)

Import FloatRatio.

Lemma zero_not_one : 0%float <> 1%float.
Proof. intros H. apply (f_equal Prim2SF) in H. vm_compute in H. discriminate. Qed.

Lemma longer_sized a b : jsString a -> jsString b ->
  (Z.of_nat (length (longerOf (trim (toLowerCase a)) (trim (toLowerCase b)))) < 2 ^ 53)%Z.
Proof.
  unfold jsString. intros Ha Hb. rewrite longerOf_length.
  pose proof (trim_length (toLowerCase a)). pose proof (trim_length (toLowerCase b)).
  rewrite toLowerCase_length in *. lia.
Qed.

Lemma eqs_false s1 s2 : eqs s1 s2 = false -> s1 <> s2.
Proof. intros H E. subst s2. rewrite eqs_refl in H. discriminate. Qed.

Lemma shorter_below s1 s2 : s1 <> s2 ->
  includes (longerOf s1 s2) (shorterOf s1 s2) = true ->
  length (shorterOf s1 s2) < length (longerOf s1 s2).
Proof.
  intros Hne Hi. pose proof (includes_length _ _ Hi) as Hle.
  destruct (Nat.eq_dec (length (shorterOf s1 s2)) (length (longerOf s1 s2))) as [E|]; [|lia].
  exfalso. rewrite (includes_same_length _ _ E) in Hi. apply eqs_true in Hi.
  unfold longerOf, shorterOf in Hi. destruct (length s2 <? length s1); congruence.
Qed.

Lemma longer_positive s1 s2 : s1 <> s2 -> 0 < length (longerOf s1 s2).
Proof.
  intros H. rewrite longerOf_length. destruct s1, s2; simpl; try lia. contradiction.
Qed.

(** X6: for strings of lengths a JavaScript string can have, the score is 1
    exactly when neither string is empty and the two are equal once in lower
    case and trimmed. *)
Theorem fuzzyMatchScore_one a b : jsString a -> jsString b ->
  (fuzzyMatchScore a b = 1%float <->
   a <> [] /\ b <> [] /\ trim (toLowerCase a) = trim (toLowerCase b)).
Proof.
  intros Ha Hb. pose proof (longer_sized Ha Hb) as HL.
  rewrite fuzzyMatchScore_unfold.
  set (s1 := trim (toLowerCase a)) in *. set (s2 := trim (toLowerCase b)) in *.
  split.
  - intros H.
    destruct a as [|ca a']; [exfalso; apply zero_not_one; exact H|].
    destruct b as [|cb b']; [exfalso; apply zero_not_one; exact H|].
    split; [discriminate|]. split; [discriminate|].
    unfold scoreOf in H. destruct (eqs s1 s2) eqn:E; [apply eqs_true; exact E|].
    exfalso. apply eqs_false in E. pose proof (longer_positive E) as Hpos.
    destruct (Nat.eqb_spec (length (longerOf s1 s2)) 0) as [Z0|_]; [lia|].
    destruct (includes (longerOf s1 s2) (shorterOf s1 s2)) eqn:Hi.
    + revert H. apply ratio_lt_one; [|exact HL].
      pose proof (shorter_below E Hi). lia.
    + revert H. apply ratio_lt_one; [|exact HL].
      pose proof (editDistance_bound s1 s2) as Hb'. rewrite <- longerOf_length in Hb'.
      assert (editDistance s1 s2 <> 0).
      { intros Hz. apply E. apply editDistance_levenshtein_zero. exact Hz. }
      lia.
  - intros (Na & Nb & E).
    destruct a as [|ca a']; [contradiction|]. destruct b as [|cb b']; [contradiction|].
    unfold scoreOf. rewrite E, eqs_refl. reflexivity.
Qed.

(** X7: for strings of lengths a JavaScript string can have, the score is 0
    exactly when a string is empty, or the two strings, in lower case and
    trimmed, differ and either the shorter of them is empty or neither
    contains the other and the distance between them is the length of the
    longer. *)
Theorem fuzzyMatchScore_zero a b : jsString a -> jsString b ->
  let s1 := trim (toLowerCase a) in
  let s2 := trim (toLowerCase b) in
  (fuzzyMatchScore a b = 0%float <->
   a = [] \/ b = [] \/
   (s1 <> s2 /\
    (shorterOf s1 s2 = [] \/
     (includes (longerOf s1 s2) (shorterOf s1 s2) = false /\
      editDistance s1 s2 = length (longerOf s1 s2))))).
Proof.
  intros Ha Hb s1 s2. pose proof (longer_sized Ha Hb) as HL. fold s1 s2 in HL.
  rewrite fuzzyMatchScore_unfold. fold s1 s2.
  split.
  - intros H.
    destruct a as [|ca a']; [left; reflexivity|].
    destruct b as [|cb b']; [right; left; reflexivity|].
    right. right. unfold scoreOf in H.
    destruct (eqs s1 s2) eqn:E; [exfalso; apply zero_not_one; symmetry; exact H|].
    apply eqs_false in E. split; [exact E|]. pose proof (longer_positive E) as Hpos.
    destruct (Nat.eqb_spec (length (longerOf s1 s2)) 0) as [Z0|_]; [lia|].
    destruct (includes (longerOf s1 s2) (shorterOf s1 s2)) eqn:Hi.
    + left. destruct (shorterOf s1 s2) as [|c t] eqn:Es; [reflexivity|].
      exfalso. revert H. apply ratio_pos; [|exact HL].
      pose proof (includes_length _ _ Hi). simpl length in *. lia.
    + right. split; [reflexivity|].
      pose proof (editDistance_bound s1 s2) as Hb'. rewrite <- longerOf_length in Hb'.
      destruct (Nat.eq_dec (editDistance s1 s2) (length (longerOf s1 s2))) as [|Hd]; auto.
      exfalso. revert H. apply ratio_pos; [|exact HL]. lia.
  - intros [->|[->|(E & H)]]; [reflexivity|destruct a; reflexivity|].
    destruct a as [|ca a']; [reflexivity|]. destruct b as [|cb b']; [reflexivity|].
    unfold scoreOf.
    destruct (eqs s1 s2) eqn:E'; [apply eqs_true in E'; contradiction|].
    pose proof (longer_positive E) as Hpos.
    destruct (Nat.eqb_spec (length (longerOf s1 s2)) 0) as [Z0|_]; [lia|].
    destruct H as [Hs|[Hi Hd]].
    + rewrite Hs. assert (Hi : includes (longerOf s1 s2) [] = true)
        by (destruct (longerOf s1 s2); reflexivity).
      rewrite Hi. apply zero_ratio; [lia|exact HL].
    + rewrite Hi, Hd, Z.sub_diag. apply zero_ratio; [lia|exact HL].
Qed.

Module FloatProduct.
Local Open Scope Z_scope.

(** A score of at most one half, times 0.6, is at most 0.3. *)
Lemma product_below a :
  inUnit a = true -> (0.5 <? a)%float = false -> (0.3 <? a * 0.6)%float = false.
Proof.
  intros U H. pose proof (inUnit_finite _ U) as Hf.
  pose proof (Prim2SF_valid a) as V.
  rewrite FloatAxioms.ltb_spec in *. rewrite FloatAxioms.mul_spec. unfold SF64mul.
  change (Prim2SF 0.5) with (S754_finite false 4503599627370496 (-53)) in H.
  change (Prim2SF 0.3) with (S754_finite false 5404319552844595 (-54)).
  change (Prim2SF 0.6) with (S754_finite false 5404319552844595 (-53)).
  destruct (Prim2SF a) as [s|s| |s ma ea] eqn:E; try discriminate.
  - reflexivity.
  - destruct s; [discriminate|].
    destruct (canonical_digits ma ea V) as [Hc _]. rewrite fx_eq in Hc.
    pose proof (digits_lower ma) as Lo. pose proof (digits_upper ma) as Up.
    set (d := Zpos (digits2_pos ma)) in *.
    assert (Hea : ea <= -53).
    { unfold SFltb, SFcompare in H. destruct (Z.compare_spec (-53) ea); try lia; discriminate. }
    destruct (Z.eq_dec ea (-53)) as [->|Hne].
    + (* the score is one half *)
      assert (Hd : d = 53) by lia. rewrite Hd in Lo.
      change (2 ^ (53 - 1)) with 4503599627370496 in Lo.
      unfold SFltb, SFcompare in H. rewrite Z.compare_refl, compare_cont_Eq in H.
      destruct (Pos.compare_spec 4503599627370496 ma) as [Q|L|G]; try discriminate.
      * rewrite <- Q. vm_compute. reflexivity.
      * exfalso. assert (G' : Zpos ma < 4503599627370496) by exact G. clear - Lo G'. lia.
    + assert (Hea' : ea <= -54) by lia. clear Hne Hea H.
      assert (Hd : d <= 53) by lia.
      assert (Hma : Zpos ma < 2 ^ 53).
      { eapply Z.lt_le_trans; [exact Up|]. apply Z.pow_le_mono_r; lia. }
      cbn [SFmul xorb].
      set (m := Zpos (ma * 5404319552844595)).
      assert (Hm : m = Zpos ma * 5404319552844595) by reflexivity.
      assert (Hm0 : 0 <= m) by lia.
      pose proof (@binary_round_aux_rounded false m (ea + -53) loc_Exact Hm0) as R.
      destruct R as [m1 m2 m3 e1 e2 He1 Hm1 Hm2 _ He2 Hm3].
      change (2 ^ 53) with 9007199254740992 in Hma.
      assert (Hdm : Zdigits2 m <= 106).
      { apply Zdigits2_le_of_lt; [lia|]. split; [lia|].
        change (2 ^ 106) with (9007199254740992 * 9007199254740992). nia. }
      rewrite fx_eq in He1.
      assert (E1 : ea + -53 <= e1 <= ea) by lia.
      assert (PK : 0 < 2 ^ (e1 - (ea + -53))) by (apply Z.pow_pos_nonneg; lia).
      assert (PJ : 0 < 2 ^ (ea - e1)) by (apply Z.pow_pos_nonneg; lia).
      assert (HJK : 2 ^ (ea - e1) * 2 ^ (e1 - (ea + -53)) = 9007199254740992).
      { rewrite <- Z.pow_add_r by lia.
        replace (ea - e1 + (e1 - (ea + -53))) with 53 by lia. reflexivity. }
      assert (M1 : 2 ^ (e1 - (ea + -53)) * m1 <= m)
        by (rewrite Hm1; apply Z.mul_div_le; exact PK).
      assert (M1' : 0 <= m1) by (rewrite Hm1; apply Z.div_pos; lia).
      set (K := 2 ^ (e1 - (ea + -53))) in *. set (J := 2 ^ (ea - e1)) in *.
      assert (M1lt : m1 < 5404319552844595 * J).
      { apply Z.mul_lt_mono_pos_l with (p := K); [exact PK|]. nia. }
      assert (M2 : 0 <= m2 <= 5404319552844595 * J) by lia.
      assert (Hdm2 : Zdigits2 m2 <= 53 + (ea - e1)).
      { apply Zdigits2_le_of_lt; [lia|]. split; [lia|].
        rewrite Z.pow_add_r by lia. change (2 ^ 53) with 9007199254740992. fold J. nia. }
      rewrite fx_eq in He2.
      assert (E2 : e1 <= e2 <= ea) by lia.
      assert (PL : 0 < 2 ^ (e2 - e1)) by (apply Z.pow_pos_nonneg; lia).
      assert (PI : 0 < 2 ^ (ea - e2)) by (apply Z.pow_pos_nonneg; lia).
      assert (HIL : 2 ^ (ea - e2) * 2 ^ (e2 - e1) = J).
      { unfold J. rewrite <- Z.pow_add_r by lia. f_equal. lia. }
      assert (M3 : 0 <= m3 <= 5404319552844595 * 2 ^ (ea - e2)).
      { rewrite Hm3. split; [apply Z.div_pos; lia|].
        apply Z.div_le_upper_bound; [exact PL|]. rewrite <- HIL in M2. nia. }
      destruct m3 as [|p|p]; [reflexivity| |lia].
      assert (Hb : (e2 <=? emax - prec) = true)
        by (apply Z.leb_le; change (emax - prec) with 971; lia).
      rewrite Hb. unfold SFltb, SFcompare.
      destruct (Z.compare_spec (-54) e2) as [Ee|Ee|Ee]; try reflexivity; [|lia].
      assert (Heq : e2 = ea) by lia. rewrite Heq, Z.sub_diag in M3.
      change (2 ^ 0) with 1 in M3. rewrite compare_cont_Eq.
      destruct (Pos.compare_spec 5404319552844595 p) as [|L|]; try reflexivity.
      assert (L' : 5404319552844595 < Zpos p) by exact L. clear - L' M3. lia.
Qed.

End FloatProduct.

(** * Further properties of the ranking *)

Lemma SFleb_trans x y z :
  nonnegSF x = true -> nonnegSF y = true -> nonnegSF z = true ->
  SFleb x y = true -> SFleb y z = true -> SFleb x z = true.
Proof.
  unfold SFleb, SFcompare.
  destruct x as [sx|sx| |sx mx ex], y as [sy|sy| |sy my ey], z as [sz|sz| |sz mz ez];
    simpl; intros Hx Hy Hz; try discriminate;
    repeat match goal with
           | H : negb ?s = true |- _ => apply negb_true_iff in H; subst s
           end; auto; try discriminate.
  destruct (Z.compare_spec ex ey), (Z.compare_spec ey ez), (Z.compare_spec ex ez);
    try lia; try discriminate; auto; subst.
  rewrite (compare_cont_Eq mx my), (compare_cont_Eq my mz), (compare_cont_Eq mx mz).
  destruct (Pos.compare_spec mx my), (Pos.compare_spec my mz), (Pos.compare_spec mx mz);
    try lia; try discriminate; auto.
Qed.

Lemma float_leb_trans a b c :
  nonnegSF (Prim2SF a) = true -> nonnegSF (Prim2SF b) = true ->
  nonnegSF (Prim2SF c) = true ->
  (a <=? b)%float = true -> (b <=? c)%float = true -> (a <=? c)%float = true.
Proof. rewrite !FloatAxioms.leb_spec. apply SFleb_trans. Qed.

Lemma float_leb_refl a : nonnegSF (Prim2SF a) = true -> (a <=? a)%float = true.
Proof.
  intros H. rewrite FloatAxioms.leb_spec. unfold SFleb.
  rewrite SFcompare_refl by exact H. reflexivity.
Qed.

Lemma float_eqb_refl a : nonnegSF (Prim2SF a) = true -> (a =? a)%float = true.
Proof.
  intros H. rewrite FloatAxioms.eqb_spec. unfold SFeqb.
  rewrite SFcompare_refl by exact H. reflexivity.
Qed.

Lemma head_best x l :
  Forall ordered (x :: l) -> Sorted descending (x :: l) ->
  Forall (fun y => JsNumber.ge (combinedScore x) (combinedScore y) = true) (x :: l).
Proof.
  revert x. induction l as [|y t IH]; intros x Ho Hs.
  - constructor; [|constructor]. inversion Ho; subst. apply float_leb_refl. assumption.
  - inversion Ho as [|? ? Hx Ho']; subst. inversion Hs as [|? ? Hs' Hhd]; subst.
    inversion Hhd as [|? ? Hxy]; subst. specialize (IH y Ho' Hs').
    constructor; [apply float_leb_refl; assumption|].
    assert (Hy : ordered y) by (inversion Ho'; assumption).
    rewrite Forall_forall in *. intros k Hk. unfold JsNumber.ge.
    apply float_leb_trans with (b := combinedScore y); auto.
    + apply Ho'. exact Hk.
    + apply IH. exact Hk.
Qed.

Lemma firstn_head (A : Type) n (x : A) rest : forall l,
  firstn n l = x :: rest -> exists rest', l = x :: rest'.
Proof.
  destruct n; intros [|y l] H; simpl in H; try discriminate.
  injection H as -> _. eauto.
Qed.

Lemma firstn_10_nil (A : Type) (l : list A) : firstn 10 l = [] -> l = [].
Proof. destruct l; [reflexivity|discriminate]. Qed.

Local Open Scope float_scope.

(** X8: when the ranking returns, the client reports no metadata exactly
    when no record was kept; otherwise it reports the year and the square
    footage, sanitised, of a kept match whose combined score is the score it
    reports, which no kept match exceeds, and which is the first in the
    order of the records among the kept matches of that score. *)
Theorem client_reports_best params results out :
  sizedParams params -> Forall sizedRecord results ->
  getSalesforceMetadataByAddress params results = Return out ->
  let kept :=
    flat_map (keptOf (targetStreetOf params) (targetStoreNameOf params)) results in
  match Api.getSalesforceMetadataByAddress out with
  | None => kept = []
  | Some md =>
      exists m later,
        filter (tie (Api.matchScore md)) kept = m :: later
        /\ Api.matchScore md = combinedScore m
        /\ Api.yearBuilt md = Api.sanitizeYearBuilt (matchYearBuilt m)
        /\ Api.squareFootage md = Api.sanitizeSquareFootage (matchNetRsf m)
        /\ Forall (fun k => (combinedScore k <=? Api.matchScore md) = true) kept
  end.
Proof.
  intros Hp Hr H kept. apply getSalesforceMetadataByAddress_inv in H. fold kept in H.
  pose proof (kept_ordered Hp Hr) as Ho. fold kept in Ho.
  pose proof (sort_ordered Ho) as Hso.
  pose proof (sort_descending Ho) as Hsd.
  pose proof (sort_perm byCombinedScore kept) as Hperm.
  destruct out as [|m rest]; cbn [Api.getSalesforceMetadataByAddress].
  - symmetry in H. apply firstn_10_nil in H. rewrite H in Hperm.
    apply Permutation_nil in Hperm. exact Hperm.
  - symmetry in H. apply firstn_head in H. destruct H as (rest' & Hs).
    rewrite Hs in Hso, Hsd, Hperm.
    pose proof (head_best Hso Hsd) as Hb.
    assert (Hm : ordered m) by (inversion Hso; assumption).
    pose proof (sort_tie (combinedScore m) Ho) as Ht. rewrite Hs in Ht.
    cbn [filter] in Ht. unfold tie at 1 in Ht. rewrite (float_eqb_refl _ Hm) in Ht.
    cbn [Api.matchScore Api.yearBuilt Api.squareFootage].
    exists m, (filter (tie (combinedScore m)) rest').
    split; [symmetry; exact Ht|]. repeat split.
    rewrite Forall_forall in *. intros k Hk. apply Hb.
    eapply Permutation_in; [apply Permutation_sym; exact Hperm|exact Hk].
Qed.

Local Close Scope float_scope.

(** X9: the ranking returns as many matches as were kept, up to 10; with at
    most 10 kept it returns them all; it returns none exactly when none was
    kept; and no more matches are kept than there are records. *)
Theorem ranked_count params results out :
  getSalesforceMetadataByAddress params results = Return out ->
  let kept :=
    flat_map (keptOf (targetStreetOf params) (targetStoreNameOf params)) results in
  length out = Nat.min 10 (length kept)
  /\ (length kept <= 10 -> Permutation out kept)
  /\ (out = [] <-> kept = [])
  /\ length kept <= length results.
Proof.
  intros H kept. apply getSalesforceMetadataByAddress_inv in H. fold kept in H.
  pose proof (sort_perm byCombinedScore kept) as Hperm.
  pose proof (Permutation_length Hperm) as Hlen.
  split; [|split; [|split]].
  - rewrite H, length_firstn. lia.
  - intros Hk. rewrite H, firstn_all2 by lia. exact Hperm.
  - rewrite H. split.
    + intros E. apply firstn_10_nil in E. rewrite E in Hperm.
      apply Permutation_nil in Hperm. exact Hperm.
    + intros E. rewrite E. reflexivity.
  - unfold kept. clear. induction results as [|r t IH]; [simpl; lia|].
    cbn [flat_map]. rewrite length_app. unfold keptOf at 1.
    destruct (scoreRecord _ _ r) as [[m|]| |]; simpl; lia.
Qed.

Lemma scoreRecord_outcome ts tn record : covered record ->
  if streetIsText record
  then exists r, scoreRecord ts tn record = Return r
  else scoreRecord ts tn record = TypeError.
Proof.
  unfold covered, streetIsText, scoreRecord, streetOf.
  destruct (parsePythonDict (ShippingAddress record)) as [sa| |] eqn:E;
    intros Hc; [| |contradiction].
  - destruct (shippingStreet sa) as [st|] eqn:Es.
    + assert (Ht : truthy st = true).
      { unfold shippingStreet in Es. destruct sa as [v|]; [|discriminate].
        destruct (truthy v); [|discriminate].
        destruct (getMember v (lit "street")) as [st'|]; [|discriminate].
        destruct (truthy st') eqn:T; [|discriminate]. injection Es as <-. exact T. }
      rewrite Ht. cbn [negb].
      destruct st; try reflexivity.
      match goal with |- context [if ?c then _ else _] => destruct c end; eauto.
    + destruct (truthy (JStr (streetFromName (Name record)))); cbn [negb]; eauto.
      match goal with |- context [if ?c then _ else _] => destruct c end; eauto.
  - (* [parsePythonDict] raises no [TypeError] *)
    exfalso. unfold parsePythonDict in E.
    destruct (ShippingAddress record) as [[|c t]|]; try discriminate.
    destruct (parse (c :: t)); try discriminate.
    destruct (parse (pythonToJson (c :: t))); discriminate.
Qed.

Lemma scoreRecords_outcome ts tn results : Forall covered results ->
  if forallb streetIsText results
  then exists out, scoreRecords ts tn results = Return out
  else scoreRecords ts tn results = TypeError.
Proof.
  induction 1 as [|r t Hr Ht IH]; [simpl; eauto|].
  cbn [forallb scoreRecords]. pose proof (@scoreRecord_outcome ts tn r Hr) as H.
  destruct (streetIsText r); cbn [andb].
  - destruct H as (x & ->).
    destruct (forallb streetIsText t).
    + destruct IH as (out & ->). eauto.
    + rewrite IH. reflexivity.
  - rewrite H. reflexivity.
Qed.

(** X10: on records whose shipping address the embedding covers, the ranking
    returns exactly when the street of every parsed shipping address, where
    there is one, is a text; with a record whose street is another kind of
    value, a number say, the whole ranking ends in a [TypeError]. *)
Theorem ranking_fails_exactly params results :
  Forall covered results ->
  ((exists out, getSalesforceMetadataByAddress params results = Return out)
   <-> forallb streetIsText results = true)
  /\ (getSalesforceMetadataByAddress params results = TypeError
      <-> forallb streetIsText results = false).
Proof.
  intros Hc.
  pose proof (@scoreRecords_outcome (targetStreetOf params) (targetStoreNameOf params)
                results Hc) as H.
  unfold getSalesforceMetadataByAddress.
  fold (targetStreetOf params). fold (targetStoreNameOf params).
  destruct results as [|r t]; [split; split; eauto; discriminate|].
  destruct (forallb streetIsText (r :: t)).
  - destruct H as (out & ->). split; split; eauto; discriminate.
  - rewrite H. split; split; auto; try discriminate. intros (out & E). discriminate.
Qed.

Lemma add_zero_l y : nonnegSF (Prim2SF y) = true -> (0 + y =? y)%float = true.
Proof.
  intros H. rewrite FloatAxioms.eqb_spec, FloatAxioms.add_spec. unfold SF64add, SFeqb.
  change (Prim2SF 0) with (S754_zero false).
  destruct (Prim2SF y) as [[]|[]| |[] m e] eqn:E; simpl in H; try discriminate;
    try reflexivity.
  cbn [SFadd]. rewrite SFcompare_refl; reflexivity.
Qed.

Lemma ltb_add_zero c y : nonnegSF (Prim2SF y) = true ->
  (c <? 0 + y)%float = (c <? y)%float.
Proof.
  intros H. rewrite !FloatAxioms.ltb_spec, FloatAxioms.add_spec. unfold SF64add, SFltb.
  change (Prim2SF 0) with (S754_zero false).
  destruct (Prim2SF y) as [[]|[]| |[] m e] eqn:E; simpl in H; try discriminate;
    reflexivity.
Qed.

Import FloatProduct.
Local Open Scope float_scope.

(** X11: when the query has no store name (none, or one that is empty once
    trimmed), every match returned has the name score 0 and, as its combined
    score, 0.6 times its address score; and its address score is above
    0.5. *)
Theorem unnamed_query_scores params results out m :
  sizedParams params -> Forall sizedRecord results ->
  targetStoreNameOf params = [] ->
  getSalesforceMetadataByAddress params results = Return out -> In m out ->
  nameScore m = 0
  /\ (combinedScore m =? addressScore m * 0.6) = true
  /\ JsNumber.gt (addressScore m) 0.5 = true.
Proof.
  intros Hp Hr Hn H Hm. destruct (@ranked_In _ _ _ _ H Hm) as (record & Hin & Hs).
  rewrite Forall_forall in Hr. specialize (Hr _ Hin).
  pose proof (scoreRecord_inUnit (targetStreetOf_sized Hp) (targetStoreNameOf_sized Hp) Hr Hs)
    as [_ U].
  apply scoreRecord_inv in Hs.
  destruct Hs as (_ & _ & _ & _ & Hns & _ & Hc & Hf).
  rewrite Hn in Hns. cbn [fuzzyMatchScore] in Hns.
  assert (Hz : nameScore m = 0) by (rewrite Hns; reflexivity).
  assert (Hy : nonnegSF (Prim2SF (addressScore m * 0.6)) = true).
  { rewrite FloatAxioms.mul_spec.
    apply mul_nonneg; [apply inUnit_finite; exact U|reflexivity]. }
  rewrite Hz in Hc. change (0 * 0.4) with 0 in Hc.
  split; [exact Hz|]. split; [rewrite Hc; apply add_zero_l; exact Hy|].
  unfold half in Hf. destruct (JsNumber.gt (addressScore m) 0.5) eqn:G; [reflexivity|].
  rewrite orb_false_r in Hf. unfold JsNumber.gt in Hf, G.
  rewrite Hc, ltb_add_zero in Hf by exact Hy.
  rewrite (product_below U G) in Hf. discriminate.
Qed.

Local Close Scope float_scope.

(** X12: a record whose street has the normal form of the street of the
    query, and that is not empty, is kept whatever its name: its address
    score is 1. *)
Theorem same_street_kept params record sa x :
  parsePythonDict (ShippingAddress record) = Return sa ->
  streetOf sa (Name record) = JStr x ->
  normalizeAddress x = normalizeAddress (street params) ->
  normalizeAddress x <> [] ->
  exists m,
    keptOf (targetStreetOf params) (targetStoreNameOf params) record = [m]
    /\ recordOf m = record
    /\ parsedAddress m = x
    /\ addressScore m = 1%float.
Proof.
  intros Hp Hs He Hn. unfold keptOf, scoreRecord. rewrite Hp, Hs.
  assert (Hx : x <> []) by (intros ->; apply Hn; reflexivity).
  assert (Ht : truthy (JStr x) = true).
  { cbn [truthy]. destruct (eqs x []) eqn:E; [apply eqs_true in E; contradiction|reflexivity]. }
  rewrite Ht. cbn [negb]. unfold targetStreetOf. rewrite <- He.
  assert (Ha : fuzzyMatchScore (normalizeAddress x) (normalizeAddress x) = 1%float).
  { rewrite fuzzyMatchScore_unfold. destruct (normalizeAddress x); [contradiction|].
    unfold scoreOf. rewrite eqs_refl. reflexivity. }
  rewrite Ha. change (JsNumber.gt 1 half) with true. rewrite orb_true_r.
  eexists. split; [reflexivity|]. cbn. destruct record; repeat split.
Qed.

Lemma leb_antisym a b :
  (a <=? b)%float = true -> (b <=? a)%float = true -> (a =? b)%float = true.
Proof.
  rewrite !FloatAxioms.leb_spec, FloatAxioms.eqb_spec. unfold SFleb, SFeqb.
  rewrite (SFcompare_antisym (Prim2SF a) (Prim2SF b)).
  destruct (SFcompare (Prim2SF a) (Prim2SF b)) as [[]|]; simpl; congruence.
Qed.

Lemma descending_strongly l :
  Forall ordered l -> Sorted descending l -> StronglySorted descending l.
Proof.
  induction l as [|x t IH]; intros Ho Hs; [constructor|].
  pose proof (head_best Ho Hs) as Hb.
  inversion Ho; subst. inversion Hs; subst. inversion Hb; subst.
  constructor; auto.
Qed.

Lemma strongly_app (A : Type) (R : A -> A -> Prop) l1 : forall l2,
  StronglySorted R (l1 ++ l2) ->
  forall x y, In x l1 -> In y l2 -> R x y.
Proof.
  induction l1 as [|a l1 IH]; intros l2 H x y Hx Hy; [contradiction|].
  cbn [app] in H. inversion H as [|? ? Ht Hall]; subst.
  destruct Hx as [<-|Hx].
  - rewrite Forall_forall in Hall. apply Hall. apply in_or_app. right. exact Hy.
  - eapply IH; eauto.
Qed.

(** X13: the kept matches that the ranking leaves out are as many as were
    kept beyond 10, and none of them has a higher combined score than a
    match that is returned. *)
Theorem ranked_best_ten params results out :
  sizedParams params -> Forall sizedRecord results ->
  getSalesforceMetadataByAddress params results = Return out ->
  let kept :=
    flat_map (keptOf (targetStreetOf params) (targetStoreNameOf params)) results in
  exists dropped,
    Permutation (out ++ dropped) kept
    /\ length dropped = length kept - 10
    /\ forall m d, In m out -> In d dropped ->
         (combinedScore d <=? combinedScore m)%float = true.
Proof.
  intros Hp Hr H kept. apply getSalesforceMetadataByAddress_inv in H. fold kept in H.
  pose proof (kept_ordered Hp Hr) as Ho. fold kept in Ho.
  pose proof (descending_strongly (sort_ordered Ho) (sort_descending Ho)) as Hs.
  pose proof (sort_perm byCombinedScore kept) as Hperm.
  exists (skipn 10 (sort byCombinedScore kept)). rewrite H.
  rewrite firstn_skipn. split; [exact Hperm|]. split.
  - rewrite length_skipn, (Permutation_length Hperm). reflexivity.
  - rewrite <- (firstn_skipn 10 (sort byCombinedScore kept)) in Hs.
    intros m d Hm Hd. apply (strongly_app _ _ Hs _ _ Hm Hd).
Qed.

Lemma tieFree_perm l l' : Permutation l l' -> tieFree l -> tieFree l'.
Proof.
  intros Hp Ht c. specialize (Ht c).
  assert (Hl : length (filter (tie c) l) = length (filter (tie c) l')).
  { apply Permutation_length. clear Ht. induction Hp; cbn [filter].
    - constructor.
    - destruct (tie c x); [constructor|]; auto.
    - destruct (tie c x), (tie c y); first [apply perm_swap|apply Permutation_refl].
    - eapply Permutation_trans; eauto. }
  lia.
Qed.

Lemma tieFree_tail x t : tieFree (x :: t) -> tieFree t.
Proof.
  intros H c. specialize (H c). cbn [filter] in H. destruct (tie c x); cbn [length] in H; lia.
Qed.

Lemma tieFree_head x t y :
  ordered x -> tieFree (x :: t) -> In y t ->
  (combinedScore x =? combinedScore y)%float = false.
Proof.
  intros Hx Ht Hy. destruct (combinedScore x =? combinedScore y)%float eqn:E; [|reflexivity].
  exfalso. specialize (Ht (combinedScore y)). cbn [filter] in Ht.
  unfold tie at 1 in Ht. rewrite E in Ht. cbn [length] in Ht.
  assert (Hin : In y (filter (tie (combinedScore y)) t)).
  { apply filter_In. split; [exact Hy|]. unfold tie.
    rewrite FloatAxioms.eqb_spec in *. unfold SFeqb in *.
    destruct (SFcompare (Prim2SF (combinedScore x)) (Prim2SF (combinedScore y)))
      as [[]|] eqn:C; try discriminate.
    rewrite <- (@SFcompare_Eq_l _ _ (Prim2SF (combinedScore y)) C). rewrite C. reflexivity. }
  destruct (filter (tie (combinedScore y)) t); [contradiction|]. cbn [length] in Ht. lia.
Qed.

Lemma sorted_unique l : forall l',
  Forall ordered l -> tieFree l ->
  StronglySorted descending l -> StronglySorted descending l' ->
  Permutation l l' -> l = l'.
Proof.
  induction l as [|x t IH]; intros l' Ho Ht Hs Hs' Hp.
  - apply Permutation_nil in Hp. auto.
  - destruct l' as [|y t']; [apply Permutation_sym, Permutation_nil in Hp; discriminate|].
    inversion Ho as [|? ? Hx Ho']; subst.
    inversion Hs as [|? ? Hst Hall]; subst. inversion Hs' as [|? ? Hst' Hall']; subst.
    assert (Hy : In y (x :: t)) by (eapply Permutation_in; [apply Permutation_sym; exact Hp|left; reflexivity]).
    assert (Hxin : In x (y :: t')) by (eapply Permutation_in; [exact Hp|left; reflexivity]).
    assert (E : x = y).
    { destruct Hxin as [E|Hxin]; [auto|]. destruct Hy as [E|Hy]; [auto|]. exfalso.
      rewrite Forall_forall in Hall, Hall'.
      pose proof (Hall _ Hy) as H1. pose proof (Hall' _ Hxin) as H2.
      unfold descending, JsNumber.ge in H1, H2.
      pose proof (leb_antisym H2 H1) as E.
      rewrite (@tieFree_head x t y Hx Ht Hy) in E. discriminate. }
    subst y. f_equal. apply IH; auto.
    + eapply tieFree_tail; eauto.
    + eapply Permutation_cons_inv; eauto.
Qed.

Lemma kept_perm ts tn results results' :
  Permutation results results' ->
  Permutation (flat_map (keptOf ts tn) results) (flat_map (keptOf ts tn) results').
Proof.
  induction 1; cbn [flat_map].
  - constructor.
  - apply Permutation_app_head. assumption.
  - rewrite !app_assoc. apply Permutation_app_tail. apply Permutation_app_comm.
  - eapply Permutation_trans; eauto.
Qed.

(** X14: when no two kept matches have the same combined score, the ranking
    returns the same list for the records in any order. *)
Theorem ranked_order_independent params results results' out out' :
  sizedParams params -> Forall sizedRecord results ->
  Permutation results results' ->
  tieFree (flat_map (keptOf (targetStreetOf params) (targetStoreNameOf params)) results) ->
  getSalesforceMetadataByAddress params results = Return out ->
  getSalesforceMetadataByAddress params results' = Return out' ->
  out = out'.
Proof.
  intros Hp Hr Hperm Ht H H'.
  assert (Hr' : Forall sizedRecord results').
  { rewrite Forall_forall in *. intros r Hin. apply Hr.
    eapply Permutation_in; [apply Permutation_sym; exact Hperm|exact Hin]. }
  apply getSalesforceMetadataByAddress_inv in H, H'.
  pose proof (kept_ordered Hp Hr) as Ho. pose proof (kept_ordered Hp Hr') as Ho'.
  set (kept := flat_map _ results) in *. set (kept' := flat_map _ results') in *.
  assert (Hk : Permutation kept kept') by (apply kept_perm; exact Hperm).
  rewrite H, H'. f_equal.
  apply sorted_unique.
  - apply sort_ordered. exact Ho.
  - eapply tieFree_perm; [apply Permutation_sym, sort_perm|exact Ht].
  - apply descending_strongly; [apply sort_ordered|apply sort_descending]; exact Ho.
  - apply descending_strongly; [apply sort_ordered|apply sort_descending]; exact Ho'.
  - eapply Permutation_trans; [apply sort_perm|].
    eapply Permutation_trans; [exact Hk|apply Permutation_sym, sort_perm].
Qed.

(** * The test for an address and the reading of a year *)

Lemma startsWith_spec p : forall s, startsWith p s = true <-> exists v, s = p ++ v.
Proof.
  induction p as [|x p IH]; intros s.
  - split; [intros _; exists s; reflexivity|reflexivity].
  - destruct s as [|y s]; cbn [startsWith].
    + split; [discriminate|]. intros (v & H). discriminate.
    + rewrite andb_true_iff, IH. split.
      * intros (E & v & ->). apply Ascii.eqb_eq in E. subst y. exists v. reflexivity.
      * intros (v & H). injection H as -> ->. split; [apply Ascii.eqb_refl|eauto].
Qed.

Lemma includes_spec s : forall p, includes s p = true <-> exists u v, s = u ++ p ++ v.
Proof.
  induction s as [|c t IH]; intros p; cbn [includes].
  - rewrite orb_false_r, startsWith_spec. split.
    + intros (v & H). exists [], v. exact H.
    + intros (u & v & H). destruct u; [exists v; exact H|discriminate].
  - rewrite orb_true_iff, startsWith_spec, IH. split.
    + intros [(v & H)|(u & v & ->)]; [exists [], v; exact H|exists (c :: u), v; reflexivity].
    + intros (u & v & H). destruct u as [|d u].
      * left. exists v. exact H.
      * right. injection H as -> ->. eauto.
Qed.

(** X15: the second part of a name counts as an address exactly when it has
    a decimal digit or when, in lower case, it contains one of st, ave, rd,
    blvd, dr, way, lane, court anywhere, also inside a word. *)
Theorem looksLikeAddress_anywhere p :
  looksLikeAddress p = true <->
  (exists c, In c p /\ isDigit c = true)
  \/ (exists u w v, In w streetSuffixes /\ toLowerCase p = u ++ w ++ v).
Proof.
  rewrite looksLikeAddress_spec, orb_true_iff. unfold hasDigit, hasStreetSuffix.
  rewrite !existsb_exists. split.
  - intros [H|(w & Hw & Hi)]; [left; exact H|right].
    apply includes_spec in Hi. destruct Hi as (u & v & E). exists u, w, v. auto.
  - intros [H|(u & w & v & Hw & E)]; [left; exact H|right].
    exists w. split; [exact Hw|]. apply includes_spec. eauto.
Qed.

Lemma trimStart_spaces ws s :
  Forall (fun c => isSpace c = true) ws -> trimStart (ws ++ s) = trimStart s.
Proof. induction 1 as [|c ws Hc _ IH]; [reflexivity|]. cbn. rewrite Hc. exact IH. Qed.

Lemma takeWhile_digits ds rest :
  forallb isDigit ds = true ->
  match rest with c :: _ => isDigit c = false | [] => True end ->
  Decimal.takeWhile isDigit (ds ++ rest) = ds.
Proof.
  intros Hd Hr. induction ds as [|d ds IH].
  - destruct rest as [|c rest]; [reflexivity|]. cbn. rewrite Hr. reflexivity.
  - cbn in *. apply andb_prop in Hd. destruct Hd as [H1 H2]. rewrite H1, IH by auto.
    reflexivity.
Qed.

Lemma digit_plain c : isDigit c = true ->
  isSpace c = false /\ eqc c "-"%char = false /\ eqc c "+"%char = false.
Proof.
  destruct c as [[] [] [] [] [] [] [] []]; intros H; try discriminate H; repeat split.
Qed.

(** X16: the year is read from the digits a text starts with, after white
    space; what follows the digits is not looked at.  The year is kept when
    the number of these digits is between 1900 and 2030. *)
Theorem sanitizeYearBuilt_leading_digits ws ds rest :
  Forall (fun c => isSpace c = true) ws ->
  ds <> [] -> forallb isDigit ds = true ->
  match rest with c :: _ => isDigit c = false | [] => True end ->
  Api.parseInt10 (ws ++ ds ++ rest) = Some (Decimal.digitsToZ ds)
  /\ Api.sanitizeYearBuilt (Some (ws ++ ds ++ rest))
     = if (1900 <=? Decimal.digitsToZ ds)%Z && (Decimal.digitsToZ ds <=? 2030)%Z
       then Some (Decimal.digitsToZ ds)
       else None.
Proof.
  intros Hws Hne Hd Hr.
  assert (Hp : Api.parseInt10 (ws ++ ds ++ rest) = Some (Decimal.digitsToZ ds)).
  { unfold Api.parseInt10. rewrite trimStart_spaces by exact Hws.
    destruct ds as [|d ds']; [contradiction|].
    pose proof Hd as Hd'. cbn [forallb] in Hd'. apply andb_prop in Hd'.
    destruct Hd' as [H1 _]. destruct (digit_plain _ H1) as (S1 & S2 & S3).
    cbn [app trimStart]. rewrite S1, S2, S3.
    change (d :: ds' ++ rest) with ((d :: ds') ++ rest).
    rewrite takeWhile_digits by auto. reflexivity. }
  split; [exact Hp|]. unfold Api.sanitizeYearBuilt. rewrite Hp.
  destruct (ws ++ ds ++ rest) eqn:E; [|reflexivity].
  apply app_eq_nil in E. destruct E as [_ E]. apply app_eq_nil in E. tauto.
Qed.

(** * The parts of a name *)

Lemma startsWith_long sep : forall u v,
  length sep <= length u -> startsWith sep (u ++ v) = startsWith sep u.
Proof.
  induction sep as [|x sep IH]; intros u v H; [reflexivity|].
  destruct u as [|y u]; [cbn in H; lia|]. cbn in *. rewrite IH by lia. reflexivity.
Qed.

Lemma includes_skipn s p : includes s p = false ->
  forall i, startsWith p (skipn i s) = false.
Proof.
  induction s as [|c t IH]; intros H i.
  - cbn in H. rewrite orb_false_r in H. destruct i; exact H.
  - cbn [includes] in H. apply orb_false_elim in H. destruct H as [H1 H2].
    destruct i as [|i]; [exact H1|]. apply IH. exact H2.
Qed.

Lemma splitGo_skip sep v : forall cur r,
  splitGo sep cur (length v) (v ++ r) = splitGo sep cur 0 r.
Proof.
  induction v as [|c v IH]; intros cur r; [destruct r; reflexivity|].
  cbn [length app splitGo]. apply IH.
Qed.

Lemma splitGo_part sep b : forall cur r,
  sep <> [] ->
  (forall i, i < length b -> startsWith sep (skipn i (b ++ sep ++ r)) = false) ->
  splitGo sep cur 0 (b ++ sep ++ r) = (rev cur ++ b) :: splitGo sep [] 0 r.
Proof.
  induction b as [|c b IH]; intros cur r Hs Hb.
  - destruct sep as [|x sep']; [contradiction|]. cbn [app].
    change ((x :: sep') ++ r) with (x :: (sep' ++ r)).
    cbn [splitGo]. change (x :: sep' ++ r) with ((x :: sep') ++ r).
    rewrite startsWith_app.
    replace (length (x :: sep') - 1) with (length sep') by (cbn [length]; lia).
    rewrite splitGo_skip, app_nil_r. reflexivity.
  - pose proof (Hb 0 ltac:(cbn; lia)) as H0. cbn [skipn] in H0.
    change ((c :: b) ++ sep ++ r) with (c :: (b ++ sep ++ r)) in *.
    cbn [splitGo]. rewrite H0. rewrite IH; auto.
    + cbn [rev]. rewrite <- app_assoc. reflexivity.
    + intros i Hi. apply (Hb (S i)). cbn. lia.
Qed.

Lemma splitGo_whole sep s : forall cur,
  sep <> [] -> includes s sep = false -> splitGo sep cur 0 s = [rev cur ++ s].
Proof.
  induction s as [|c t IH]; intros cur Hs H.
  - cbn. rewrite app_nil_r. reflexivity.
  - cbn [includes] in H. apply orb_false_elim in H. destruct H as [H1 H2].
    cbn [splitGo]. rewrite H1, IH by auto. cbn [rev]. rewrite <- app_assoc. reflexivity.
Qed.

Lemma before_separator b r :
  includes (b ++ lit " -") separator = false ->
  forall i, i < length b ->
    startsWith separator (skipn i (b ++ separator ++ r)) = false.
Proof.
  intros H i Hi. change separator with (lit " -" ++ lit " ").
  rewrite <- !app_assoc. rewrite (app_assoc b). rewrite skipn_app.
  rewrite startsWith_long.
  - apply includes_skipn. exact H.
  - rewrite length_skipn, !length_app.
    change (length (lit " -")) with 2. change (length (lit " ")) with 1. lia.
Qed.

Lemma split_first b r :
  includes (b ++ lit " -") separator = false ->
  split (b ++ separator ++ r) separator = b :: split r separator.
Proof.
  intros H. unfold split. rewrite splitGo_part; [reflexivity|discriminate|].
  apply before_separator. exact H.
Qed.

(** X17: of a name whose first part holds no separator (also not one that
    ends in the separator that follows), the brand is the first part,
    trimmed; the street is the text behind the first separator up to the
    next one, or up to the end of the name, trimmed, if that text counts as
    an address, and empty if not. *)
Theorem name_parts b r :
  includes (b ++ lit " -") separator = false ->
  storeBrand (b ++ separator ++ r) = trim b
  /\ (includes r separator = false ->
        streetFromName (b ++ separator ++ r)
        = if looksLikeAddress (trim r) then trim r else [])
  /\ (forall s rest, r = s ++ separator ++ rest ->
        includes (s ++ lit " -") separator = false ->
        streetFromName (b ++ separator ++ r)
        = if looksLikeAddress (trim s) then trim s else []).
Proof.
  intros Hb.
  assert (Hi : includes (b ++ separator ++ r) separator = true)
    by (apply includes_spec; eauto).
  unfold storeBrand, streetFromName. cbv zeta. rewrite Hi, !split_first by exact Hb.
  split; [reflexivity|]. split.
  - intros Hr.
    assert (E : split r separator = [r])
      by (unfold split; rewrite splitGo_whole by (auto; discriminate); reflexivity).
    rewrite E. reflexivity.
  - intros s rest -> Hs. rewrite !split_first by exact Hs. reflexivity.
Qed.

Lemma name_parts_witness :
  includes (lit "Acme Storage" ++ lit " -") separator = false
  /\ storeBrand (lit "Acme Storage" ++ separator ++ lit "456 Oak Ave - Unit 5")
     = lit "Acme Storage"
  /\ streetFromName (lit "Acme Storage" ++ separator ++ lit "456 Oak Ave - Unit 5")
     = lit "456 Oak Ave".
Proof.
  assert (Hb : includes (lit "Acme Storage" ++ lit " -") separator = false)
    by (vm_compute; reflexivity).
  assert (Hs : includes (lit "456 Oak Ave" ++ lit " -") separator = false)
    by (vm_compute; reflexivity).
  split; [exact Hb|].
  destruct (@name_parts (lit "Acme Storage") (lit "456 Oak Ave - Unit 5") Hb)
    as (H1 & _ & H3).
  split; [exact H1|].
  exact (H3 (lit "456 Oak Ave") (lit "Unit 5") eq_refl Hs).
Defined.

(** * The queries *)

Module QueriesFacts.
Import Queries.

Lemma escapeQuotes_flat s :
  escapeQuotes s = flat_map (fun c => if eqc c "'"%char then lit "''" else [c]) s.
Proof.
  unfold escapeQuotes, replaceAll. generalize (@None ascii).
  induction s as [|c t IH]; intros prev; [reflexivity|].
  cbn [replaceGo flat_map]. unfold literal at 1.
  change (lit "'") with ["'"%char]. cbn [startsWith length].
  rewrite eqc_sym. destruct (eqc c "'"%char).
  - cbn [andb]. rewrite IH. reflexivity.
  - cbn [andb]. rewrite IH. reflexivity.
Qed.

Lemma readSqlString_escaped s : forall t,
  readSqlString (escapeQuotes s ++ t) =
  match readSqlString t with
  | Some (v, r) => Some (s ++ v, r)
  | None => None
  end.
Proof.
  rewrite escapeQuotes_flat. induction s as [|c s IH]; intros t.
  - cbn [flat_map app]. destruct (readSqlString t) as [[v r]|]; reflexivity.
  - cbn [flat_map]. destruct (eqc c "'"%char) eqn:E.
    + apply Ascii.eqb_eq in E. subst c. change (lit "''") with ["'"%char; "'"%char].
      cbn [app readSqlString]. change (eqc "'" "'") with true. cbv iota.
      rewrite IH. destruct (readSqlString t) as [[v r]|]; reflexivity.
    + cbn [app readSqlString]. rewrite E. rewrite IH.
      destruct (readSqlString t) as [[v r]|]; reflexivity.
Qed.

(** X18: whatever the store name, the query of [getSalesforceByName] is the
    same text up to the opening quote of the pattern of its [LIKE]; read as
    a string literal of Transact-SQL, what follows the quote is the store
    name between two percent signs, and behind the closing quote the same
    text follows for every store name. *)
Theorem getSalesforceByNameSql_literal storeName :
  exists body,
    getSalesforceByNameSql storeName
    = (newline ++ lit "    SELECT TOP 5 Name, Year_Built__c, Net_RSF__c, ShippingAddress"
       ++ newline ++ lit "    FROM dbo.Salesforce_rawData"
       ++ newline ++ lit "    WHERE Name LIKE ") ++ "'"%char :: body
    /\ readSqlString body
       = Some (lit "%" ++ storeName ++ lit "%",
               newline
               ++ lit "      AND (Year_Built__c IS NOT NULL OR Net_RSF__c IS NOT NULL)"
               ++ newline ++ lit "  ").
Proof.
  exists (lit "%" ++ escapeQuotes storeName ++ sqlBehindName). split.
  - unfold getSalesforceByNameSql, sqlBeforeName.
    change (lit "    WHERE Name LIKE '%") with (lit "    WHERE Name LIKE " ++ "'"%char :: lit "%").
    rewrite <- !app_assoc. reflexivity.
  - change (lit "%") with ["%"%char]. cbn [app readSqlString].
    change (eqc "%" "'") with false. cbv iota.
    rewrite readSqlString_escaped. reflexivity.
Qed.

Lemma arrayMember_array v key x : arrayMember v key = Some x -> isArray x = true.
Proof.
  unfold arrayMember. destruct (getMember v key) as [y|]; [|discriminate].
  destruct (truthy y && isArray y) eqn:E; [|discriminate].
  intros H. injection H as <-. apply andb_prop in E. tauto.
Qed.

Lemma arrayMember_none v key : isArray v = true -> arrayMember v key = None.
Proof. destruct v; try discriminate. reflexivity. Qed.

Lemma universalQuery_array x : isArray x = true -> universalQuery x = Return x.
Proof.
  intros H. unfold universalQuery. rewrite (@arrayMember_none _ _ H), H.
  destruct x; try discriminate. reflexivity.
Qed.

(** What is returned is an array, or the body, which then holds no array
    under [results] or [data]. *)
Lemma universalQuery_inv jsonResponse rawResult :
  universalQuery jsonResponse = Return rawResult ->
  isArray rawResult = true
  \/ (rawResult = jsonResponse
      /\ isArray jsonResponse = false
      /\ arrayMember jsonResponse (lit "results") = None
      /\ arrayMember jsonResponse (lit "data") = None).
Proof.
  intros H. unfold universalQuery in H.
  destruct (arrayMember jsonResponse (lit "results")) as [r|] eqn:Er.
  - assert (rawResult = r) by (destruct jsonResponse; congruence). subst r.
    left. apply (@arrayMember_array _ _ _ Er).
  - destruct (isArray jsonResponse) eqn:Ea.
    + assert (rawResult = jsonResponse) by (destruct jsonResponse; congruence).
      subst rawResult. left. exact Ea.
    + destruct (arrayMember jsonResponse (lit "data")) as [d|] eqn:Ed.
      * assert (rawResult = d) by (destruct jsonResponse; congruence). subst d.
        left. apply (@arrayMember_array _ _ _ Ed).
      * assert (rawResult = jsonResponse) by (destruct jsonResponse; congruence).
        subst rawResult. right. auto.
Qed.

(** X19: [universalQuery] raises a [TypeError] on the body [null].  What it
    returns it returns again when given it; a value that is no array is
    returned only as the body itself, when the body has no array under
    [results] or [data]; and an array under [results] is returned whatever
    else the body holds. *)
Theorem universalQuery_unwraps jsonResponse :
  (jsonResponse = JNull -> universalQuery jsonResponse = TypeError)
  /\ (forall rawResult, universalQuery jsonResponse = Return rawResult ->
        universalQuery rawResult = Return rawResult
        /\ (isArray rawResult = false ->
              rawResult = jsonResponse
              /\ arrayMember jsonResponse (lit "results") = None
              /\ arrayMember jsonResponse (lit "data") = None))
  /\ (forall results, arrayMember jsonResponse (lit "results") = Some results ->
        universalQuery jsonResponse = Return results).
Proof.
  split; [intros ->; reflexivity|]. split.
  - intros raw H.
    destruct (universalQuery_inv _ H) as [Ha|(-> & Ea & Er & Ed)].
    + split; [apply universalQuery_array; exact Ha|]. rewrite Ha. discriminate.
    + split; [exact H|]. auto.
  - intros r H. unfold universalQuery. rewrite H.
    destruct jsonResponse; try reflexivity. discriminate.
Qed.

Lemma universalQuery_not_null jsonResponse rawResult :
  universalQuery jsonResponse = Return rawResult -> rawResult <> JNull.
Proof.
  intros H E. subst rawResult.
  assert (Harr : forall v k, arrayMember v k <> Some JNull).
  { intros v k A. apply arrayMember_array in A. discriminate. }
  unfold universalQuery in H.
  destruct jsonResponse as [|b|x|s|l|ms]; try discriminate H;
    (destruct (arrayMember _ (lit "results")) as [j|] eqn:A1;
     [injection H as ->; exact (Harr _ _ A1)|]);
    cbn [isArray] in H; try discriminate H;
    (destruct (arrayMember _ (lit "data")) as [j|] eqn:A2;
     [injection H as ->; exact (Harr _ _ A2)|]); discriminate H.
Qed.

(** X20: the rows that [getTrailing12MonthRates] goes through are read from
    [results] of what [universalQuery] returned; whenever that is an array,
    the rows are the empty array, and in no case are the rows an array that
    is not empty. *)
Theorem trailing_rates_rows jsonResponse rawResult :
  universalQuery jsonResponse = Return rawResult ->
  exists v,
    rows rawResult = Return v
    /\ (isArray rawResult = true -> v = JArr [])
    /\ (forall l, v = JArr l -> l = []).
Proof.
  intros H. pose proof (universalQuery_not_null _ H) as Hn.
  assert (Hr : rows rawResult
               = Return match getMember rawResult (lit "results") with
                        | Some results => if truthy results then results else JArr []
                        | None => JArr []
                        end).
  { unfold rows. destruct rawResult; try reflexivity; try contradiction;
      destruct (getMember _ _); reflexivity. }
  eexists. split; [exact Hr|]. split.
  - intros Ha. destruct rawResult; try discriminate. reflexivity.
  - intros l Hl. destruct (isArray rawResult) eqn:Ea.
    + destruct rawResult; try discriminate. cbn in Hl. congruence.
    + destruct (universalQuery_inv _ H) as [Ha|(-> & _ & Hres & _)]; [congruence|].
      unfold arrayMember in Hres.
      destruct (getMember jsonResponse (lit "results")) as [x|]; [|congruence].
      destruct (truthy x) eqn:T; [|congruence]. subst x. cbn in Hres. discriminate.
Qed.

End QueriesFacts.

(** * The retries of [fetchHistoricalData] *)

Module StorTrackFacts.
Import StorTrack.

Lemma attempts_failed answers maxRetries attempt remaining waits :
  succeeded (answers attempt) = false ->
  attempts answers maxRetries attempt (S remaining) waits =
  (if rateLimited (answers attempt) || negb (attempt =? maxRetries - 1)
   then attempts answers maxRetries (S attempt) remaining
          (waits ++ [match answers attempt with
                     | NotOk status _ =>
                         if status =? 429 then 60000%N
                         else if existsb (Nat.eqb status) [500; 503; 404]
                                 && (attempt <? maxRetries - 1)
                         then (5000 * N.of_nat (attempt + 1))%N
                         else (2000 * N.of_nat (attempt + 1))%N
                     | _ => (2000 * N.of_nat (attempt + 1))%N
                     end])
   else (Thrown match answers attempt with
                | NotOk status (Some _) => ApiError status
                | _ => Environment
                end, waits)).
Proof.
  intros Hs. cbn [attempts]. unfold rateLimited.
  destruct (answers attempt) as [[r|]|status text|]; try discriminate.
  - destruct (attempt =? maxRetries - 1); reflexivity.
  - destruct (status =? 429); [reflexivity|]. cbn [orb].
    destruct (existsb (Nat.eqb status) [500; 503; 404]).
    + destruct (Nat.eqb_spec attempt (maxRetries - 1)) as [E|N].
      * destruct (Nat.ltb_spec attempt (maxRetries - 1)); [lia|].
        cbn [andb negb]. destruct text; reflexivity.
      * destruct (attempt <? maxRetries - 1); cbn [andb negb]; [reflexivity|].
        destruct text; reflexivity.
    + cbn [andb]. destruct text; destruct (attempt =? maxRetries - 1); reflexivity.
  - destruct (attempt =? maxRetries - 1); reflexivity.
Qed.

Lemma attempts_first_success answers maxRetries k : forall attempt waits result,
  attempt + k < maxRetries ->
  (forall j, j < k -> succeeded (answers (attempt + j)) = false) ->
  answers (attempt + k) = Ok (Some result) ->
  exists waits',
    attempts answers maxRetries attempt (maxRetries - attempt) waits
    = (Returned (asArray result), waits ++ waits')
    /\ length waits' = k.
Proof.
  induction k as [|k IH]; intros attempt waits result Hk Hf Hs.
  - rewrite Nat.add_0_r in Hs. exists []. rewrite app_nil_r.
    destruct (maxRetries - attempt) as [|rem] eqn:E; [lia|].
    cbn [attempts]. rewrite Hs. auto.
  - destruct (maxRetries - attempt) as [|rem] eqn:E; [lia|].
    assert (H0 : succeeded (answers attempt) = false).
    { specialize (Hf 0). rewrite Nat.add_0_r in Hf. apply Hf. lia. }
    rewrite attempts_failed by exact H0.
    assert (Hne : (attempt =? maxRetries - 1) = false) by (apply Nat.eqb_neq; lia).
    rewrite Hne, orb_true_r.
    replace rem with (maxRetries - S attempt) by lia.
    match goal with |- context [attempts _ _ _ _ (waits ++ [?d])] => set (delay := d) end.
    destruct (IH (S attempt) (waits ++ [delay]) result) as (w & Hw & Hl).
    + lia.
    + intros j Hj. replace (S attempt + j) with (attempt + S j) by lia. apply Hf. lia.
    + replace (S attempt + k) with (attempt + S k) by lia. exact Hs.
    + rewrite Hw. rewrite <- app_assoc. eexists. split; [reflexivity|].
      cbn [length app]. lia.
Qed.

(** X21: with a token, when among the first [maxRetries] answers of the
    service one is a response that is [ok] and readable, [fetchHistoricalData]
    returns the result of the first of these, as an array, after waiting
    once for each answer before it, of whatever kind. *)
Theorem fetchHistoricalData_first_success token answers maxRetries k result :
  token <> [] -> k < maxRetries ->
  (forall j, j < k -> succeeded (answers j) = false) ->
  answers k = Ok (Some result) ->
  exists waits,
    fetchHistoricalData (Some token) answers maxRetries = (Returned (asArray result), waits)
    /\ length waits = k.
Proof.
  intros Ht Hk Hf Hs. unfold fetchHistoricalData.
  destruct token as [|c t]; [contradiction|].
  destruct (@attempts_first_success answers maxRetries k 0 [] result) as (w & Hw & Hl); auto.
  rewrite Nat.sub_0_r in Hw. exists w. split; auto.
Qed.

Lemma attempts_exhausted answers maxRetries remaining : forall attempt waits,
  attempt + remaining = maxRetries ->
  (forall j, attempt <= j -> j < maxRetries -> succeeded (answers j) = false) ->
  exists e waits',
    attempts answers maxRetries attempt remaining waits = (Thrown e, waits ++ waits')
    /\ length waits' <= remaining
    /\ (match remaining with
        | O => e = MaxRetriesExceeded /\ waits' = []
        | S _ =>
            if rateLimited (answers (maxRetries - 1))
            then e = MaxRetriesExceeded /\ length waits' = remaining
            else e = match answers (maxRetries - 1) with
                     | NotOk status (Some _) => ApiError status
                     | _ => Environment
                     end
                 /\ S (length waits') = remaining
        end).
Proof.
  induction remaining as [|rem IH]; intros attempt waits Ha Hf.
  - exists MaxRetriesExceeded, []. rewrite app_nil_r. cbn. auto.
  - assert (H0 : succeeded (answers attempt) = false) by (apply Hf; lia).
    rewrite attempts_failed by exact H0.
    destruct rem as [|rem'].
    + assert (E : attempt = maxRetries - 1) by lia. rewrite <- E.
      rewrite Nat.eqb_refl. cbn [negb]. rewrite orb_false_r.
      destruct (rateLimited (answers attempt)) eqn:R.
      * cbn [attempts]. eexists MaxRetriesExceeded, [_]. cbn. auto.
      * eexists _, []. rewrite app_nil_r. cbn. auto.
    + assert (Hne : (attempt =? maxRetries - 1) = false) by (apply Nat.eqb_neq; lia).
      rewrite Hne, orb_true_r.
      match goal with |- context [attempts _ _ _ _ (waits ++ [?d])] => set (delay := d) end.
      destruct (IH (S attempt) (waits ++ [delay])) as (e & w & Hw & Hl & Hc); [lia| |].
      * intros j Hj1 Hj2. apply Hf; lia.
      * rewrite Hw, <- app_assoc. exists e, ([delay] ++ w). split; [reflexivity|].
        cbn [length app]. split; [lia|].
        destruct (rateLimited (answers (maxRetries - 1))); destruct Hc as [Hc1 Hc2];
          split; auto; lia.
Qed.

(** X22: with a token and at least one turn, when none of the [maxRetries]
    answers is a response that is [ok] and readable, [fetchHistoricalData]
    throws: the error of the last turn after one wait fewer than turns, or,
    when the last answer has the status 429, the error that the retries are
    exceeded after as many waits as turns. *)
Theorem fetchHistoricalData_exhausted token answers maxRetries :
  token <> [] -> 0 < maxRetries ->
  (forall j, j < maxRetries -> succeeded (answers j) = false) ->
  exists e waits,
    fetchHistoricalData (Some token) answers maxRetries = (Thrown e, waits)
    /\ (if rateLimited (answers (maxRetries - 1))
        then e = MaxRetriesExceeded /\ length waits = maxRetries
        else e = match answers (maxRetries - 1) with
                 | NotOk status (Some _) => ApiError status
                 | _ => Environment
                 end
             /\ S (length waits) = maxRetries).
Proof.
  intros Ht Hm Hf. unfold fetchHistoricalData.
  destruct token as [|c t]; [contradiction|].
  destruct (@attempts_exhausted answers maxRetries maxRetries 0 []) as (e & w & Hw & _ & Hc);
    [lia|intros; apply Hf; lia|].
  exists e, w. split; [exact Hw|].
  destruct maxRetries as [|n]; [lia|]. exact Hc.
Qed.

End StorTrackFacts.

(** * Instances *)

Lemma tieFree_two kept a b :
  kept = [a; b] -> (combinedScore a <? combinedScore b)%float = true -> tieFree kept.
Proof.
  intros -> H c. cbn [filter]. unfold tie.
  destruct (combinedScore a =? c)%float eqn:E.
  - rewrite (ltb_eqb_apart H E). cbn. lia.
  - destruct (combinedScore b =? c)%float; cbn; lia.
Qed.

(** Surrounding white space and letter case do not count. *)
Lemma fuzzyMatchScore_one_witness :
  jsString (lit " Acme ") /\ jsString (lit "ACME")
  /\ fuzzyMatchScore (lit " Acme ") (lit "ACME") = 1%float.
Proof.
  assert (Ha : jsString (lit " Acme ")) by (vm_compute; reflexivity).
  assert (Hb : jsString (lit "ACME")) by (vm_compute; reflexivity).
  split; [exact Ha|]. split; [exact Hb|].
  apply (proj2 (fuzzyMatchScore_one Ha Hb)).
  split; [discriminate|]. split; [discriminate|]. vm_compute. reflexivity.
Defined.

(** Three characters, all three to be replaced. *)
Lemma fuzzyMatchScore_zero_witness :
  jsString (lit "abc") /\ jsString (lit "xyz")
  /\ fuzzyMatchScore (lit "abc") (lit "xyz") = 0%float.
Proof.
  assert (Ha : jsString (lit "abc")) by (vm_compute; reflexivity).
  assert (Hb : jsString (lit "xyz")) by (vm_compute; reflexivity).
  split; [exact Ha|]. split; [exact Hb|].
  apply (proj2 (fuzzyMatchScore_zero Ha Hb)).
  right. right. split; [vm_compute; discriminate|].
  right. split; vm_compute; reflexivity.
Defined.

(** The three records of which the second is the best. *)
Lemma client_reports_best_witness :
  sizedParams (acmeQuery [] [] [])
  /\ Forall sizedRecord tiedRecords
  /\ exists out,
       getSalesforceMetadataByAddress (acmeQuery [] [] []) tiedRecords = Return out
       /\ let kept :=
            flat_map (keptOf (targetStreetOf (acmeQuery [] [] []))
                             (targetStoreNameOf (acmeQuery [] [] []))) tiedRecords in
          match Api.getSalesforceMetadataByAddress out with
          | None => kept = []
          | Some md =>
              exists m later,
                filter (tie (Api.matchScore md)) kept = m :: later
                /\ Api.matchScore md = combinedScore m
                /\ Api.yearBuilt md = Api.sanitizeYearBuilt (matchYearBuilt m)
                /\ Api.squareFootage md = Api.sanitizeSquareFootage (matchNetRsf m)
                /\ Forall (fun k => (combinedScore k <=? Api.matchScore md)%float = true) kept
          end.
Proof.
  assert (Hp : sizedParams (acmeQuery [] [] []))
    by (split; vm_compute; reflexivity).
  assert (Hr : Forall sizedRecord tiedRecords)
    by (repeat constructor; vm_compute; reflexivity).
  assert (H : exists out,
             getSalesforceMetadataByAddress (acmeQuery [] [] []) tiedRecords = Return out)
    by (eexists; vm_compute; reflexivity).
  split; [exact Hp|]. split; [exact Hr|].
  destruct H as (out & H). exists out. split; [exact H|].
  exact (@client_reports_best _ _ _ Hp Hr H).
Defined.

Lemma ranked_count_witness :
  exists out,
    getSalesforceMetadataByAddress (acmeQuery [] [] []) tiedRecords = Return out
    /\ length out = 3
    /\ let kept :=
         flat_map (keptOf (targetStreetOf (acmeQuery [] [] []))
                          (targetStoreNameOf (acmeQuery [] [] []))) tiedRecords in
       length out = Nat.min 10 (length kept)
       /\ (length kept <= 10 -> Permutation out kept)
       /\ (out = [] <-> kept = [])
       /\ length kept <= length tiedRecords.
Proof.
  assert (H : exists out,
             getSalesforceMetadataByAddress (acmeQuery [] [] []) tiedRecords = Return out
             /\ length out = 3)
    by (eexists; split; vm_compute; reflexivity).
  destruct H as (out & H & Hl). exists out. split; [exact H|]. split; [exact Hl|].
  exact (@ranked_count _ _ _ H).
Defined.

(** One record with a number for a street fails the whole ranking. *)
Lemma ranking_fails_exactly_witness :
  Forall covered [acmeRecord None None; numberedRecord]
  /\ forallb streetIsText [acmeRecord None None; numberedRecord] = false
  /\ getSalesforceMetadataByAddress (acmeQuery [] [] [])
       [acmeRecord None None; numberedRecord] = TypeError.
Proof.
  assert (Hc : Forall covered [acmeRecord None None; numberedRecord])
    by (repeat constructor; intros H; vm_compute in H; discriminate).
  assert (Hs : forallb streetIsText [acmeRecord None None; numberedRecord] = false)
    by (vm_compute; reflexivity).
  split; [exact Hc|]. split; [exact Hs|].
  apply (proj2 (proj2 (@ranking_fails_exactly (acmeQuery [] [] []) _ Hc))). exact Hs.
Defined.

Lemma unnamed_query_scores_witness :
  sizedParams pineQuery
  /\ Forall sizedRecord [pineRecord None None]
  /\ targetStoreNameOf pineQuery = []
  /\ exists m,
       getSalesforceMetadataByAddress pineQuery [pineRecord None None] = Return [m]
       /\ In m [m]
       /\ nameScore m = 0%float
       /\ (combinedScore m =? addressScore m * 0.6)%float = true
       /\ JsNumber.gt (addressScore m) 0.5 = true.
Proof.
  assert (Hp : sizedParams pineQuery) by (split; vm_compute; reflexivity).
  assert (Hr : Forall sizedRecord [pineRecord None None])
    by (repeat constructor; vm_compute; reflexivity).
  assert (Hn : targetStoreNameOf pineQuery = []) by reflexivity.
  assert (H : exists m,
             getSalesforceMetadataByAddress pineQuery [pineRecord None None] = Return [m])
    by (eexists; vm_compute; reflexivity).
  split; [exact Hp|]. split; [exact Hr|]. split; [exact Hn|].
  destruct H as (m & H). exists m. split; [exact H|]. split; [left; reflexivity|].
  exact (@unnamed_query_scores _ _ _ _ Hp Hr Hn H (or_introl eq_refl)).
Defined.

Lemma same_street_kept_witness :
  parsePythonDict (ShippingAddress (pineRecord None None))
  = Return (Some (JObj [(lit "street", JStr (lit "789 Pine Rd"));
                        (lit "city", JStr (lit "Metro"))]))
  /\ normalizeAddress (lit "789 Pine Rd") = normalizeAddress (street pineQuery)
  /\ normalizeAddress (lit "789 Pine Rd") <> []
  /\ exists m,
       keptOf (targetStreetOf pineQuery) (targetStoreNameOf pineQuery) (pineRecord None None)
       = [m]
       /\ recordOf m = pineRecord None None
       /\ parsedAddress m = lit "789 Pine Rd"
       /\ addressScore m = 1%float.
Proof.
  assert (H1 : parsePythonDict (ShippingAddress (pineRecord None None))
               = Return (Some (JObj [(lit "street", JStr (lit "789 Pine Rd"));
                                     (lit "city", JStr (lit "Metro"))])))
    by (vm_compute; reflexivity).
  assert (H2 : streetOf (Some (JObj [(lit "street", JStr (lit "789 Pine Rd"));
                                     (lit "city", JStr (lit "Metro"))]))
                 (Name (pineRecord None None)) = JStr (lit "789 Pine Rd"))
    by (vm_compute; reflexivity).
  assert (H3 : normalizeAddress (lit "789 Pine Rd") = normalizeAddress (street pineQuery))
    by (vm_compute; reflexivity).
  assert (H4 : normalizeAddress (lit "789 Pine Rd") <> [])
    by (vm_compute; discriminate).
  split; [exact H1|]. split; [exact H3|]. split; [exact H4|].
  exact (@same_street_kept pineQuery _ _ _ H1 H2 H3 H4).
Defined.

(** Twelve records, all kept: ten are returned, and the two left out, the
    records of 9 Pine Rd and 77 Sunset Blvd, score below each of the ten. *)
Lemma ranked_best_ten_witness :
  sizedParams storageQuery
  /\ Forall sizedRecord twelveRecords
  /\ exists out,
       getSalesforceMetadataByAddress storageQuery twelveRecords = Return out
       /\ length out = 10
       /\ length (flat_map (keptOf (targetStreetOf storageQuery)
                                   (targetStoreNameOf storageQuery)) twelveRecords) = 12
       /\ let kept :=
            flat_map (keptOf (targetStreetOf storageQuery)
                             (targetStoreNameOf storageQuery)) twelveRecords in
          exists dropped,
            Permutation (out ++ dropped) kept
            /\ length dropped = length kept - 10
            /\ forall m d, In m out -> In d dropped ->
                 (combinedScore d <=? combinedScore m)%float = true.
Proof.
  assert (Hp : sizedParams storageQuery)
    by (split; vm_compute; reflexivity).
  assert (Hr : Forall sizedRecord twelveRecords)
    by (repeat constructor; vm_compute; reflexivity).
  assert (H : exists out,
             getSalesforceMetadataByAddress storageQuery twelveRecords = Return out
             /\ length out = 10)
    by (eexists; split; vm_compute; reflexivity).
  split; [exact Hp|]. split; [exact Hr|].
  destruct H as (out & H & Hl). exists out. split; [exact H|]. split; [exact Hl|].
  split; [vm_compute; reflexivity|].
  exact (@ranked_best_ten _ _ _ Hp Hr H).
Defined.

(** The two records in either order. *)
Lemma ranked_order_independent_witness :
  sizedParams (acmeQuery [] [] [])
  /\ Forall sizedRecord rankedRecords
  /\ Permutation rankedRecords (rev rankedRecords)
  /\ tieFree (flat_map (keptOf (targetStreetOf (acmeQuery [] [] []))
                               (targetStoreNameOf (acmeQuery [] [] []))) rankedRecords)
  /\ exists out out',
       getSalesforceMetadataByAddress (acmeQuery [] [] []) rankedRecords = Return out
       /\ getSalesforceMetadataByAddress (acmeQuery [] [] []) (rev rankedRecords)
          = Return out'
       /\ length out = 2
       /\ out = out'.
Proof.
  assert (Hp : sizedParams (acmeQuery [] [] []))
    by (split; vm_compute; reflexivity).
  assert (Hr : Forall sizedRecord rankedRecords)
    by (repeat constructor; vm_compute; reflexivity).
  assert (Hperm : Permutation rankedRecords (rev rankedRecords))
    by apply Permutation_rev.
  assert (Ht : tieFree (flat_map (keptOf (targetStreetOf (acmeQuery [] [] []))
                                         (targetStoreNameOf (acmeQuery [] [] [])))
                          rankedRecords))
    by (eapply tieFree_two; vm_compute; reflexivity).
  assert (H : exists out,
             getSalesforceMetadataByAddress (acmeQuery [] [] []) rankedRecords = Return out
             /\ length out = 2)
    by (eexists; split; vm_compute; reflexivity).
  assert (H' : exists out',
             getSalesforceMetadataByAddress (acmeQuery [] [] []) (rev rankedRecords)
             = Return out')
    by (eexists; vm_compute; reflexivity).
  split; [exact Hp|]. split; [exact Hr|]. split; [exact Hperm|]. split; [exact Ht|].
  destruct H as (out & H & Hl). destruct H' as (out' & H'). exists out, out'.
  split; [exact H|]. split; [exact H'|]. split; [exact Hl|].
  exact (@ranked_order_independent _ _ _ _ _ Hp Hr Hperm Ht H H').
Defined.

(** A response in the format of the service: its rows are not seen. *)
Lemma trailing_rates_rows_witness :
  Queries.universalQuery rowsResponse
  = Return (JArr [JObj [(lit "Store_ID", JNum 7%float)]])
  /\ exists v,
       Queries.rows (JArr [JObj [(lit "Store_ID", JNum 7%float)]]) = Return v
       /\ v = JArr [].
Proof.
  assert (H : Queries.universalQuery rowsResponse
              = Return (JArr [JObj [(lit "Store_ID", JNum 7%float)]]))
    by reflexivity.
  split; [exact H|].
  destruct (@QueriesFacts.trailing_rates_rows _ _ H) as (v & Hv & Ha & _).
  exists v. split; [exact Hv|]. apply Ha. reflexivity.
Defined.

Lemma fetchHistoricalData_first_success_witness :
  lit "Bearer t" <> []
  /\ 2 < 3
  /\ (forall j, j < 2 -> succeeded (thirdTime j) = false)
  /\ thirdTime 2 = StorTrack.Ok (Some (JObj []))
  /\ exists waits,
       StorTrack.fetchHistoricalData (Some (lit "Bearer t")) thirdTime 3
       = (StorTrack.Returned (StorTrack.asArray (JObj [])), waits)
       /\ length waits = 2.
Proof.
  assert (H1 : lit "Bearer t" <> []) by discriminate.
  assert (H2 : 2 < 3) by lia.
  assert (H3 : forall j, j < 2 -> succeeded (thirdTime j) = false).
  { intros [|[|j]] Hj; [reflexivity|reflexivity|lia]. }
  assert (H4 : thirdTime 2 = StorTrack.Ok (Some (JObj []))) by reflexivity.
  split; [exact H1|]. split; [exact H2|]. split; [exact H3|]. split; [exact H4|].
  exact (@StorTrackFacts.fetchHistoricalData_first_success _ _ _ _ _ H1 H2 H3 H4).
Defined.

Lemma fetchHistoricalData_exhausted_witness :
  lit "Bearer t" <> []
  /\ 0 < 3
  /\ (forall j, j < 3 -> succeeded (alwaysBusy j) = false)
  /\ exists e waits,
       StorTrack.fetchHistoricalData (Some (lit "Bearer t")) alwaysBusy 3
       = (StorTrack.Thrown e, waits)
       /\ e = StorTrack.MaxRetriesExceeded /\ length waits = 3.
Proof.
  assert (H1 : lit "Bearer t" <> []) by discriminate.
  assert (H2 : 0 < 3) by lia.
  assert (H3 : forall j, j < 3 -> succeeded (alwaysBusy j) = false)
    by (intros; reflexivity).
  split; [exact H1|]. split; [exact H2|]. split; [exact H3|].
  destruct (@StorTrackFacts.fetchHistoricalData_exhausted _ alwaysBusy 3 H1 H2 H3) as (e & waits & H & Hc).
  exists e, waits. split; [exact H|]. exact Hc.
Defined.

(** A date, of which the year is read. *)
Lemma sanitizeYearBuilt_leading_digits_witness :
  Forall (fun c => isSpace c = true) (lit " ")
  /\ lit "1999" <> []
  /\ forallb isDigit (lit "1999") = true
  /\ Api.parseInt10 (lit " " ++ lit "1999" ++ lit "-05-01") = Some 1999%Z
  /\ Api.sanitizeYearBuilt (Some (lit " " ++ lit "1999" ++ lit "-05-01")) = Some 1999%Z.
Proof.
  assert (H1 : Forall (fun c => isSpace c = true) (lit " "))
    by (repeat constructor).
  assert (H2 : lit "1999" <> []) by discriminate.
  assert (H3 : forallb isDigit (lit "1999") = true) by reflexivity.
  assert (H4 : match lit "-05-01" with c :: _ => isDigit c = false | [] => True end)
    by reflexivity.
  split; [exact H1|]. split; [exact H2|]. split; [exact H3|].
  exact (@sanitizeYearBuilt_leading_digits (lit " ") (lit "1999") (lit "-05-01") H1 H2 H3 H4).
Defined.
